(** * ASSURE CODE: the regulation-impact-to-spec-patch pipeline

    A shallow embedding of the impact analyzer ([findAffectedSpecs],
    [cosineSimilarity]), the clause-level diff engine
    ([detectAffectedModules], [generateModuleDiffs], [applyDiffsToSpec]) and
    the spec patcher ([patchSpec], [bumpMinorVersion]), and of the services
    around them: the embedding client ([embedQuery], [embedDocuments]), the
    regulation store ([upsertRegulations]), the consumers of
    [regulation.new] and [spec.pr_requested], the workspace and
    compliance-job services ([create], [findById], [checkReportLimit],
    [submitJob]) and the review rule of the scanner
    ([requiresHumanReview]); followed by the properties of the pipeline.

    JavaScript numbers are IEEE-754 binary64 values: they are modelled by the
    primitive floats of the kernel, whose operations are the same binary64
    operations.  JSON documents are a generic tree.  External capabilities
    (the text-generation API, the embedding API, the database, the message
    broker, the uuid generator) are parameters of the model. *)

From Stdlib Require Import ZArith NArith List String Ascii Floats Lia Bool.
From Stdlib Require Import DecimalString Sorted Permutation.
From Stdlib Require Import DecimalN DecimalPos.
From Stdlib Require Uint63.
From stdpp Require Import gmap strings list.

Set Warnings "-register-all".

Local Open Scope string_scope.
Local Open Scope list_scope.

(** ** Outcomes of a call: a returned value or a thrown error *)

Inductive Error : Type :=
| SpecNotFound (specVersionId : string)
| InsertFailed
| QueryFailed
| PublishFailed
| TypeError
| CapabilityError (message : string)
(** [new Error(`${prefix}${cause.message}`)] *)
| Rethrown (prefix : string) (cause : Error).

Inductive Outcome (A : Type) : Type :=
| Returned (a : A)
| Threw (e : Error).
Arguments Returned {A} a.
Arguments Threw {A} e.

(** ** JavaScript values

    A string is the sequence of bytes of its UTF-8 encoding (a lone
    surrogate being encoded on three bytes like the other code points of
    the basic plane), so that a code unit of the JavaScript string is one
    character of one, two or three bytes, or one half of a character of
    four bytes. *)

Module JS.

(** A parsed JSON document.  Objects keep their properties in a list. *)
Inductive JSON : Type :=
| JNull
| JBool (b : bool)
| JNum (n : float)
| JStr (s : string)
| JArr (items : list JSON)
| JObj (props : list (string * JSON)).

Definition Props : Type := list (string * JSON).

(** [!v] is [negb (truthy v)]. *)
Definition truthy (v : JSON) : bool :=
  match v with
  | JNull => false
  | JBool b => b
  | JNum n => negb (n =? 0)%float && (n =? n)%float
  | JStr s => negb (String.eqb s "")
  | JArr _ | JObj _ => true
  end.

(** [o[k]] on an own property; [None] is [undefined]. *)
Fixpoint get (k : string) (o : Props) : option JSON :=
  match o with
  | [] => None
  | (k', v) :: o' => if String.eqb k k' then Some v else get k o'
  end.

(** [o[k] = v]: an existing property keeps its place. *)
Fixpoint set (k : string) (v : JSON) (o : Props) : Props :=
  match o with
  | [] => [(k, v)]
  | (k', v') :: o' =>
      if String.eqb k k' then (k, v) :: o' else (k', v') :: set k v o'
  end.

(** [o] has an own property [k]. *)
Definition has (k : string) (o : Props) : bool :=
  match get k o with Some _ => true | None => false end.

(** The conversion of a parsed value to a string, as it happens in
    [`${v}`], in [join] and when [v] is used as a property key, raises a
    [TypeError] on an object that has an own property [toString]: a parsed
    value is never a function, so the conversion turns to [valueOf], which is
    either an own property, again no function, or the inherited one, which
    returns the object itself, and no primitive value is obtained.  An
    object without that property converts to ["[object Object]"].  An array
    converts by [join], which converts every element other than [null]. *)
Fixpoint unprintable (v : JSON) : bool :=
  match v with
  | JObj o => has "toString" o
  | JArr items => existsb unprintable items
  | _ => false
  end.

(** The same for a value that may be [undefined], which prints as
    ["undefined"]. *)
Definition unprintable_field (v : option JSON) : bool :=
  match v with Some v => unprintable v | None => false end.

Definition index_key (i : nat) : string :=
  NilEmpty.string_of_uint (Nat.to_uint i).

Fixpoint indexed {A : Type} (f : A -> JSON) (i : nat) (l : list A) : Props :=
  match l with
  | [] => []
  | x :: l' => (index_key i, f x) :: indexed f (S i) l'
  end.

(** *** Code units *)

(** The three bytes of a code point of the basic plane from [0x800] on. *)
Definition three_bytes (u : N) : string :=
  String (ascii_of_N (224 + u / 4096)%N)
    (String (ascii_of_N (128 + (u / 64) mod 64)%N)
       (String (ascii_of_N (128 + u mod 64)%N) "")).

(** The two surrogates of the character of four bytes [c1 c2 c3 c4]. *)
Definition surrogates (c1 c2 c3 c4 : ascii) : list string :=
  let code :=
    ((N_of_ascii c1 mod 8) * 262144 + (N_of_ascii c2 mod 64) * 4096
     + (N_of_ascii c3 mod 64) * 64 + N_of_ascii c4 mod 64)%N in
  let rest := (code - 65536)%N in
  [three_bytes (55296 + rest / 1024)%N;
   three_bytes (56320 + rest mod 1024)%N].

(** The code units of a string, each as a string of its own. *)
Fixpoint code_units (s : string) : list string :=
  match s with
  | EmptyString => []
  | String c1 s1 =>
      let n1 := nat_of_ascii c1 in
      if Nat.ltb n1 192 then String c1 "" :: code_units s1
      else
        match s1 with
        | EmptyString => [String c1 ""]
        | String c2 s2 =>
            if Nat.ltb n1 224
            then String c1 (String c2 "") :: code_units s2
            else
              match s2 with
              | EmptyString => [String c1 (String c2 "")]
              | String c3 s3 =>
                  if Nat.ltb n1 240
                  then String c1 (String c2 (String c3 "")) :: code_units s3
                  else
                    match s3 with
                    | EmptyString => [String c1 (String c2 (String c3 ""))]
                    | String c4 s4 =>
                        surrogates c1 c2 c3 c4 ++ code_units s4
                    end
              end
        end
  end.

(** The own enumerable properties copied by the spread [{...v}].  A string
    spreads into its code units, an array into its elements, [null] and the
    other primitives into nothing. *)
Definition spread (v : JSON) : Props :=
  match v with
  | JObj o => o
  | JArr l => indexed (fun x => x) 0 l
  | JStr s => indexed JStr 0 (code_units s)
  | _ => []
  end.

(** *** Strings: the fence-stripping of the generated text *)

Definition LF : ascii := "010"%char.

Fixpoint strip_prefix (p s : string) : option string :=
  match p, s with
  | EmptyString, _ => Some s
  | String a p', String b s' =>
      if Ascii.eqb a b then strip_prefix p' s' else None
  | String _ _, EmptyString => None
  end.

Definition strip_optional (p s : string) : string :=
  match strip_prefix p s with Some r => r | None => s end.

Definition reverse (s : string) : string :=
  string_of_list_ascii (rev (list_ascii_of_string s)).

(** [s.replace(/^```(?:json)?\n?/, '')] *)
Definition strip_opening_fence (s : string) : string :=
  match strip_prefix "```" s with
  | None => s
  | Some r => strip_optional (String LF "") (strip_optional "json" r)
  end.

(** [s.replace(/\n?```$/, '')] *)
Definition strip_closing_fence (s : string) : string :=
  match strip_prefix "```" (reverse s) with
  | None => s
  | Some r => reverse (strip_optional (String LF "") r)
  end.

(** The white space and the line terminators that [trim] removes.  Of one
    byte: tab, line feed, vertical tab, form feed, carriage return and
    space. *)
Definition is_space (c : ascii) : bool :=
  let n := nat_of_ascii c in
  (Nat.eqb n 32 || (Nat.leb 9 n && Nat.leb n 13))%bool.

(** Of two bytes: the no-break space [U+00A0]. *)
Definition is_space2 (c1 c2 : ascii) : bool :=
  (Nat.eqb (nat_of_ascii c1) 194 && Nat.eqb (nat_of_ascii c2) 160)%bool.

(** Of three bytes: [U+1680], [U+2000] to [U+200A], the line and paragraph
    separators [U+2028] and [U+2029], [U+202F], [U+205F], [U+3000] and the
    byte order mark [U+FEFF]. *)
Definition is_space3 (c1 c2 c3 : ascii) : bool :=
  let n1 := nat_of_ascii c1 in
  let n2 := nat_of_ascii c2 in
  let n3 := nat_of_ascii c3 in
  (Nat.eqb n1 225 && Nat.eqb n2 154 && Nat.eqb n3 128
   || Nat.eqb n1 226 && Nat.eqb n2 128
      && (Nat.leb 128 n3 && Nat.leb n3 138 || Nat.eqb n3 168
          || Nat.eqb n3 169 || Nat.eqb n3 175)
   || Nat.eqb n1 226 && Nat.eqb n2 129 && Nat.eqb n3 159
   || Nat.eqb n1 227 && Nat.eqb n2 128 && Nat.eqb n3 128
   || Nat.eqb n1 239 && Nat.eqb n2 187 && Nat.eqb n3 191)%bool.

(** The white space at the start of [s] removed; with [backwards], [s] is a
    reversed string, whose characters are read last byte first. *)
Fixpoint skip_spaces (backwards : bool) (s : string) : string :=
  match s with
  | String c1 s1 =>
      if is_space c1 then skip_spaces backwards s1
      else
        match s1 with
        | String c2 s2 =>
            if (if backwards then is_space2 c2 c1 else is_space2 c1 c2)
            then skip_spaces backwards s2
            else
              match s2 with
              | String c3 s3 =>
                  if (if backwards then is_space3 c3 c2 c1
                      else is_space3 c1 c2 c3)
                  then skip_spaces backwards s3
                  else s
              | EmptyString => s
              end
        | EmptyString => s
        end
  | EmptyString => s
  end.

Definition trim_start (s : string) : string := skip_spaces false s.

Definition trim_end (s : string) : string :=
  reverse (skip_spaces true (reverse s)).

Definition trim (s : string) : string := trim_end (trim_start s).

Definition clean (text : string) : string :=
  trim (strip_closing_fence (strip_opening_fence text)).

End JS.

(** ** Data model (the spec system types) *)

Module Types.
Import JS.

Inductive SpecStatus : Type := draft | active | superseded | archived.

Inductive TriggeredBy : Type := user | regulation_update | scan.

Inductive ModuleKey : Type :=
| Master_specification
| Security_blueprint
| Cost_analysis
| Tech_stack_justification
| Code_scaffolding.

Definition ModuleKey_eqb (a b : ModuleKey) : bool :=
  match a, b with
  | Master_specification, Master_specification
  | Security_blueprint, Security_blueprint
  | Cost_analysis, Cost_analysis
  | Tech_stack_justification, Tech_stack_justification
  | Code_scaffolding, Code_scaffolding => true
  | _, _ => false
  end.

Definition module_name (k : ModuleKey) : string :=
  match k with
  | Master_specification => "master_specification"
  | Security_blueprint => "security_blueprint"
  | Cost_analysis => "cost_analysis"
  | Tech_stack_justification => "tech_stack_justification"
  | Code_scaffolding => "code_scaffolding"
  end.

Definition module_of_name (s : string) : option ModuleKey :=
  if String.eqb s "master_specification" then Some Master_specification
  else if String.eqb s "security_blueprint" then Some Security_blueprint
  else if String.eqb s "cost_analysis" then Some Cost_analysis
  else if String.eqb s "tech_stack_justification"
       then Some Tech_stack_justification
  else if String.eqb s "code_scaffolding" then Some Code_scaffolding
  else None.

(** The conversion of a JSON value to a property key.  A string is itself
    and a one-element array converts like its element, [null] apart, which
    [join] turns into the empty string.  The other conversions that succeed
    (["null"], ["true"], a number, ["[object Object]"], an array of several
    elements joined by commas, the empty string) name no property of the
    objects below. *)
Inductive PropertyKey : Type :=
| Named (s : string)
| Unnamed
| NoKey.

Fixpoint property_key (v : JSON) : PropertyKey :=
  match v with
  | JStr s => Named s
  | JArr [x] => property_key x
  | JArr items => if existsb unprintable items then NoKey else Unnamed
  | JObj o => if has "toString" o then NoKey else Unnamed
  | JNull | JBool _ | JNum _ => Unnamed
  end.

(** The properties every object literal inherits from [Object.prototype];
    each is a function or an object, hence truthy. *)
Definition inherited_properties : list string :=
  ["constructor"; "__proto__"; "hasOwnProperty"; "isPrototypeOf";
   "propertyIsEnumerable"; "toLocaleString"; "toString"; "valueOf";
   "__defineGetter__"; "__defineSetter__"; "__lookupGetter__";
   "__lookupSetter__"].

(** What a key names in an object whose own properties are the five
    modules; [Unconvertible] is the key whose conversion raises a
    [TypeError]. *)
Inductive Property : Type :=
| Own (k : ModuleKey)
| Inherited
| Absent
| Unconvertible.

Definition property_of (v : JSON) : Property :=
  match property_key v with
  | Named s =>
      match module_of_name s with
      | Some k => Own k
      | None =>
          if existsb (String.eqb s) inherited_properties then Inherited
          else Absent
      end
  | Unnamed => Absent
  | NoKey => Unconvertible
  end.

(** The five module payloads; [JNull] stands for an absent payload. *)
Record Modules : Type := {
  master_specification : JSON;
  security_blueprint : JSON;
  cost_analysis : JSON;
  tech_stack_justification : JSON;
  code_scaffolding : JSON;
}.

Definition module_get (k : ModuleKey) (m : Modules) : JSON :=
  match k with
  | Master_specification => master_specification m
  | Security_blueprint => security_blueprint m
  | Cost_analysis => cost_analysis m
  | Tech_stack_justification => tech_stack_justification m
  | Code_scaffolding => code_scaffolding m
  end.

Definition module_set (k : ModuleKey) (v : JSON) (m : Modules) : Modules :=
  match k with
  | Master_specification =>
      {| master_specification := v;
         security_blueprint := security_blueprint m;
         cost_analysis := cost_analysis m;
         tech_stack_justification := tech_stack_justification m;
         code_scaffolding := code_scaffolding m |}
  | Security_blueprint =>
      {| master_specification := master_specification m;
         security_blueprint := v;
         cost_analysis := cost_analysis m;
         tech_stack_justification := tech_stack_justification m;
         code_scaffolding := code_scaffolding m |}
  | Cost_analysis =>
      {| master_specification := master_specification m;
         security_blueprint := security_blueprint m;
         cost_analysis := v;
         tech_stack_justification := tech_stack_justification m;
         code_scaffolding := code_scaffolding m |}
  | Tech_stack_justification =>
      {| master_specification := master_specification m;
         security_blueprint := security_blueprint m;
         cost_analysis := cost_analysis m;
         tech_stack_justification := v;
         code_scaffolding := code_scaffolding m |}
  | Code_scaffolding =>
      {| master_specification := master_specification m;
         security_blueprint := security_blueprint m;
         cost_analysis := cost_analysis m;
         tech_stack_justification := tech_stack_justification m;
         code_scaffolding := v |}
  end.

(** The value of [modules[key]]: a payload, or one of the inherited
    built-ins. *)
Inductive ModuleData : Type :=
| Payload (v : JSON)
| BuiltIn.

(** [modules[key]]; [None] is [undefined]. *)
Definition modules_get (m : Modules) (key : JSON)
  : Outcome (option ModuleData) :=
  match property_of key with
  | Own k => Returned (Some (Payload (module_get k m)))
  | Inherited => Returned (Some BuiltIn)
  | Absent => Returned None
  | Unconvertible => Threw TypeError
  end.

Definition data_truthy (d : option ModuleData) : bool :=
  match d with
  | Some (Payload v) => truthy v
  | Some BuiltIn => true
  | None => false
  end.

(** A row of [spec_versions], as [mapRowToSpec] reads it.  The columns the
    patcher neither reads nor writes ([created_at], [scan_score],
    [github_pr_url]) are left out.  [version_number] is an [int] column. *)
Record SpecVersion : Type := {
  id : string;
  workspaceId : string;
  parentId : option string;
  versionNumber : Z;
  versionLabel : option string;
  status : SpecStatus;
  changeReason : string;
  triggeredBy : TriggeredBy;
  regulationTrigger : option string;
  jurisdictions : list string;
  frameworks : list string;
  modules : Modules;
  createdBy : option string;
}.

Definition with_status (s : SpecStatus) (v : SpecVersion) : SpecVersion :=
  {| id := id v; workspaceId := workspaceId v; parentId := parentId v;
     versionNumber := versionNumber v; versionLabel := versionLabel v;
     status := s; changeReason := changeReason v;
     triggeredBy := triggeredBy v; regulationTrigger := regulationTrigger v;
     jurisdictions := jurisdictions v; frameworks := frameworks v;
     modules := modules v; createdBy := createdBy v |}.

Definition SpecStatus_eqb (a b : SpecStatus) : bool :=
  match a, b with
  | draft, draft | active, active | superseded, superseded
  | archived, archived => true
  | _, _ => false
  end.

Record Regulation : Type := {
  reg_id : string;
  framework : string;
  article : string;
  title : string;
  content : string;
  jurisdiction : string;
  severity : string;
}.

(** [`${regulation.framework} ${regulation.article}`] *)
Definition trigger_of (r : Regulation) : string :=
  framework r ++ " " ++ article r.

(** A clause diff is the object built from one element of the generated
    array; its fields are read with [get]. *)
Definition ClauseDiff : Type := Props.

(** A row of [spec_diffs]. *)
Record DiffRow : Type := {
  from_version_id : string;
  to_version_id : string;
  module : option JSON;
  clause_path : option JSON;
  field_label : option JSON;
  before_value : option JSON;
  after_value : option JSON;
  reason : option JSON;
  diff_regulation_trigger : option JSON;
  diff_severity : option JSON;
}.

Inductive ImpactStatus : Type := patched | no_change | failed | pr_created.

(** A row of [regulation_impact_log]. *)
Record ImpactRow : Type := {
  regulation_id : string;
  regulation_ref : string;
  log_workspace_id : string;
  spec_version_id : string;
  new_spec_version_id : option string;
  affected_modules : list JSON;
  diff_count : nat;
  impact_status : ImpactStatus;
}.

Inductive Topic : Type := SPEC_UPDATED | SPEC_PR_REQUESTED.

Inductive Event : Type :=
| SpecUpdatedEvent (eventId workspaceId specVersionId newVersionId
    regulationTrigger : string) (affectedModules : list JSON)
    (diffs : list ClauseDiff) (githubPrRequested : bool)
| SpecPrRequestedEvent (eventId workspaceId specVersionId previousVersionId
    regulationTrigger : string) (affectedModules : list JSON)
    (diffs : list ClauseDiff) (versionLabel : string).

Record SpecPatchResult : Type := {
  specVersionId : string;
  newVersionId : string;
  newVersionNumber : Z;
  diffs : list ClauseDiff;
  affectedModules : list JSON;
  res_regulationTrigger : string;
  patchedAt : string;
}.

Record PatchSpecInput : Type := {
  in_specVersionId : string;
  in_workspaceId : string;
  in_regulation : Regulation;
}.

End Types.

(** ** The world the pipeline runs in *)

Module Runtime.
Import JS Types.

(** The first content block of a text-generation response. *)
Inductive Block : Type := Text (text : string) | Other.

(** The collaborators.  Every external interaction of a run takes the next
    tick, and the collaborator answers according to the tick. *)
Record Env : Type := {
  (** [client.messages.create]: the first content block, or a rejection.  A
      response without any content block is the rejection [TypeError]:
      reading the type of its first block, which is what follows the call,
      raises it. *)
  messages_create : nat -> Outcome Block;
  (** [JSON.parse]; [None] is a [SyntaxError] *)
  JSON_parse : string -> option JSON;
  uuidv4 : nat -> string;
  (** [new Date().toISOString()] *)
  now : nat -> string;
  (** whether the database answers the request made at that tick *)
  db_up : nat -> bool;
  (** whether the broker accepts the message sent at that tick *)
  broker_up : nat -> bool;
  (** the text of [parseInt(d) + 1] for a decimal [d] of value 2^53 or more,
      where the addition is no longer an exact successor *)
  inexact_successor : N -> string;
}.

Record World : Type := {
  ticks : nat;
  spec_versions : gmap string SpecVersion;
  spec_diffs : list DiffRow;
  regulation_impact_log : list ImpactRow;
  published : list (Topic * Event);
}.

Definition M (A : Type) : Type := World -> Outcome A * World.

Definition ret {A : Type} (a : A) : M A := fun w => (Returned a, w).

Definition throw {A : Type} (e : Error) : M A := fun w => (Threw e, w).

Definition bind {A B : Type} (m : M A) (k : A -> M B) : M B :=
  fun w =>
    match m w with
    | (Returned a, w') => k a w'
    | (Threw e, w') => (Threw e, w')
    end.

Definition tick : M nat :=
  fun w =>
    (Returned (ticks w),
     {| ticks := S (ticks w); spec_versions := spec_versions w;
        spec_diffs := spec_diffs w;
        regulation_impact_log := regulation_impact_log w;
        published := published w |}).

Definition read_versions : M (gmap string SpecVersion) :=
  fun w => (Returned (spec_versions w), w).

Definition write_versions (t : gmap string SpecVersion) : M unit :=
  fun w =>
    (Returned tt,
     {| ticks := ticks w; spec_versions := t; spec_diffs := spec_diffs w;
        regulation_impact_log := regulation_impact_log w;
        published := published w |}).

Definition append_diffs (rows : list DiffRow) : M unit :=
  fun w =>
    (Returned tt,
     {| ticks := ticks w; spec_versions := spec_versions w;
        spec_diffs := spec_diffs w ++ rows;
        regulation_impact_log := regulation_impact_log w;
        published := published w |}).

Definition append_impact (row : ImpactRow) : M unit :=
  fun w =>
    (Returned tt,
     {| ticks := ticks w; spec_versions := spec_versions w;
        spec_diffs := spec_diffs w;
        regulation_impact_log := regulation_impact_log w ++ [row];
        published := published w |}).

Definition append_event (t : Topic) (e : Event) : M unit :=
  fun w =>
    (Returned tt,
     {| ticks := ticks w; spec_versions := spec_versions w;
        spec_diffs := spec_diffs w;
        regulation_impact_log := regulation_impact_log w;
        published := published w ++ [(t, e)] |}).

End Runtime.

Notation "'let*' x ':=' m 'in' k" := (Runtime.bind m (fun x => k))
  (at level 10, x name, m at level 100, k at level 200).

(** ** Clause-level diff engine *)

Module DiffEngine.
Import JS Types Runtime.

Section WithEnv.
Variable env : Env.

(** One call of [client.messages.create]; a rejection propagates. *)
Definition create : M Block :=
  let* n := tick in
  match messages_create env n with
  | Returned b => ret b
  | Threw e => throw e
  end.

(** [response.content[0].type === 'text' ? response.content[0].text : d] *)
Definition text_or (d : string) (b : Block) : string :=
  match b with Text t => t | Other => d end.

Definition fallback_modules : JSON :=
  JArr [JStr "master_specification"; JStr "security_blueprint"].

(** [v?.k] for a property [k] that no prototype defines; [None] is
    [undefined]. *)
Definition field (k : string) (v : JSON) : option JSON :=
  match v with
  | JObj o => get k o
  | _ => None
  end.

(** [`${v ?? d}`] raises a [TypeError] when [v] is neither [undefined] nor
    [null] and cannot be converted to a string. *)
Definition default_raises (v : option JSON) : bool :=
  match v with
  | None | Some JNull => false
  | Some v => unprintable v
  end.

Definition is_null (v : JSON) : bool :=
  match v with JNull => true | _ => false end.

(** [xs?.map(x => x.k)] raises a [TypeError] unless [xs] is [undefined],
    [null] or an array without a [null] element: no other parsed value has
    a function [map], and [null.k] raises. *)
Definition map_raises (xs : option JSON) : bool :=
  match xs with
  | None | Some JNull => false
  | Some (JArr items) => existsb is_null items
  | Some _ => true
  end.

(** Whether the summary of the spec, which is part of the prompt of
    [detectAffectedModules], raises a [TypeError]: the project name is
    printed, the chosen technologies and the encryption mechanisms are
    mapped over. *)
Definition summary_raises (spec : SpecVersion) : bool :=
  default_raises (field "projectName" (master_specification (modules spec)))
  || map_raises (field "decisions" (tech_stack_justification (modules spec)))
  || map_raises
       (field "encryptionControls" (security_blueprint (modules spec))).

(** The prompt is built before the call, outside the [try]. *)
Definition detectAffectedModules (regulation : Regulation)
    (spec : SpecVersion) : M JSON :=
  if summary_raises spec then throw TypeError
  else
    let* block := create in
    let text := text_or "[]" block in
    match JSON_parse env (clean text) with
    | Some parsed => ret parsed
    | None => ret fallback_modules
    end.

(** [{ ...d, module: moduleKey, regulationTrigger: ... }] *)
Definition stamp (regulation : Regulation) (moduleKey : JSON) (d : JSON)
  : ClauseDiff :=
  set "regulationTrigger" (JStr (trigger_of regulation))
    (set "module" moduleKey (spread d)).

(** The prompt, which prints [moduleKey], is built before the call.
    [diffs.map] exists on arrays only: on any other parsed value the call
    raises a [TypeError] inside the [try], which the [catch] turns into the
    empty list. *)
Definition generateModuleDiffs (regulation : Regulation) (moduleKey : JSON)
    (currentModuleData : option ModuleData) : M (list ClauseDiff) :=
  if unprintable moduleKey then throw TypeError
  else
    let* block := create in
    let text := text_or "[]" block in
    match JSON_parse env (clean text) with
    | Some (JArr diffs) => ret (map (stamp regulation moduleKey) diffs)
    | _ => ret []
    end.

(** What [diff.module] names, used as a property key. *)
Definition diff_module (d : ClauseDiff) : Property :=
  match get "module" d with
  | Some v => property_of v
  | None => Absent
  end.

(** The fields of a diff that the prompt of [applyDiffsToSpec] prints. *)
Definition printed_fields : list string :=
  ["clausePath"; "fieldLabel"; "before"; "after"; "reason"].

(** Printing the diff raises a [TypeError]. *)
Definition diff_raises (d : ClauseDiff) : bool :=
  existsb (fun k => unprintable_field (get k d)) printed_fields.

(** [diffsByModule[k].push(d)], creating the entry at the end when it is
    missing. *)
Fixpoint push_diff (k : ModuleKey) (d : ClauseDiff)
    (groups : list (ModuleKey * list ClauseDiff))
  : list (ModuleKey * list ClauseDiff) :=
  match groups with
  | [] => [(k, [d])]
  | (k', ds) :: groups' =>
      if ModuleKey_eqb k k' then (k', ds ++ [d]) :: groups'
      else (k', ds) :: push_diff k d groups'
  end.

(** The grouping loop.  [Object.entries] lists the entries in the order of
    their creation.  An entry whose key is not a module name has no payload
    and is skipped by the loop below without any effect, so it is not
    recorded.  On a key that [diffsByModule] inherits, no entry is created
    and [push] is not a function: the loop raises a [TypeError] ([None]),
    as it does on a [module] that converts to no key. *)
Fixpoint group_diffs (ds : list ClauseDiff)
    (groups : list (ModuleKey * list ClauseDiff))
  : option (list (ModuleKey * list ClauseDiff)) :=
  match ds with
  | [] => Some groups
  | d :: ds' =>
      match diff_module d with
      | Own k => group_diffs ds' (push_diff k d groups)
      | Inherited | Unconvertible => None
      | Absent => group_diffs ds' groups
      end
  end.

(** The loop over the groups.  The prompt of a group, which prints the
    diffs of the group, is built before the call, outside the [try]. *)
Fixpoint apply_groups (spec : SpecVersion)
    (groups : list (ModuleKey * list ClauseDiff)) (updatedModules : Modules)
  : M Modules :=
  match groups with
  | [] => ret updatedModules
  | (key, moduleDiffs) :: rest =>
      let currentModule := module_get key (modules spec) in
      if negb (truthy currentModule) || Nat.eqb (length moduleDiffs) 0
      then apply_groups spec rest updatedModules
      else if existsb diff_raises moduleDiffs then throw TypeError
      else
        let* block := create in
        let text := text_or "" block in
        match JSON_parse env (clean text) with
        | Some parsed =>
            apply_groups spec rest (module_set key parsed updatedModules)
        | None => apply_groups spec rest updatedModules
        end
  end.

Definition applyDiffsToSpec (spec : SpecVersion) (ds : list ClauseDiff)
  : M Modules :=
  match group_diffs ds [] with
  | Some diffsByModule => apply_groups spec diffsByModule (modules spec)
  | None => throw TypeError
  end.

End WithEnv.
End DiffEngine.

(** ** Version store *)

Module VersionStore.
Import Types.

(** Modelled from the spec: the insertion of a row into [spec_versions].
    The table, its keys and the trigger that supersedes the parent live in a
    database migration ([003_specs.sql]) that is not among the sources; the
    patcher only relies on them ("Trigger auto-supersedes parent via DB
    trigger").  Following the specification: the row id is unique; the
    parent must be a stored version; "creating a child version
    transactionally flips the parent from [active] to [superseded] in the
    same unit of work that inserts the child"; and a transaction whose
    parent "is no longer [active]" must "abort, surfacing a retryable
    conflict rather than silently creating a second branch from the same
    parent".  [None] is the aborted transaction, which leaves the table as
    it was. *)
Definition insert_spec_version (row : SpecVersion)
    (t : gmap string SpecVersion) : option (gmap string SpecVersion) :=
  match t !! id row with
  | Some _ => None
  | None =>
      match parentId row with
      | None => Some (<[id row := row]> t)
      | Some p =>
          match t !! p with
          | None => None
          | Some parent =>
              if SpecStatus_eqb (status row) active then
                if SpecStatus_eqb (status parent) active
                then Some (<[id row := row]>
                             (<[p := with_status superseded parent]> t))
                else None
              else Some (<[id row := row]> t)
          end
      end
  end.

End VersionStore.

(** ** Spec patcher *)

Module SpecPatcher.
Import JS Types Runtime DiffEngine VersionStore.

Definition is_digit (c : ascii) : bool :=
  let n := nat_of_ascii c in (Nat.leb 48 n && Nat.leb n 57)%bool.

Fixpoint span_digits (s : string) : string * string :=
  match s with
  | String c s' =>
      if is_digit c
      then let (d, r) := span_digits s' in (String c d, r)
      else ("", s)
  | EmptyString => ("", "")
  end.

(** The group [(\d+)]: the longest run of digits, which must not be empty. *)
Definition digits1 (s : string) : option (string * string) :=
  match span_digits s with
  | (EmptyString, _) => None
  | (d, r) => Some (d, r)
  end.

(** [current.match(/^v?(\d+)\.(\d+)\.(\d+)$/)]: the groups [major] and
    [minor] of a match. *)
Definition match_version (current : string) : option (string * string) :=
  match digits1 (strip_optional "v" current) with
  | None => None
  | Some (major, r1) =>
  match strip_prefix "." r1 with
  | None => None
  | Some r1' =>
  match digits1 r1' with
  | None => None
  | Some (minor, r2) =>
  match strip_prefix "." r2 with
  | None => None
  | Some r2' =>
  match digits1 r2' with
  | None => None
  | Some (_, EmptyString) => Some (major, minor)
  | Some (_, String _ _) => None
  end end end end end.

Definition digit_value (c : ascii) : N := N.of_nat (nat_of_ascii c - 48).

Fixpoint parse_digits (acc : N) (s : string) : N :=
  match s with
  | String c s' => parse_digits (acc * 10 + digit_value c) s'
  | EmptyString => acc
  end.

(** [parseInt] on a run of decimal digits. *)
Definition parseInt (s : string) : N := parse_digits 0 s.

Definition decimal (n : N) : string := NilEmpty.string_of_uint (N.to_uint n).

Section WithEnv.
Variable env : Env.

(** [`${parseInt(minor) + 1}`]: exact below 2^53. *)
Definition successor_text (n : N) : string :=
  if (n <? 2 ^ 53)%N then decimal (n + 1) else inexact_successor env n.

Definition bumpMinorVersion (current : string) : string :=
  match match_version current with
  | None => current ++ ".1"
  | Some (major, minor) =>
      "v" ++ major ++ "." ++ successor_text (parseInt minor) ++ ".0"
  end.

(** *** Database and broker requests *)

Definition db_request : M bool :=
  let* n := tick in ret (db_up env n).

(** [from('spec_versions').select('*').eq('id', id).single()] followed by
    [if (fetchError || !specRow) throw]. *)
Definition load_spec (specVersionId : string) : M SpecVersion :=
  let* up := db_request in
  let* t := read_versions in
  match (if up : bool then t !! specVersionId else None) with
  | Some row => ret row
  | None => throw (SpecNotFound specVersionId)
  end.

(** [from('spec_versions').insert(row)] followed by
    [if (insertError) throw]. *)
Definition insert_version (row : SpecVersion) : M unit :=
  let* up := db_request in
  let* t := read_versions in
  match (if up : bool then insert_spec_version row t else None) with
  | Some t' => write_versions t'
  | None => throw InsertFailed
  end.

(** The two inserts whose result is not inspected. *)
Definition insert_diffs (rows : list DiffRow) : M unit :=
  let* up := db_request in
  if up : bool then append_diffs rows else ret tt.

Definition insert_impact (row : ImpactRow) : M unit :=
  let* up := db_request in
  if up : bool then append_impact row else ret tt.

Definition publishEvent (t : Topic) (e : Event) : M unit :=
  let* n := tick in
  if broker_up env n then append_event t e else throw PublishFailed.

Definition new_uuid : M string := let* n := tick in ret (uuidv4 env n).

Definition new_date : M string := let* n := tick in ret (now env n).

(** *** The affected-module list, as the patcher uses it

    [affectedModules.length === 0] holds of the empty array, of the empty
    string and of an object whose [length] is zero.  Past that test,
    [affectedModules.join(', ')] raises a [TypeError] on everything but an
    array; [null.length] raises it at once.  On an array, [join] raises it
    when an element cannot be converted to a string. *)
Inductive Affected : Type :=
| NoModules
| SomeModules (keys : list JSON)
| NotAnArray.

Definition affected_of (affectedModules : JSON) : Affected :=
  match affectedModules with
  | JArr [] => NoModules
  | JArr keys => SomeModules keys
  | JStr EmptyString => NoModules
  | JObj o =>
      match get "length" o with
      | Some (JNum n) => if (n =? 0)%float then NoModules else NotAnArray
      | _ => NotAnArray
      end
  | _ => NotAnArray
  end.

(** Step 3: the loop over the affected modules. *)
Fixpoint collect_diffs (regulation : Regulation) (currentSpec : SpecVersion)
    (keys : list JSON) (allDiffs : list ClauseDiff) : M (list ClauseDiff) :=
  match keys with
  | [] => ret allDiffs
  | moduleKey :: rest =>
      match modules_get (modules currentSpec) moduleKey with
      | Threw e => throw e
      | Returned moduleData =>
          if negb (data_truthy moduleData)
          then collect_diffs regulation currentSpec rest allDiffs
          else
            let* moduleDiffs :=
              generateModuleDiffs env regulation moduleKey moduleData in
            collect_diffs regulation currentSpec rest
              (allDiffs ++ moduleDiffs)
      end
  end.

Definition diff_row (from_id to_id : string) (d : ClauseDiff) : DiffRow :=
  {| from_version_id := from_id;
     to_version_id := to_id;
     module := get "module" d;
     clause_path := get "clausePath" d;
     field_label := get "fieldLabel" d;
     before_value := get "before" d;
     after_value := get "after" d;
     reason := get "reason" d;
     diff_regulation_trigger := get "regulationTrigger" d;
     diff_severity := get "severity" d |}.

Definition change_reason (regulation : Regulation) (n : nat) : string :=
  "Compliance update: " ++ trigger_of regulation ++ " — "
    ++ index_key n ++ " clause(s) patched".

(** The row inserted at step 5. *)
Definition new_version_row (workspaceId specVersionId : string)
    (currentSpec : SpecVersion) (regulation : Regulation)
    (allDiffs : list ClauseDiff) (updatedModules : Modules)
    (newVersionId : string) : SpecVersion :=
  {| id := newVersionId;
     workspaceId := workspaceId;
     parentId := Some specVersionId;
     versionNumber := (versionNumber currentSpec + 1)%Z;
     versionLabel :=
       Some (bumpMinorVersion
               (match versionLabel currentSpec with
                | Some l => l
                | None => "v1.0.0"
                end));
     status := active;
     changeReason := change_reason regulation (length allDiffs);
     triggeredBy := regulation_update;
     regulationTrigger := Some (trigger_of regulation);
     jurisdictions := jurisdictions currentSpec;
     frameworks := frameworks currentSpec;
     modules := updatedModules;
     createdBy := None |}.

(** The row inserted at step 7. *)
Definition impact_row (workspaceId specVersionId : string)
    (regulation : Regulation) (affectedModules : list JSON)
    (allDiffs : list ClauseDiff) (newVersionId : string) : ImpactRow :=
  {| regulation_id := reg_id regulation;
     regulation_ref := trigger_of regulation;
     log_workspace_id := workspaceId;
     spec_version_id := specVersionId;
     new_spec_version_id := Some newVersionId;
     affected_modules := affectedModules;
     diff_count := length allDiffs;
     impact_status := patched |}.

(** The result of the two early returns. *)
Definition unchanged_result (specVersionId : string)
    (currentSpec : SpecVersion) (regulation : Regulation)
    (affected : list JSON) : M SpecPatchResult :=
  let* date := new_date in
  ret {| specVersionId := specVersionId;
         newVersionId := specVersionId;
         newVersionNumber := versionNumber currentSpec;
         diffs := [];
         affectedModules := affected;
         res_regulationTrigger := trigger_of regulation;
         patchedAt := date |}.

Definition patchSpec (input : PatchSpecInput) : M SpecPatchResult :=
  let specVersionId := in_specVersionId input in
  let workspaceId := in_workspaceId input in
  let regulation := in_regulation input in
  (* Step 1 *)
  let* currentSpec := load_spec specVersionId in
  (* Step 2 *)
  let* detected := detectAffectedModules env regulation currentSpec in
  match affected_of detected with
  | NotAnArray => throw TypeError
  | NoModules => unchanged_result specVersionId currentSpec regulation []
  | SomeModules affectedModules =>
  if existsb unprintable affectedModules then throw TypeError
  else
  (* Step 3 *)
  let* allDiffs := collect_diffs regulation currentSpec affectedModules [] in
  if Nat.eqb (length allDiffs) 0
  then unchanged_result specVersionId currentSpec regulation affectedModules
  else
  (* Step 4 *)
  let* updatedModules := applyDiffsToSpec env currentSpec allDiffs in
  (* Step 5 *)
  let* newVersionId := new_uuid in
  let newVersionNumber := (versionNumber currentSpec + 1)%Z in
  let versionLabel :=
    bumpMinorVersion
      (match versionLabel currentSpec with Some l => l | None => "v1.0.0" end)
  in
  let* _ := insert_version
    (new_version_row workspaceId specVersionId currentSpec regulation
       allDiffs updatedModules newVersionId) in
  (* Step 6 *)
  let* _ := insert_diffs (map (diff_row specVersionId newVersionId) allDiffs) in
  (* Step 7 *)
  let* _ := insert_impact
    (impact_row workspaceId specVersionId regulation affectedModules
       allDiffs newVersionId) in
  (* Step 8 *)
  let* updatedId := new_uuid in
  let* _ := publishEvent SPEC_UPDATED
    (SpecUpdatedEvent updatedId workspaceId specVersionId newVersionId
       (trigger_of regulation) affectedModules allDiffs true) in
  let* requestId := new_uuid in
  let* _ := publishEvent SPEC_PR_REQUESTED
    (SpecPrRequestedEvent requestId workspaceId newVersionId specVersionId
       (trigger_of regulation) affectedModules allDiffs versionLabel) in
  let* date := new_date in
  ret {| specVersionId := specVersionId;
         newVersionId := newVersionId;
         newVersionNumber := newVersionNumber;
         diffs := allDiffs;
         affectedModules := affectedModules;
         res_regulationTrigger := trigger_of regulation;
         patchedAt := date |}
  end.

End WithEnv.
End SpecPatcher.

(** ** Impact analyzer: numeric helpers *)

Module ImpactAnalyzer.

(** The body of the [for] loop of [cosineSimilarity]: one pass that
    accumulates [dot], [normA] and [normB]. *)
Fixpoint cosine_loop (a b : list float) (dot normA normB : float)
  : float * float * float :=
  match a, b with
  | x :: a', y :: b' =>
      cosine_loop a' b' (dot + x * y)%float (normA + x * x)%float
        (normB + y * y)%float
  | _, _ => (dot, normA, normB)
  end.

Definition cosineSimilarity (a b : list float) : float :=
  if negb (Nat.eqb (length a) (length b)) then 0%float
  else
    let '(dot, normA, normB) := cosine_loop a b 0%float 0%float 0%float in
    let denominator := (sqrt normA * sqrt normB)%float in
    if (denominator =? 0)%float then 0%float else (dot / denominator)%float.

(** The three sums the loop computes, each on its own. *)
Definition dot_product (a b : list float) : float :=
  fold_left (fun acc xy => (acc + fst xy * snd xy)%float) (combine a b) 0%float.

Definition sum_squares (a : list float) : float :=
  fold_left (fun acc x => (acc + x * x)%float) a 0%float.

Definition norm_product (a b : list float) : float :=
  (sqrt (sum_squares a) * sqrt (sum_squares b))%float.

(** *** Collaborators of the analyzer *)

(** A row returned by the [find_affected_specs] database function. *)
Record Candidate : Type := {
  spec_id : string;
  workspace_id : string;
  version_number : Z;
  c_frameworks : list string;
  c_jurisdictions : list string;
}.

Record AffectedSpec : Type := {
  specId : string;
  workspaceId : string;
  versionNumber : Z;
  frameworks : list string;
  jurisdictions : list string;
  semanticScore : float;
}.

(** The fields of a master specification that the summary is built from;
    [None] is a missing field. *)
Record MasterSpecification : Type := {
  projectName : option string;
  projectSummary : option string;
  problemStatement : option string;
  (** [name], [description] *)
  coreFeatures : option (list (string * string));
  (** [from], [to], [dataType] *)
  dataFlows : option (list (string * string * string));
  (** [requirement] *)
  nonFunctionalRequirements : option (list string);
}.

(** The answer of [supabase.rpc]: an error, or the data, which may be
    [null]. *)
Inductive RpcResult : Type :=
| RpcError
| RpcData (candidates : option (list Candidate)).

(** Within one call the collaborators answer as functions of the request. *)
Record Env : Type := {
  (** [supabase.rpc('find_affected_specs', ...)] *)
  find_affected_specs : string -> string -> RpcResult;
  (** the [master_specification] of the version with that id; [None] when
      the row or the column is missing *)
  select_master_specification : string -> option MasterSpecification;
  (** [client.embeddings.create], reduced to the first embedding *)
  embeddings_create : string -> Outcome (list float);
}.

(** The double closest to 0.65. *)
Definition SEMANTIC_THRESHOLD : float := 0x1.4cccccccccccdp-1%float.

Definition or_empty (o : option string) : string :=
  match o with Some s => s | None => "" end.

Definition or_nil {A : Type} (o : option (list A)) : list A :=
  match o with Some l => l | None => [] end.

Definition non_empty (s : string) : bool := negb (String.eqb s "").

Definition extractMasterSpecText (masterSpec : MasterSpecification)
  : string :=
  let parts : list string :=
    [or_empty (projectName masterSpec);
     or_empty (projectSummary masterSpec);
     or_empty (problemStatement masterSpec)]
    ++ map (fun f => (fst f ++ ": " ++ snd f)%string)
         (or_nil (coreFeatures masterSpec))
    ++ map (fun d =>
              (fst (fst d) ++ " → " ++ snd (fst d) ++ ": " ++ snd d)%string)
         (or_nil (dataFlows masterSpec))
    ++ or_nil (nonFunctionalRequirements masterSpec) in
  String.concat (String JS.LF "") (List.filter non_empty parts).

(** [text.replace(/\n+/g, ' ')] *)
Fixpoint collapse_newlines (s : string) : string :=
  match s with
  | EmptyString => EmptyString
  | String c s' =>
      if Ascii.eqb c JS.LF then
        match s' with
        | String c' _ =>
            if Ascii.eqb c' JS.LF then collapse_newlines s'
            else String " " (collapse_newlines s')
        | EmptyString => String " " EmptyString
        end
      else String c (collapse_newlines s')
  end.

(** The comparator [(a, b) => b.semanticScore - a.semanticScore]. *)
Definition by_score (a b : AffectedSpec) : float :=
  (semanticScore b - semanticScore a)%float.

(** [Array.prototype.sort] is a stable sort: with a comparator [cmp], an
    element moves behind another one only when [cmp] is positive on the
    pair.  Insertion from the right is that sort. *)
Fixpoint sort_insert {A : Type} (cmp : A -> A -> float) (x : A)
    (l : list A) : list A :=
  match l with
  | [] => [x]
  | y :: l' =>
      if (0 <? cmp x y)%float then y :: sort_insert cmp x l'
      else x :: y :: l'
  end.

Definition sort {A : Type} (cmp : A -> A -> float) (l : list A) : list A :=
  fold_right (sort_insert cmp) [] l.

Section WithEnv.
Variable env : Env.

Definition embedQuery (text : string) : Outcome (list float) :=
  let sanitized := JS.trim (collapse_newlines text) in
  embeddings_create env sanitized.

Definition affected (c : Candidate) (score : float) : AffectedSpec :=
  {| specId := spec_id c;
     workspaceId := workspace_id c;
     versionNumber := version_number c;
     frameworks := c_frameworks c;
     jurisdictions := c_jurisdictions c;
     semanticScore := score |}.

(** The [for] loop over the candidates. *)
Fixpoint score_candidates (regulationEmbedding : list float)
    (candidates : list Candidate) (results : list AffectedSpec)
  : Outcome (list AffectedSpec) :=
  match candidates with
  | [] => Returned results
  | candidate :: rest =>
      match select_master_specification env (spec_id candidate) with
      | None => score_candidates regulationEmbedding rest results
      | Some master =>
          let masterSpecText := extractMasterSpecText master in
          match embedQuery masterSpecText with
          | Threw e => Threw e
          | Returned specEmbedding =>
              let similarity :=
                cosineSimilarity regulationEmbedding specEmbedding in
              if (SEMANTIC_THRESHOLD <=? similarity)%float
              then score_candidates regulationEmbedding rest
                     (results ++ [affected candidate similarity])
              else score_candidates regulationEmbedding rest results
          end
      end
  end.

(** [!regulationContent] holds of a missing argument and of the empty
    string. *)
Definition no_content (regulationContent : option string) : bool :=
  match regulationContent with
  | None => true
  | Some text => String.eqb text ""
  end.

Definition findAffectedSpecs (framework jurisdiction : string)
    (regulationContent : option string) : Outcome (list AffectedSpec) :=
  match find_affected_specs env framework jurisdiction with
  | RpcError => Threw QueryFailed
  | RpcData None | RpcData (Some []) => Returned []
  | RpcData (Some candidates) =>
      if no_content regulationContent
      then Returned (map (fun c => affected c 1%float) candidates)
      else
        match embedQuery (or_empty regulationContent) with
        | Threw e => Threw e
        | Returned regulationEmbedding =>
            match score_candidates regulationEmbedding candidates [] with
            | Threw e => Threw e
            | Returned results => Returned (sort by_score results)
            end
        end
  end.

End WithEnv.
End ImpactAnalyzer.

(** ** Notions used to state the properties *)

Module Specification.
Import JS Types Runtime DiffEngine SpecPatcher.

(** The four tables are the same in both worlds; only the clock of
    interactions may differ. *)
Definition same_tables (w w' : World) : Prop :=
  spec_versions w' = spec_versions w
  /\ spec_diffs w' = spec_diffs w
  /\ regulation_impact_log w' = regulation_impact_log w
  /\ published w' = published w.

(** The text-generation answer read at tick [n], once cleaned and parsed;
    [d] is the text standing for a block that is not a text block. *)
Definition parsed_reply (env : Env) (d : string) (n : nat) : option JSON :=
  match messages_create env n with
  | Returned block => JSON_parse env (clean (text_or d block))
  | Threw _ => None
  end.

(** Whether [applyDiffsToSpec] asks for a group to be applied. *)
Definition applies (spec : SpecVersion) (g : ModuleKey * list ClauseDiff)
  : bool :=
  truthy (module_get (fst g) (modules spec))
  && negb (Nat.eqb (length (snd g)) 0).

(** The modules for which [applyDiffsToSpec] calls the text generation, in
    the order of the calls. *)
Definition applied_modules (spec : SpecVersion) (ds : list ClauseDiff)
  : list ModuleKey :=
  match group_diffs ds [] with
  | Some groups => map fst (List.filter (applies spec) groups)
  | None => []
  end.

(** The diff is filed under the module [k]. *)
Definition names (k : ModuleKey) (d : ClauseDiff) : bool :=
  match diff_module d with
  | Own k' => ModuleKey_eqb k k'
  | _ => false
  end.

(** The diffs of the group of [k], if there is one. *)
Definition group_of (k : ModuleKey)
    (groups : list (ModuleKey * list ClauseDiff)) : list ClauseDiff :=
  match List.find (fun g => ModuleKey_eqb k (fst g)) groups with
  | Some g => snd g
  | None => []
  end.

(** What [generateModuleDiffs] returns for the answer read at tick [n]. *)
Definition generated (env : Env) (regulation : Regulation) (n : nat)
    (moduleKey : JSON) : list ClauseDiff :=
  match parsed_reply env "[]" n with
  | Some (JArr elements) => map (stamp regulation moduleKey) elements
  | _ => []
  end.

(** The affected-module keys for which [modules[key]] is truthy: those for
    which step 3 generates diffs. *)
Definition has_payload (spec : SpecVersion) (moduleKey : JSON) : bool :=
  match modules_get (modules spec) moduleKey with
  | Returned moduleData => data_truthy moduleData
  | Threw _ => false
  end.

(** The diffs generated for a list of keys, the first at tick [n], the next
    ones at the following ticks. *)
Fixpoint generated_from (env : Env) (regulation : Regulation) (n : nat)
    (keys : list JSON) : list ClauseDiff :=
  match keys with
  | [] => []
  | key :: rest =>
      generated env regulation n key
        ++ generated_from env regulation (S n) rest
  end.

(** *** Clause paths

    The clause-path addressing of the specification: a chain of field names
    and array indices, as in [encryptionControls[0].algorithm].  No function
    of the sources resolves a path; this one states what "the value at
    [clausePath]" is. *)
Inductive Segment : Type := Field (name : string) | Index (i : nat).

Definition flush (name : string) : list Segment :=
  match name with EmptyString => [] | _ => [Field name] end.

Fixpoint segments (s name : string) (index : option nat)
  : option (list Segment) :=
  match s with
  | EmptyString =>
      match index with
      | Some _ => None
      | None => Some (flush name)
      end
  | String c s' =>
      match index with
      | Some i =>
          if Ascii.eqb c "]" then
            option_map (cons (Index i)) (segments s' "" None)
          else if is_digit c then
            segments s' name (Some (10 * i + (nat_of_ascii c - 48)))
          else None
      | None =>
          if Ascii.eqb c "." then
            option_map (app (flush name)) (segments s' "" None)
          else if Ascii.eqb c "[" then
            option_map (app (flush name)) (segments s' "" (Some 0))
          else segments s' (name ++ String c "")%string None
      end
  end.

Fixpoint resolve (path : list Segment) (v : JSON) : option JSON :=
  match path with
  | [] => Some v
  | Field name :: path' =>
      match v with
      | JObj o =>
          match get name o with
          | Some v' => resolve path' v'
          | None => None
          end
      | _ => None
      end
  | Index i :: path' =>
      match v with
      | JArr l =>
          match nth_error l i with
          | Some v' => resolve path' v'
          | None => None
          end
      | _ => None
      end
  end.

Definition value_at (clausePath : string) (payload : JSON) : option JSON :=
  match segments clausePath "" None with
  | Some path => resolve path payload
  | None => None
  end.

(** *** Version labels *)

(** [r] does not start with a digit. *)
Definition stops (r : string) : Prop :=
  match r with
  | String c _ => is_digit c = false
  | EmptyString => True
  end.

(** A non-empty run of decimal digits. *)
Definition digit_run (s : string) : Prop :=
  s <> "" /\ List.Forall (fun c => is_digit c = true) (list_ascii_of_string s).

(** [MAJOR.MINOR.PATCH], with or without a leading [v]. *)
Definition version_shape (current v major minor patch : string) : Prop :=
  (v = "" \/ v = "v")
  /\ digit_run major /\ digit_run minor /\ digit_run patch
  /\ current = (v ++ major ++ "." ++ minor ++ "." ++ patch)%string.

(** A relation between the world before and the world after holds of every
    run of a computation. *)
Definition preserves {A : Type} (R : World -> World -> Prop) (m : M A)
  : Prop :=
  forall w, R w (snd (m w)).

(** The database tables are the same; events may have been published. *)
Definition same_database (w w' : World) : Prop :=
  spec_versions w' = spec_versions w
  /\ spec_diffs w' = spec_diffs w
  /\ regulation_impact_log w' = regulation_impact_log w.

(** *** Lineages of the version store *)

(** [p] is the parent of the stored version [v]. *)
Definition parent_in (t : gmap string SpecVersion) (v p : string) : Prop :=
  exists row, t !! v = Some row /\ parentId row = Some p.

(** [a] is [v] or one of its ancestors. *)
Inductive ancestor (t : gmap string SpecVersion) : string -> string -> Prop :=
| ancestor_self (v : string) : ancestor t v v
| ancestor_step (v p a : string) :
    parent_in t v p -> ancestor t p a -> ancestor t v a.

(** A first version: a stored version without a parent. *)
Definition first_version (t : gmap string SpecVersion) (r : string) : Prop :=
  exists row, t !! r = Some row /\ parentId row = None.

(** Two versions of one lineage share their first version. *)
Definition same_lineage (t : gmap string SpecVersion) (v w : string) : Prop :=
  exists r, first_version t r /\ ancestor t v r /\ ancestor t w r.

Definition is_active (t : gmap string SpecVersion) (v : string) : Prop :=
  exists row, t !! v = Some row /\ status row = active.

(** At most one version per lineage is [active]. *)
Definition single_active (t : gmap string SpecVersion) : Prop :=
  forall v w,
    is_active t v -> is_active t w -> same_lineage t v w -> v = w.

(** The foreign key of [parent_id]: every parent is a stored version. *)
Definition parents_stored (t : gmap string SpecVersion) : Prop :=
  forall v row p,
    t !! v = Some row -> parentId row = Some p -> is_Some (t !! p).

Definition store_ok (t : gmap string SpecVersion) : Prop :=
  parents_stored t /\ single_active t.

End Specification.

Module AnalyzerSpecification.
Import ImpactAnalyzer.

(** A float that is neither infinite nor not-a-number. *)
Definition finite (x : float) : bool :=
  match Prim2SF x with
  | S754_zero _ | S754_finite _ _ _ => true
  | S754_infinity _ | S754_nan => false
  end.

(** A non-zero number of sign [s] (finite or infinite). *)
Definition signed (s : bool) (x : spec_float) : Prop :=
  match x with
  | S754_finite s' _ _ | S754_infinity s' => s' = s
  | _ => False
  end.




End AnalyzerSpecification.

(** ** Concrete inputs used by the examples *)

Module AnalyzerFixtures.
Import ImpactAnalyzer.

Definition candidate (spec : string) : Candidate :=
  {| spec_id := spec;
     workspace_id := "ws-1";
     version_number := 1;
     c_frameworks := ["GDPR"];
     c_jurisdictions := ["EU"] |}.

(** A master specification whose summary is its project name. *)
Definition master (name : string) : MasterSpecification :=
  {| projectName := Some name;
     projectSummary := None;
     problemStatement := None;
     coreFeatures := None;
     dataFlows := None;
     nonFunctionalRequirements := None |}.

(** Two candidates.  The regulation text and the summary of [spec-2] embed
    to the same direction; the summary of [spec-1] embeds orthogonally. *)
Definition two_candidates : Env :=
  {| find_affected_specs := fun _ _ =>
       RpcData (Some [candidate "spec-1"; candidate "spec-2"]);
     select_master_specification := fun spec => Some (master spec);
     embeddings_create := fun text =>
       if String.eqb text "spec-1" then Returned [0%float; 1%float]
       else Returned [1%float; 0%float] |}.

(** The same candidates, with an embedding service that fails on the
    summary of [spec-1]. *)
Definition failing_embedding : Env :=
  {| find_affected_specs := fun _ _ =>
       RpcData (Some [candidate "spec-1"; candidate "spec-2"]);
     select_master_specification := fun spec => Some (master spec);
     embeddings_create := fun text =>
       if String.eqb text "spec-1"
       then Threw (CapabilityError "embedding service unavailable")
       else Returned [1%float; 0%float] |}.

(** The master specification of [spec-1] cannot be fetched. *)
Definition missing_master : Env :=
  {| find_affected_specs := fun _ _ =>
       RpcData (Some [candidate "spec-1"; candidate "spec-2"]);
     select_master_specification := fun spec =>
       if String.eqb spec "spec-1" then None else Some (master spec);
     embeddings_create := fun _ => Returned [1%float; 0%float] |}.

Definition failing_query : Env :=
  {| find_affected_specs := fun _ _ => RpcError;
     select_master_specification := fun spec => Some (master spec);
     embeddings_create := fun _ => Returned [1%float; 0%float] |}.

End AnalyzerFixtures.

Module PipelineFixtures.
Import JS Types Runtime.
Local Open Scope string_scope.

Definition quote : string := String (ascii_of_nat 34) "".

Definition quoted (s : string) : string := quote ++ s ++ quote.

(** [["security_blueprint", "audit_trail"]] *)
Definition modules_text : string :=
  "[" ++ quoted "security_blueprint" ++ ", " ++ quoted "audit_trail" ++ "]".

Definition modules_json : JSON :=
  JArr [JStr "security_blueprint"; JStr "audit_trail"].

(** One generated diff, whose [before] is not the value in the payload:
    [[{"clausePath": "encryptionControls[0].algorithm",
       "fieldLabel": "Encryption Algorithm", "before": "AES-999",
       "after": "AES-256", "reason": "256-bit encryption", "severity":
       "high"}]] *)
Definition diffs_text : string :=
  "[{" ++ quoted "clausePath" ++ ": "
       ++ quoted "encryptionControls[0].algorithm" ++ ", "
       ++ quoted "fieldLabel" ++ ": " ++ quoted "Encryption Algorithm" ++ ", "
       ++ quoted "before" ++ ": " ++ quoted "AES-999" ++ ", "
       ++ quoted "after" ++ ": " ++ quoted "AES-256" ++ ", "
       ++ quoted "reason" ++ ": " ++ quoted "256-bit encryption" ++ ", "
       ++ quoted "severity" ++ ": " ++ quoted "high" ++ "}]".

Definition generated_diff : JSON :=
  JObj [("clausePath", JStr "encryptionControls[0].algorithm");
        ("fieldLabel", JStr "Encryption Algorithm");
        ("before", JStr "AES-999");
        ("after", JStr "AES-256");
        ("reason", JStr "256-bit encryption");
        ("severity", JStr "high")].

(** [{"encryptionControls": [{"algorithm": "AES-256"}]}] *)
Definition patched_text : string :=
  "{" ++ quoted "encryptionControls" ++ ": [{" ++ quoted "algorithm" ++ ": "
      ++ quoted "AES-256" ++ "}]}".

Definition blueprint (algorithm : string) : JSON :=
  JObj [("encryptionControls", JArr [JObj [("algorithm", JStr algorithm)]])].

(** [JSON.parse] on the texts above; every other text is taken not to
    parse. *)
Definition parse (text : string) : option JSON :=
  if String.eqb text "[]" then Some (JArr [])
  else if String.eqb text modules_text then Some modules_json
  else if String.eqb text diffs_text then Some (JArr [generated_diff])
  else if String.eqb text patched_text then Some (blueprint "AES-256")
  else None.

Definition regulation : Regulation :=
  {| reg_id := "reg-32";
     framework := "GDPR";
     article := "Article 32";
     title := "Security of processing";
     content := "256-bit encryption of personal data at rest";
     jurisdiction := "EU";
     severity := "high" |}.

Definition version_1 : SpecVersion :=
  {| id := "spec-1";
     workspaceId := "ws-1";
     parentId := None;
     versionNumber := 1;
     versionLabel := Some "v1.2.0";
     status := active;
     changeReason := "Initial creation";
     triggeredBy := user;
     regulationTrigger := None;
     jurisdictions := ["EU"];
     frameworks := ["GDPR"];
     modules :=
       {| master_specification := JNull;
          security_blueprint := blueprint "AES-128";
          cost_analysis := JNull;
          tech_stack_justification := JNull;
          code_scaffolding := JNull |};
     createdBy := Some "user-1" |}.

(** The same version, with technology decisions that are a text and not a
    list: [{"decisions": "none"}]. *)
Definition version_text_decisions : SpecVersion :=
  {| id := "spec-1";
     workspaceId := "ws-1";
     parentId := None;
     versionNumber := 1;
     versionLabel := Some "v1.2.0";
     status := active;
     changeReason := "Initial creation";
     triggeredBy := user;
     regulationTrigger := None;
     jurisdictions := ["EU"];
     frameworks := ["GDPR"];
     modules :=
       {| master_specification := JNull;
          security_blueprint := blueprint "AES-128";
          cost_analysis := JNull;
          tech_stack_justification := JObj [("decisions", JStr "none")];
          code_scaffolding := JNull |};
     createdBy := Some "user-1" |}.

Definition input : PatchSpecInput :=
  {| in_specVersionId := "spec-1";
     in_workspaceId := "ws-1";
     in_regulation := regulation |}.

Definition world (n : nat) : World :=
  {| ticks := n;
     spec_versions := {[ "spec-1" := version_1 ]};
     spec_diffs := [];
     regulation_impact_log := [];
     published := [] |}.

(** A run of [patchSpec] from tick 0: the database is asked at tick 0 and
    the text generation at ticks 1 (affected modules), 2 (diffs of the
    security blueprint) and 3 (patched security blueprint). *)
Definition patching : Env :=
  {| messages_create := fun n =>
       match n with
       | 1 => Returned (Text modules_text)
       | 2 => Returned (Text ("```json" ++ String LF "" ++ diffs_text
                                ++ String LF "" ++ "```"))
       | 3 => Returned (Text patched_text)
       | _ => Returned Other
       end;
     JSON_parse := parse;
     uuidv4 := fun n => "uuid-" ++ index_key n;
     now := fun _ => "2025-01-01T00:00:00.000Z";
     db_up := fun _ => true;
     broker_up := fun _ => true;
     inexact_successor := fun _ => "9007199254740992" |}.

(** The text generation answers no text block: the affected modules parse
    from the default ["[]"]. *)
Definition no_module : Env :=
  {| messages_create := fun _ => Returned Other;
     JSON_parse := parse;
     uuidv4 := fun n => "uuid-" ++ index_key n;
     now := fun _ => "2025-01-01T00:00:00.000Z";
     db_up := fun _ => true;
     broker_up := fun _ => true;
     inexact_successor := fun _ => "9007199254740992" |}.

(** The text generation answers with prose. *)
Definition prose : Env :=
  {| messages_create := fun _ =>
       Returned (Text "I cannot determine the affected modules.");
     JSON_parse := parse;
     uuidv4 := fun n => "uuid-" ++ index_key n;
     now := fun _ => "2025-01-01T00:00:00.000Z";
     db_up := fun _ => true;
     broker_up := fun _ => true;
     inexact_successor := fun _ => "9007199254740992" |}.

(** The diff of [diffs_text], as [generateModuleDiffs] stamps it. *)
Definition stamped_diff : ClauseDiff :=
  [("clausePath", JStr "encryptionControls[0].algorithm");
   ("fieldLabel", JStr "Encryption Algorithm");
   ("before", JStr "AES-999");
   ("after", JStr "AES-256");
   ("reason", JStr "256-bit encryption");
   ("severity", JStr "high");
   ("module", JStr "security_blueprint");
   ("regulationTrigger", JStr "GDPR Article 32")].

Definition patched_modules : Modules :=
  {| master_specification := JNull;
     security_blueprint := blueprint "AES-256";
     cost_analysis := JNull;
     tech_stack_justification := JNull;
     code_scaffolding := JNull |}.

End PipelineFixtures.

Module PatcherSpecification.
Import JS Types Runtime DiffEngine SpecPatcher.

(** The label step 5 gives to the new version. *)
Definition new_label (env : Env) (loaded : SpecVersion) : string :=
  bumpMinorVersion env
    (match versionLabel loaded with Some l => l | None => "v1.0.0" end).

(** The two events of step 8, with the identifiers drawn for them. *)
Definition updated_event (input : PatchSpecInput) (eventId newId : string)
    (keys : list JSON) (allDiffs : list ClauseDiff) : Topic * Event :=
  (SPEC_UPDATED,
   SpecUpdatedEvent eventId (in_workspaceId input) (in_specVersionId input)
     newId (trigger_of (in_regulation input)) keys allDiffs true).

Definition pr_requested_event (input : PatchSpecInput)
    (eventId newId : string) (keys : list JSON) (allDiffs : list ClauseDiff)
    (label : string) : Topic * Event :=
  (SPEC_PR_REQUESTED,
   SpecPrRequestedEvent eventId (in_workspaceId input) newId
     (in_specVersionId input) (trigger_of (in_regulation input)) keys
     allDiffs label).

End PatcherSpecification.

Module PatcherFixtures.
Import JS Types Runtime.


Definition unknown_input : PatchSpecInput :=
  {| in_specVersionId := "spec-404";
     in_workspaceId := "ws-1";
     in_regulation := PipelineFixtures.regulation |}.

(** [[{"toString": 1}]] *)
Definition unprintable_text : string :=
  ("[{" ++ PipelineFixtures.quoted "toString" ++ ": 1}]")%string.

(** The classifier answers with a key that is an object with a property
    [toString]. *)
Definition unprintable_key : Env :=
  {| messages_create := fun _ => Returned (Text unprintable_text);
     JSON_parse := fun text =>
       if String.eqb text unprintable_text
       then Some (JArr [JObj [("toString", JNum 1)]])
       else None;
     uuidv4 := uuidv4 PipelineFixtures.patching;
     now := now PipelineFixtures.patching;
     db_up := fun _ => true;
     broker_up := fun _ => true;
     inexact_successor := inexact_successor PipelineFixtures.patching |}.

End PatcherFixtures.

Module AnalyzerSummary.
Import JS ImpactAnalyzer.

(** The parts [extractMasterSpecText] builds the summary from, empty ones
    included. *)
Definition summary_parts (masterSpec : MasterSpecification) : list string :=
  [or_empty (projectName masterSpec);
   or_empty (projectSummary masterSpec);
   or_empty (problemStatement masterSpec)]
  ++ map (fun f => (fst f ++ ": " ++ snd f)%string)
       (or_nil (coreFeatures masterSpec))
  ++ map (fun d =>
            (fst (fst d) ++ " → " ++ snd (fst d) ++ ": " ++ snd d)%string)
       (or_nil (dataFlows masterSpec))
  ++ or_nil (nonFunctionalRequirements masterSpec).

(** The text has no line feed, the line break that the sanitizing
    replaces. *)
Definition one_line (s : string) : Prop :=
  ~ In LF (list_ascii_of_string s).

End AnalyzerSummary.

(** ** Regulation consumer: the fan-out to patch jobs *)

Module RegulationConsumer.
Import Types.

(** The payload handed to [enqueueSpecPatchJob]. *)
Record PatchJob : Type := {
  jobId : string;
  job_specVersionId : string;
  job_workspaceId : string;
  job_regulation : Regulation;
}.

(** The collaborators of the handler.  The queue is outside the sources:
    it accepts or rejects each job. *)
Record Env : Type := {
  analyzer : ImpactAnalyzer.Env;
  (** the [n]-th identifier drawn during the call *)
  uuidv4 : nat -> string;
  enqueueSpecPatchJob : PatchJob -> Outcome unit;
}.

Section WithEnv.
Variable env : Env.

(** The job built for one affected specification.  The [regulation] of the
    job is rebuilt field by field from the one of the event. *)
Definition patch_job (regulation : Regulation) (n : nat)
    (spec : ImpactAnalyzer.AffectedSpec) : PatchJob :=
  {| jobId := uuidv4 env n;
     job_specVersionId := ImpactAnalyzer.specId spec;
     job_workspaceId := ImpactAnalyzer.workspaceId spec;
     job_regulation :=
       {| reg_id := reg_id regulation;
          framework := framework regulation;
          article := article regulation;
          title := title regulation;
          content := content regulation;
          jurisdiction := jurisdiction regulation;
          severity := severity regulation |} |}.

(** [affectedSpecs.map(async (spec) => ...)]: each callback draws its
    identifier and hands its job to the queue; the promise settles with the
    answer of the queue. *)
Fixpoint jobPromises (regulation : Regulation) (n : nat)
    (affectedSpecs : list ImpactAnalyzer.AffectedSpec)
  : list (PatchJob * Outcome unit) :=
  match affectedSpecs with
  | [] => []
  | spec :: rest =>
      let job := patch_job regulation n spec in
      (job, enqueueSpecPatchJob env job) :: jobPromises regulation (S n) rest
  end.

(** [Promise.allSettled] waits for every promise and never rejects. *)
Definition allSettled {A : Type} (promises : list (A * Outcome unit))
  : Outcome unit :=
  Returned tt.

(** The handler of [regulation.new] and [regulation.updated]: its outcome,
    and the jobs it handed to the queue, in order.  The call of
    [findAffectedSpecs] passes no regulation text. *)
Definition handleRegulationNew (regulation : Regulation)
  : Outcome unit * list PatchJob :=
  match ImpactAnalyzer.findAffectedSpecs (analyzer env)
          (framework regulation) (jurisdiction regulation) None with
  | Threw e => (Threw e, [])
  | Returned affectedSpecs =>
      if Nat.eqb (length affectedSpecs) 0 then (Returned tt, [])
      else
        let promises := jobPromises regulation 0 affectedSpecs in
        (allSettled promises, map fst promises)
  end.

End WithEnv.
End RegulationConsumer.

Module ConsumerSpecification.
Import Types RegulationConsumer.

(** The job of a Stage-1 candidate. *)
Definition candidate_job (env : Env) (regulation : Regulation) (n : nat)
    (c : ImpactAnalyzer.Candidate) : PatchJob :=
  {| jobId := uuidv4 env n;
     job_specVersionId := ImpactAnalyzer.spec_id c;
     job_workspaceId := ImpactAnalyzer.workspace_id c;
     job_regulation := regulation |}.

Fixpoint candidate_jobs (env : Env) (regulation : Regulation) (n : nat)
    (cs : list ImpactAnalyzer.Candidate) : list PatchJob :=
  match cs with
  | [] => []
  | c :: rest =>
      candidate_job env regulation n c
        :: candidate_jobs env regulation (S n) rest
  end.

End ConsumerSpecification.

Module ConsumerFixtures.
Import RegulationConsumer.

(** The two candidates of [AnalyzerFixtures], an embedding service that is
    down, and a queue that rejects every job. *)
Definition rejecting_queue : Env :=
  {| analyzer :=
       {| ImpactAnalyzer.find_affected_specs := fun _ _ =>
            ImpactAnalyzer.RpcData
              (Some [AnalyzerFixtures.candidate "spec-1";
                     AnalyzerFixtures.candidate "spec-2"]);
          ImpactAnalyzer.select_master_specification := fun _ => None;
          ImpactAnalyzer.embeddings_create := fun _ =>
            Threw (CapabilityError "embedding service unavailable") |};
     uuidv4 := fun n => ("job-" ++ JS.index_key n)%string;
     enqueueSpecPatchJob := fun _ => Threw (CapabilityError "queue closed") |}.

End ConsumerFixtures.

(** ** Embeddings: batches of documents *)

Module Embeddings.
Import JS.

(** The batch limit of the embedding service. *)
Definition MAX_BATCH_SIZE : nat := 100.

(** [t.replace(/\n+/g, ' ').trim()] *)
Definition sanitize (t : string) : string :=
  trim (ImpactAnalyzer.collapse_newlines t).

(** One element of [response.data]. *)
Record Item : Type := {
  index : float;
  embedding : list float;
}.

(** What the function does to the outside: a request to the embedding
    service, or a pause. *)
Inductive Action : Type :=
| Create (input : list string)
| Sleep (ms : nat).

(** [client.embeddings.create] on a batch: the answer to the [n]-th request
    of the call. *)
Record Env : Type := {
  embeddings_create : nat -> list string -> Outcome (list Item);
}.

(** The comparator [(a, b) => a.index - b.index]. *)
Definition by_index (a b : Item) : float := (index a - index b)%float.

(** [texts.slice(i, j)] *)
Definition slice {A : Type} (i j : nat) (l : list A) : list A :=
  firstn (j - i) (skipn i l).

Section WithEnv.
Variable env : Env.

(** The [for] loop over the batches, [i] being the offset of the next
    batch.  It runs at most once per text: [fuel] bounds the number of
    iterations. *)
Fixpoint embed_batches (fuel i : nat) (texts : list string)
    (results : list (list float))
  : Outcome (list (list float)) * list Action :=
  match fuel with
  | 0 => (Returned results, [])
  | S fuel' =>
      if Nat.ltb i (length texts) then
        let batch := map sanitize (slice i (i + MAX_BATCH_SIZE) texts) in
        match embeddings_create env (i / MAX_BATCH_SIZE) batch with
        | Threw e => (Threw e, [Create batch])
        | Returned data =>
            let batchEmbeddings :=
              map embedding (ImpactAnalyzer.sort by_index data) in
            let pause :=
              if Nat.ltb (i + MAX_BATCH_SIZE) (length texts)
              then [Sleep 200] else [] in
            let (out, actions) :=
              embed_batches fuel' (i + MAX_BATCH_SIZE) texts
                (results ++ batchEmbeddings) in
            (out, Create batch :: pause ++ actions)
        end
      else (Returned results, [])
  end.

Definition embedDocuments (texts : list string)
  : Outcome (list (list float)) * list Action :=
  embed_batches (length texts) 0 texts [].

End WithEnv.
End Embeddings.

Module EmbeddingsSpecification.
Import Embeddings.

(** [sep] between any two consecutive elements. *)
Fixpoint interleave {A : Type} (sep : A) (l : list A) : list A :=
  match l with
  | [] => []
  | [x] => [x]
  | x :: l' => x :: sep :: interleave sep l'
  end.

(** The index of the item for the [j]-th input of a request. *)
Definition index_of (j : nat) : float :=
  PrimFloat.of_uint63 (Uint63.of_Z (Z.of_nat j)).

(** The answer of a service that embeds each text on its own, in the order
    of the input. *)
Definition in_order (E : string -> list float) (input : list string)
  : list Item :=
  imap (fun j t => {| index := index_of j; embedding := E t |}) input.

(** The index of an item is a number. *)
Definition numbered (a : Item) : Prop := (index a =? index a)%float = true.

Definition index_le (a b : Item) : Prop :=
  (index a <=? index b)%float = true.

Definition index_lt (a b : Item) : Prop :=
  (index a <? index b)%float = true.

End EmbeddingsSpecification.

Module EmbeddingsFixtures.
Import Embeddings EmbeddingsSpecification.

(** An embedding that tells the texts apart by their length. *)
Definition by_length (t : string) : list float :=
  [index_of (String.length t)].

(** A service that answers in the reverse order of its input. *)
Definition reversing : Env :=
  {| embeddings_create := fun _ input =>
       Returned (rev (in_order by_length input)) |}.

Definition three_texts : list string :=
  [("Article 5" ++ String JS.LF "Lawfulness")%string; " Article 32 "; "Art. 6"].

End EmbeddingsFixtures.

(** ** Vector store: ingestion of regulations *)

Module VectorStore.
Import JS.

(** A regulation to ingest. *)
Record RegulationInput : Type := {
  framework : string;
  article : string;
  title : string;
  content : string;
  jurisdiction : string;
  severity : string;
  tags : list string;
}.

Definition buildRegulationEmbeddingText (regulation : RegulationInput)
  : string :=
  String.concat (String LF "")
    [("Framework: " ++ framework regulation)%string;
     ("Article: " ++ article regulation)%string;
     ("Title: " ++ title regulation)%string;
     ("Tags: " ++ String.concat ", " (tags regulation))%string;
     ("Content: " ++ content regulation)%string].

(** A row handed to [upsert]; [None] is the [undefined] of an embedding
    that is missing from the answer. *)
Record UpsertRecord : Type := {
  regulation : RegulationInput;
  embedding : option (list float);
  updated_at : string;
}.

Record Env : Type := {
  embeddings : Embeddings.Env;
  (** [new Date().toISOString()], for the [n]-th record *)
  now : nat -> string;
  (** the answer of the database to the [n]-th [upsert]: the message of
      its error, if it is one *)
  upsert : nat -> list UpsertRecord -> option string;
}.

Record UpsertResult : Type := {
  succeeded : nat;
  failed : nat;
  errors : list string;
}.

Definition CHUNK_SIZE : nat := 50.

Section WithEnv.
Variable env : Env.

(** The [for] loop over the chunks: the counters at the end, and the
    chunks handed to the database. *)
Fixpoint upsert_chunks (fuel i : nat) (records : list UpsertRecord)
    (succeeded : nat) (errors : list string)
  : nat * list string * list (list UpsertRecord) :=
  match fuel with
  | 0 => (succeeded, errors, [])
  | S fuel' =>
      if Nat.ltb i (length records) then
        let chunk := Embeddings.slice i (i + CHUNK_SIZE) records in
        let '(succeeded', errors') :=
          match upsert env (i / CHUNK_SIZE) chunk with
          | Some message =>
              let msg :=
                ("Chunk " ++ index_key (i / CHUNK_SIZE + 1) ++ ": "
                   ++ message)%string in
              (succeeded, errors ++ [msg])
          | None => (succeeded + length chunk, errors)
          end in
        let '(s, e, requests) :=
          upsert_chunks fuel' (i + CHUNK_SIZE) records succeeded' errors' in
        (s, e, chunk :: requests)
      else (succeeded, errors, [])
  end.

(** The result, the actions of [embedDocuments] and the chunks handed to the
    database. *)
Definition upsertRegulations (regulations : list RegulationInput)
  : Outcome UpsertResult * list Embeddings.Action
    * list (list UpsertRecord) :=
  let embeddingTexts := map buildRegulationEmbeddingText regulations in
  match Embeddings.embedDocuments (embeddings env) embeddingTexts with
  | (Threw e, actions) =>
      (Threw (Rethrown "[VectorStore] Embedding generation failed: " e),
       actions, [])
  | (Returned embeddings, actions) =>
      let records :=
        imap (fun i reg =>
                {| regulation := reg;
                   embedding := embeddings !! i;
                   updated_at := now env i |})
          regulations in
      let '(succeeded, errors, requests) :=
        upsert_chunks (length records) 0 records 0 [] in
      (Returned {| succeeded := succeeded;
                   failed := length errors;
                   errors := errors |},
       actions, requests)
  end.

End WithEnv.
End VectorStore.

(** ** API gateway: workspaces and compliance jobs *)

Module Gateway.
Import JS Types.

(** What a call raises: one of the HTTP exceptions of the framework, an
    [Error] with a message, or an error of the language itself. *)
Inductive HttpError : Type :=
| ConflictException
| NotFoundException
| ForbiddenException
| InternalError (message : string)
| JsError (e : Error).

Inductive Result (A : Type) : Type :=
| Ok (a : A)
| Fail (e : HttpError).
Arguments Ok {A} a.
Arguments Fail {A} e.

(** A row of [workspaces]; [monthly_report_count] is an integer column. *)
Record WorkspaceRow : Type := {
  row_id : string;
  row_name : string;
  row_slug : string;
  owner_id : string;
  row_plan : string;
  stripe_customer_id : option string;
  stripe_subscription_id : option string;
  monthly_report_count : option Z;
  created_at : string;
}.

Record Workspace : Type := {
  id : string;
  name : string;
  slug : string;
  ownerId : string;
  plan : string;
  stripeCustomerId : option string;
  stripeSubscriptionId : option string;
  monthlyReportCount : option Z;
  createdAt : string;
}.

Record CreateWorkspaceInput : Type := {
  in_name : string;
  in_slug : string;
  in_ownerId : string;
}.

(** A row of [compliance_jobs], as [submitJob] inserts it. *)
Record JobRow : Type := {
  job_id : string;
  job_workspace_id : string;
  job_user_id : string;
  project_idea : string;
  job_jurisdictions : list string;
  job_frameworks : list string;
  job_status : string;
}.

Record SubmitJobInput : Type := {
  workspaceId : string;
  userId : string;
  projectIdea : string;
  jurisdictions : list string;
  frameworks : list string;
  existingSpec : option string;
}.

Record ComplianceJobPayload : Type := {
  p_jobId : string;
  p_workspaceId : string;
  p_userId : string;
  p_projectIdea : string;
  p_jurisdictions : list string;
  p_frameworks : list string;
  p_existingSpec : option string;
}.

(** The collaborators.  Every external interaction takes the next tick. *)
Record Env : Type := {
  (** whether the database answers the request made at that tick *)
  db_up : nat -> bool;
  (** the [id] and [created_at] the database gives to a row it inserts *)
  new_id : nat -> string;
  now : nat -> string;
  uuidv4 : nat -> string;
  (** the database function [increment_report_count], which is not among
      the sources: the table it leaves, or [None] for an error *)
  increment_report_count :
    nat -> string -> list WorkspaceRow -> option (list WorkspaceRow);
  (** whether the queue answers the request made at that tick *)
  queue_up : nat -> bool;
  (** [queue.getWaitingCount()] *)
  waiting_count : nat -> Z;
}.

Record World : Type := {
  ticks : nat;
  workspaces : list WorkspaceRow;
  compliance_jobs : list JobRow;
  queue : list ComplianceJobPayload;
}.

Definition M (A : Type) : Type := World -> Result A * World.

Definition ret {A : Type} (a : A) : M A := fun w => (Ok a, w).

Definition throw {A : Type} (e : HttpError) : M A := fun w => (Fail e, w).

Definition bind {A B : Type} (m : M A) (k : A -> M B) : M B :=
  fun w =>
    match m w with
    | (Ok a, w') => k a w'
    | (Fail e, w') => (Fail e, w')
    end.

Definition tick : M nat :=
  fun w =>
    (Ok (ticks w),
     {| ticks := S (ticks w); workspaces := workspaces w;
        compliance_jobs := compliance_jobs w; queue := queue w |}).

Definition read_workspaces : M (list WorkspaceRow) :=
  fun w => (Ok (workspaces w), w).

Definition write_workspaces (t : list WorkspaceRow) : M unit :=
  fun w =>
    (Ok tt,
     {| ticks := ticks w; workspaces := t;
        compliance_jobs := compliance_jobs w; queue := queue w |}).

Definition append_job (row : JobRow) : M unit :=
  fun w =>
    (Ok tt,
     {| ticks := ticks w; workspaces := workspaces w;
        compliance_jobs := compliance_jobs w ++ [row]; queue := queue w |}).

Definition append_queue (payload : ComplianceJobPayload) : M unit :=
  fun w =>
    (Ok tt,
     {| ticks := ticks w; workspaces := workspaces w;
        compliance_jobs := compliance_jobs w; queue := queue w ++ [payload] |}).

End Gateway.

Notation "'let+' x ':=' m 'in' k" := (Gateway.bind m (fun x => k))
  (at level 10, x name, m at level 100, k at level 200).

Module Workspaces.
Import JS Types Gateway.

(** [.single()]: the row, when the selection has exactly one. *)
Definition single {A : Type} (rows : list A) : option A :=
  match rows with
  | [row] => Some row
  | _ => None
  end.

(** The limit of a plan: a number of reports, [Infinity], or one of the
    built-ins that the object [limits] inherits. *)
Inductive Limit : Type :=
| Reports (n : Z)
| Unlimited
| BuiltIn.

(** [limits[plan] ?? 3] *)
Definition limit_of (plan : string) : Limit :=
  if String.eqb plan "free" then Reports 3
  else if String.eqb plan "pro" then Reports 50
  else if String.eqb plan "enterprise" then Unlimited
  else if existsb (String.eqb plan) inherited_properties then BuiltIn
  else Reports 3.

(** [used < limit]; a built-in converts to no number, and the comparison is
    false. *)
Definition below (used : Z) (limit : Limit) : bool :=
  match limit with
  | Reports n => (used <? n)%Z
  | Unlimited => true
  | BuiltIn => false
  end.

Record ReportLimit : Type := {
  allowed : bool;
  used : Z;
  limit : Limit;
}.

Definition mapRow (row : WorkspaceRow) : Workspace :=
  {| id := row_id row;
     name := row_name row;
     slug := row_slug row;
     ownerId := owner_id row;
     plan := row_plan row;
     stripeCustomerId := stripe_customer_id row;
     stripeSubscriptionId := stripe_subscription_id row;
     monthlyReportCount := monthly_report_count row;
     createdAt := created_at row |}.

Section WithEnv.
Variable env : Env.

(** [from('workspaces').select(...).eq(column, value).single()]: the data of
    the answer, [None] for [null]. *)
Definition select_single (matches : WorkspaceRow -> bool)
  : M (option WorkspaceRow) :=
  let+ n := tick in
  let+ table := read_workspaces in
  ret (if db_up env n then single (List.filter matches table) else None).

Definition create (input : CreateWorkspaceInput) : M Workspace :=
  let+ existing :=
    select_single (fun row => String.eqb (row_slug row) (in_slug input)) in
  match existing with
  | Some _ => throw ConflictException
  | None =>
      let+ n := tick in
      if db_up env n then
        let row :=
          {| row_id := new_id env n;
             row_name := in_name input;
             row_slug := in_slug input;
             owner_id := in_ownerId input;
             row_plan := "free";
             stripe_customer_id := None;
             stripe_subscription_id := None;
             monthly_report_count := Some 0%Z;
             created_at := now env n |} in
        let+ table := read_workspaces in
        let+ _ := write_workspaces (table ++ [row]) in
        ret (mapRow row)
      else throw (InternalError "Failed to create workspace")
  end.

Definition findById (id requestingUserId : string) : M Workspace :=
  let+ data := select_single (fun row => String.eqb (row_id row) id) in
  match data with
  | None => throw NotFoundException
  | Some row =>
      if negb (String.eqb (owner_id row) requestingUserId)
      then throw ForbiddenException
      else ret (mapRow row)
  end.

(** The error of the database function is logged, not raised. *)
Definition incrementReportCount (workspaceId : string) : M unit :=
  let+ n := tick in
  let+ table := read_workspaces in
  match (if db_up env n
         then increment_report_count env n workspaceId table
         else None) with
  | Some table' => write_workspaces table'
  | None => ret tt
  end.

Definition checkReportLimit (workspaceId : string) : M ReportLimit :=
  let+ data :=
    select_single (fun row => String.eqb (row_id row) workspaceId) in
  match data with
  | None => throw NotFoundException
  | Some row =>
      let limit := limit_of (row_plan row) in
      let used :=
        match monthly_report_count row with Some n => n | None => 0%Z end in
      ret {| allowed := below used limit; used := used; limit := limit |}
  end.

End WithEnv.
End Workspaces.

Module Compliance.
Import JS Types Gateway Workspaces.

Section WithEnv.
Variable env : Env.

(** [PaymentRequiredException] is imported from [@nestjs/common], which
    exports no class of that name: the binding is [undefined], and [new] on
    it raises a [TypeError]. *)
Definition submitJob (input : SubmitJobInput) : M (string * Z) :=
  let+ report := checkReportLimit env (workspaceId input) in
  if negb (allowed report) then throw (JsError TypeError)
  else
    let+ n := tick in
    let jobId := uuidv4 env n in
    let+ n := tick in
    if negb (db_up env n)
    then throw (InternalError "Failed to create job record")
    else
      let+ _ := append_job
        {| job_id := jobId;
           job_workspace_id := workspaceId input;
           job_user_id := userId input;
           project_idea := projectIdea input;
           job_jurisdictions := jurisdictions input;
           job_frameworks := frameworks input;
           job_status := "queued" |} in
      let+ _ := incrementReportCount env (workspaceId input) in
      let+ n := tick in
      if negb (queue_up env n) then throw (InternalError "queue.add")
      else
        let+ _ := append_queue
          {| p_jobId := jobId;
             p_workspaceId := workspaceId input;
             p_userId := userId input;
             p_projectIdea := projectIdea input;
             p_jurisdictions := jurisdictions input;
             p_frameworks := frameworks input;
             p_existingSpec := existingSpec input |} in
        let+ n := tick in
        if negb (queue_up env n)
        then throw (InternalError "queue.getWaitingCount")
        else ret (jobId, waiting_count env n).

End WithEnv.
End Compliance.

Module GatewayFixtures.
Import Gateway Workspaces.

(** A database and a queue that answer every request. *)
Definition answering : Env :=
  {| db_up := fun _ => true;
     new_id := fun n => ("ws-" ++ JS.index_key n)%string;
     now := fun _ => "2025-01-01T00:00:00.000Z";
     uuidv4 := fun n => ("job-" ++ JS.index_key n)%string;
     increment_report_count := fun _ _ table => Some table;
     queue_up := fun _ => true;
     waiting_count := fun _ => 1%Z |}.

Definition acme : WorkspaceRow :=
  {| row_id := "ws-acme";
     row_name := "Acme";
     row_slug := "acme";
     owner_id := "user-1";
     row_plan := "free";
     stripe_customer_id := None;
     stripe_subscription_id := None;
     monthly_report_count := Some 3%Z;
     created_at := "2024-12-01T00:00:00.000Z" |}.

Definition world : World :=
  {| ticks := 0; workspaces := [acme]; compliance_jobs := []; queue := [] |}.

Definition globex : CreateWorkspaceInput :=
  {| in_name := "Globex"; in_slug := "globex"; in_ownerId := "user-2" |}.

Definition job : SubmitJobInput :=
  {| workspaceId := "ws-acme";
     userId := "user-1";
     projectIdea := "A ledger";
     jurisdictions := ["EU"];
     frameworks := ["GDPR"];
     existingSpec := None |}.

End GatewayFixtures.

(** ** GitHub: the consumer of [spec.pr_requested] and the branch of a
    compliance pull request *)

Module GitHub.
Import JS Types Runtime.


(** The collaborators of the consumer, besides those of the pipeline. *)
Record Env : Type := {
  runtime : Runtime.Env;
  (** whether [github_connections] has one row for the workspace *)
  github_connection : string -> bool;
  (** whether the pull-request queue accepts the job added at that tick *)
  pr_queue_up : nat -> bool;
}.

Section WithEnv.
Variable env : Env.


End WithEnv.

(** *** The branch of the pull request *)

Definition is_lower (c : ascii) : bool :=
  let n := nat_of_ascii c in (Nat.leb 97 n && Nat.leb n 122)%bool.

Definition is_upper (c : ascii) : bool :=
  let n := nat_of_ascii c in (Nat.leb 65 n && Nat.leb n 90)%bool.

(** The class [[a-zA-Z0-9-]]. *)
Definition is_safe (c : ascii) : bool :=
  (is_lower c || is_upper c || SpecPatcher.is_digit c || Ascii.eqb c "-")%bool.

Fixpoint map_string (f : ascii -> ascii) (s : string) : string :=
  match s with
  | EmptyString => EmptyString
  | String c s' => String (f c) (map_string f s')
  end.

(** [s.replace(/[^a-zA-Z0-9-]/g, '-')].  The expression has no [u] flag:
    every code unit outside the class becomes a hyphen, so that a character
    of two or three bytes gives one hyphen and a character of four bytes,
    which is two surrogates, gives two.  The hyphens are written at the
    first byte of a character; the bytes that continue it give nothing. *)
Fixpoint replace_unsafe (s : string) : string :=
  match s with
  | EmptyString => EmptyString
  | String c s' =>
      let n := nat_of_ascii c in
      if is_safe c then String c (replace_unsafe s')
      else if Nat.ltb n 128 then String "-" (replace_unsafe s')
      else if Nat.ltb n 192 then replace_unsafe s'
      else if Nat.ltb n 240 then String "-" (replace_unsafe s')
      else String "-" (String "-" (replace_unsafe s'))
  end.

(** [s.toLowerCase()] on a text of letters, digits and hyphens, which the
    replacement above leaves. *)
Definition toLowerCase (s : string) : string :=
  map_string
    (fun c => if is_upper c then ascii_of_nat (nat_of_ascii c + 32) else c) s.

(** The branch [createCompliancePR] creates:
    [`compliance/${safeTrigger}-${versionLabel}`]. *)
Definition branchName (regulationTrigger versionLabel : string) : string :=
  let safeTrigger := toLowerCase (replace_unsafe regulationTrigger) in
  "compliance/" ++ safeTrigger ++ "-" ++ versionLabel.

End GitHub.

Module GitHubSpecification.
Import GitHub.

(** The characters of a branch name made of a sanitized trigger and a
    version label [vMAJOR.MINOR.PATCH]. *)
Definition ref_char (c : ascii) : bool :=
  (is_lower c || SpecPatcher.is_digit c || Ascii.eqb c "-"
   || Ascii.eqb c "." || Ascii.eqb c "/")%bool.

Definition ref_name (s : string) : Prop :=
  List.Forall (fun c => ref_char c = true) (list_ascii_of_string s).

End GitHubSpecification.

Module GitHubFixtures.
Import GitHub.


End GitHubFixtures.

(** ** Scanner: the human-review flag *)

Module Scanner.

(** The double closest to 0.80: drafts scoring below it fail. *)
Definition GOLD_STANDARD_THRESHOLD : float := 0x1.999999999999ap-1%float.

(** The double closest to 0.85. *)
Definition HUMAN_REVIEW_THRESHOLD : float := 0x1.b333333333333p-1%float.

(** The field of a finding that the flag reads. *)
Record ScanFinding : Type := {
  riskLevel : string;
}.

(** The fields of a scan result that the flag reads. *)
Record ScanResult : Type := {
  passed : bool;
  score : float;
  findings : list ScanFinding;
}.

(** [score >= GOLD_STANDARD_THRESHOLD]: the [passed] that [scanDraft] gives
    to its result. *)
Definition passes (score : float) : bool :=
  (GOLD_STANDARD_THRESHOLD <=? score)%float.

Definition requiresHumanReview (scanResult : ScanResult) : bool :=
  if negb (passed scanResult) then true
  else if (score scanResult <? HUMAN_REVIEW_THRESHOLD)%float then true
  else
    existsb (fun f => String.eqb (riskLevel f) "high") (findings scanResult).

End Scanner.

(** * Properties *)

(** ** IEEE-754 facts about the primitive floats

    The order on floats and the sign of a difference, derived from the
    specification of the binary64 operations. *)

Module FloatFacts.
Import AnalyzerSpecification.
Local Open Scope Z_scope.

Section Spec.
Variables prec emax : Z.
Hypothesis Hprec : 0 < prec.

Abbreviation emin := (SpecFloat.emin prec emax).
Abbreviation fexp := (SpecFloat.fexp prec emax).

Lemma digits2_pos_bounds (m : positive) :
  2 ^ (Zpos (digits2_pos m) - 1) <= Zpos m < 2 ^ Zpos (digits2_pos m).
Proof.
  induction m as [m IH|m IH|]; simpl digits2_pos.
  - rewrite Pos2Z.inj_succ.
    replace (Z.succ (Zpos (digits2_pos m)) - 1) with (Z.succ (Zpos (digits2_pos m) - 1)) by lia.
    rewrite !Z.pow_succ_r by lia. lia.
  - rewrite Pos2Z.inj_succ.
    replace (Z.succ (Zpos (digits2_pos m)) - 1) with (Z.succ (Zpos (digits2_pos m) - 1)) by lia.
    rewrite !Z.pow_succ_r by lia. lia.
  - simpl. lia.
Qed.

Lemma iter_xO_pow (m d : positive) :
  Zpos (Pos.iter xO m d) = Zpos m * 2 ^ Zpos d.
Proof.
  induction d as [|d IH] using Pos.peano_ind.
  - simpl. lia.
  - rewrite Pos.iter_succ, Pos2Z.inj_xO, IH, Pos2Z.inj_succ, Z.pow_succ_r by lia. lia.
Qed.

Lemma shl_align_fst (m : positive) (e ez : Z) :
  ez <= e -> Zpos (fst (shl_align m e ez)) = Zpos m * 2 ^ (e - ez).
Proof.
  intros H. unfold shl_align.
  destruct (ez - e) as [|d|d] eqn:E; simpl; try lia.
  - replace (e - ez) with 0 by lia. simpl. lia.
  - rewrite iter_xO_pow. replace (e - ez) with (Zpos d) by lia. reflexivity.
Qed.

Lemma shr_1_m mrs : 0 <= shr_m mrs -> shr_m (shr_1 mrs) = shr_m mrs / 2.
Proof.
  destruct mrs as [m r s]. simpl. intros H.
  rewrite <- Z.div2_div.
  destruct m as [|[p|p|]|p]; simpl; try reflexivity; lia.
Qed.

Lemma pow2_xO (p : positive) : 2 ^ Zpos p~0 = 2 ^ Zpos p * 2 ^ Zpos p.
Proof. rewrite <- Z.pow_add_r by lia. f_equal. lia. Qed.

Lemma pow2_xI (p : positive) : 2 ^ Zpos p~1 = 2 * (2 ^ Zpos p * 2 ^ Zpos p).
Proof.
  rewrite <- Z.pow_add_r, <- Z.pow_succ_r by lia. f_equal. lia.
Qed.

Lemma iter_shr_1_m (p : positive) : forall mrs,
  0 <= shr_m mrs ->
  shr_m (SpecFloat.iter_pos shr_1 p mrs) = shr_m mrs / 2 ^ Zpos p.
Proof.
  induction p as [p IH|p IH|]; intros mrs H; simpl SpecFloat.iter_pos.
  - assert (H1 : 0 <= shr_m (shr_1 mrs)) by (rewrite shr_1_m by assumption; apply Z.div_pos; lia).
    assert (H2 : 0 <= shr_m (SpecFloat.iter_pos shr_1 p (shr_1 mrs))) by (rewrite IH by assumption; apply Z.div_pos; lia).
    rewrite IH, IH, shr_1_m by assumption.
    rewrite !Z.div_div by lia.
    rewrite pow2_xI. reflexivity.
  - assert (H2 : 0 <= shr_m (SpecFloat.iter_pos shr_1 p mrs)) by (rewrite IH by assumption; apply Z.div_pos; lia).
    rewrite IH, IH by assumption.
    rewrite !Z.div_div by lia.
    rewrite pow2_xO. reflexivity.
  - rewrite shr_1_m by assumption. reflexivity.
Qed.

Lemma shr_record_of_loc_m m l : shr_m (shr_record_of_loc m l) = m.
Proof. destruct l as [|[| |]]; reflexivity. Qed.

Lemma shr_fexp_pos (m : positive) (e : Z) l :
  emin <= e ->
  exists m' , shr_m (fst (shr_fexp prec emax (Zpos m) e l)) = Zpos m'
    /\ emin <= snd (shr_fexp prec emax (Zpos m) e l).
Proof.
  intros He. unfold shr_fexp, shr. simpl Zdigits2.
  destruct (fexp (Zpos (digits2_pos m) + e) - e) as [|p|p] eqn:E; simpl fst; simpl snd.
  - rewrite shr_record_of_loc_m. exists m. split; [reflexivity | lia].
  - rewrite iter_shr_1_m by (rewrite shr_record_of_loc_m; lia).
    rewrite shr_record_of_loc_m.
    unfold SpecFloat.fexp in E.
    assert (Hp : Zpos p = Zpos (digits2_pos m) - prec) by lia.
    pose proof (digits2_pos_bounds m) as [Hlo _].
    assert (Hle : 2 ^ Zpos p <= Zpos m).
    { eapply Z.le_trans; [|exact Hlo]. apply Z.pow_le_mono_r; lia. }
    assert (0 < Zpos m / 2 ^ Zpos p).
    { apply Z.div_str_pos. split; [apply Z.pow_pos_nonneg; lia | assumption]. }
    destruct (Zpos m / 2 ^ Zpos p) as [|q|q] eqn:Eq; try lia.
    exists q. split; [reflexivity | lia].
  - rewrite shr_record_of_loc_m. exists m. split; [reflexivity | lia].
Qed.

Lemma round_nearest_even_pos (m : positive) l :
  exists m', round_nearest_even (Zpos m) l = Zpos m'.
Proof.
  destruct l as [|[| |]]; simpl; eauto.
  destruct m; simpl; eauto.
Qed.

Lemma binary_round_aux_signed s (m : positive) e l :
  emin <= e -> signed s (binary_round_aux prec emax s (Zpos m) e l).
Proof.
  intros He. unfold binary_round_aux.
  destruct (shr_fexp_pos m e l He) as (m1 & Hm1 & He1).
  destruct (shr_fexp prec emax (Zpos m) e l) as [mrs1 e1]. simpl in Hm1, He1.
  rewrite Hm1.
  destruct (round_nearest_even_pos m1 (loc_of_shr_record mrs1)) as [m2 ->].
  destruct (shr_fexp_pos m2 e1 loc_Exact He1) as (m3 & Hm3 & He3).
  destruct (shr_fexp prec emax (Zpos m2) e1 loc_Exact) as [mrs3 e3]. simpl in Hm3, He3.
  rewrite Hm3. destruct (e3 <=? emax - prec); simpl; reflexivity.
Qed.

Lemma binary_round_signed s (m : positive) e :
  emin <= e -> signed s (binary_round prec emax s m e).
Proof.
  intros He. unfold binary_round.
  destruct (shl_align m e (fexp (Zpos (digits2_pos m) + e))) as [mz ez] eqn:E.
  apply binary_round_aux_signed.
  unfold shl_align in E.
  destruct (fexp (Zpos (digits2_pos m) + e) - e) eqn:E'; inversion E; subst; try lia.
  unfold SpecFloat.fexp. lia.
Qed.

Lemma bounded_bounds (m : positive) (e : Z) :
  bounded prec emax m e = true ->
  emin <= e /\ Zpos m < 2 ^ prec /\ (emin < e -> 2 ^ (prec - 1) <= Zpos m).
Proof.
  unfold bounded, canonical_mantissa, SpecFloat.fexp.
  intros H. apply andb_prop in H as [H _]. apply Z.eqb_eq in H.
  pose proof (digits2_pos_bounds m) as [Hlo Hhi].
  split; [lia|]. split.
  - eapply Z.lt_le_trans; [exact Hhi|]. apply Z.pow_le_mono_r; lia.
  - intros He. replace (prec - 1) with (Zpos (digits2_pos m) - 1) by lia. exact Hlo.
Qed.


Lemma scaled_lt (m1 m2 : positive) (e1 e2 : Z) :
  bounded prec emax m1 e1 = true -> bounded prec emax m2 e2 = true ->
  e1 < e2 -> Zpos m1 < Zpos m2 * 2 ^ (e2 - e1).
Proof.
  intros H1 H2 Hlt.
  apply bounded_bounds in H1 as (He1 & Hm1 & _).
  apply bounded_bounds in H2 as (_ & _ & Hm2).
  specialize (Hm2 ltac:(lia)).
  assert (Hp : 2 ^ 1 <= 2 ^ (e2 - e1)) by (apply Z.pow_le_mono_r; lia).
  change (2 ^ 1) with 2 in Hp.
  assert (Hq : 2 ^ prec = 2 ^ (prec - 1) * 2).
  { rewrite Z.mul_comm, <- Z.pow_succ_r by lia. f_equal. lia. }
  assert (2 ^ (prec - 1) * 2 <= Zpos m2 * 2 ^ (e2 - e1)).
  { apply Z.mul_le_mono_nonneg; lia. }
  lia.
Qed.

Lemma aligned_compare (m1 m2 : positive) (e1 e2 : Z) :
  bounded prec emax m1 e1 = true -> bounded prec emax m2 e2 = true ->
  (Zpos m1 * 2 ^ (e1 - Z.min e1 e2) ?= Zpos m2 * 2 ^ (e2 - Z.min e1 e2)) =
  match e1 ?= e2 with
  | Lt => Lt
  | Gt => Gt
  | Eq => Pos.compare_cont Eq m1 m2
  end.
Proof.
  intros H1 H2.
  destruct (Z.compare_spec e1 e2) as [E|E|E].
  - subst. rewrite Z.min_id, Z.sub_diag. change (2 ^ 0) with 1.
    rewrite !Z.mul_1_r. reflexivity.
  - rewrite Z.min_l, Z.sub_diag by lia. change (2 ^ 0) with 1.
    rewrite Z.mul_1_r.
    apply Z.compare_lt_iff. apply scaled_lt; assumption.
  - rewrite Z.min_r, Z.sub_diag by lia. change (2 ^ 0) with 1.
    rewrite Z.mul_1_r.
    apply Z.compare_gt_iff. apply scaled_lt; assumption.
Qed.

Lemma SFcompare_aligned sx mx ex sy my ey :
  bounded prec emax mx ex = true -> bounded prec emax my ey = true ->
  SFcompare (S754_finite sx mx ex) (S754_finite sy my ey) =
  Some (cond_Zopp sx (Zpos mx * 2 ^ (ex - Z.min ex ey))
        ?= cond_Zopp sy (Zpos my * 2 ^ (ey - Z.min ex ey))).
Proof.
  intros Hx Hy. pose proof (aligned_compare mx my ex ey Hx Hy) as Hc.
  assert (Hpx : 0 < Zpos mx * 2 ^ (ex - Z.min ex ey)).
  { apply Z.mul_pos_pos; [lia|]. apply Z.pow_pos_nonneg; lia. }
  assert (Hpy : 0 < Zpos my * 2 ^ (ey - Z.min ex ey)).
  { apply Z.mul_pos_pos; [lia|]. apply Z.pow_pos_nonneg; lia. }
  simpl SFcompare. f_equal.
  destruct sx, sy; unfold cond_Zopp.
  - rewrite Z.compare_opp.
    rewrite (Z.compare_antisym (Zpos mx * 2 ^ (ex - Z.min ex ey))), Hc.
    destruct (ex ?= ey); reflexivity.
  - symmetry. apply Z.compare_lt_iff. lia.
  - symmetry. apply Z.compare_gt_iff. lia.
  - rewrite Hc. reflexivity.
Qed.

Lemma SFltb_zero_signed s x :
  signed s x -> SFltb (S754_zero false) x = negb s.
Proof.
  destruct x as [| s' | | s' m e]; simpl; try contradiction;
    intros ->; destruct s; reflexivity.
Qed.

Lemma SFsub_sign (x y : spec_float) :
  SpecFloat.valid_binary prec emax x = true ->
  SpecFloat.valid_binary prec emax y = true ->
  x <> S754_nan -> y <> S754_nan ->
  SFltb (S754_zero false) (SFsub prec emax y x) = SFltb x y.
Proof.
  intros Vx Vy Nx Ny.
  destruct x as [sx|sx| |sx mx ex], y as [sy|sy| |sy my ey];
    try congruence;
    try (destruct sx, sy; reflexivity);
    try (destruct sx; reflexivity); try (destruct sy; reflexivity).
  simpl in Vx, Vy.
  unfold SFltb at 2. rewrite (SFcompare_aligned _ _ _ _ _ _ Vx Vy).
  pose proof (bounded_bounds _ _ Vx) as (Hex & _).
  pose proof (bounded_bounds _ _ Vy) as (Hey & _).
  simpl SFsub.
  rewrite !shl_align_fst by lia.
  rewrite (Z.min_comm ey ex).
  set (dx := cond_Zopp sx (Zpos mx * 2 ^ (ex - Z.min ex ey))).
  set (dy := cond_Zopp sy (Zpos my * 2 ^ (ey - Z.min ex ey))).
  unfold binary_normalize.
  destruct (Z.compare_spec dx dy) as [E|E|E].
  - rewrite E, Z.sub_diag. reflexivity.
  - destruct (dy - dx) as [|d|d] eqn:Ed; try lia.
    rewrite (SFltb_zero_signed false); [reflexivity|].
    apply binary_round_signed. lia.
  - destruct (dy - dx) as [|d|d] eqn:Ed; try lia.
    rewrite (SFltb_zero_signed true); [reflexivity|].
    apply binary_round_signed. lia.
Qed.

End Spec.

Lemma not_nan_spec (x : float) :
  (x =? x)%float = true -> Prim2SF x <> S754_nan.
Proof.
  rewrite FloatAxioms.eqb_spec. intros H E. rewrite E in H. discriminate.
Qed.

Lemma sub_sign (x y : float) :
  (x =? x)%float = true -> (y =? y)%float = true ->
  (0 <? y - x)%float = (x <? y)%float.
Proof.
  intros Hx Hy.
  rewrite !FloatAxioms.ltb_spec, FloatAxioms.sub_spec.
  change (Prim2SF 0) with (S754_zero false).
  apply SFsub_sign; auto using Prim2SF_valid, not_nan_spec.
  reflexivity.
Qed.

Lemma SFcompare_antisym (x y : spec_float) :
  SFcompare y x = option_map CompOpp (SFcompare x y).
Proof.
  destruct x as [sx|sx| |sx mx ex], y as [sy|sy| |sy my ey]; simpl;
    try reflexivity;
    try (destruct sx; reflexivity); try (destruct sy; reflexivity);
    try (destruct sx, sy; reflexivity).
  destruct sx, sy; simpl; try reflexivity.
  - rewrite (Z.compare_antisym ey ex).
    destruct (ey ?= ex)%Z; simpl; try reflexivity.
    rewrite Pos.compare_cont_antisym. simpl.
    rewrite CompOpp_involutive. reflexivity.
  - rewrite (Z.compare_antisym ey ex).
    destruct (ey ?= ex)%Z; simpl; try reflexivity.
    rewrite Pos.compare_cont_antisym. reflexivity.
Qed.

Lemma not_nan_compare (x y : float) :
  (x =? x)%float = true -> (y =? y)%float = true ->
  exists c, SFcompare (Prim2SF x) (Prim2SF y) = Some c.
Proof.
  rewrite !FloatAxioms.eqb_spec. unfold SFeqb.
  destruct (Prim2SF x), (Prim2SF y); simpl; try discriminate; eauto.
Qed.

Lemma leb_negb_ltb (x y : float) :
  (x =? x)%float = true -> (y =? y)%float = true ->
  (y <=? x)%float = negb (x <? y)%float.
Proof.
  intros Hx Hy. rewrite FloatAxioms.leb_spec, FloatAxioms.ltb_spec.
  unfold SFleb, SFltb.
  rewrite (SFcompare_antisym (Prim2SF x) (Prim2SF y)).
  destruct (not_nan_compare x y Hx Hy) as [c ->]. destruct c; reflexivity.
Qed.

Lemma SFleb_trans (x y z : spec_float) :
  SFleb x y = true -> SFleb y z = true -> SFleb x z = true.
Proof.
  unfold SFleb.
  destruct x as [sx|sx| |sx mx ex], y as [sy|sy| |sy my ey],
    z as [sz|sz| |sz mz ez]; simpl;
    try discriminate; try reflexivity;
    try (destruct sx; simpl; try discriminate; try reflexivity);
    try (destruct sy; simpl; try discriminate; try reflexivity);
    try (destruct sz; simpl; try discriminate; try reflexivity).
  all: try (intros; reflexivity).
  all: rewrite ?Pos.compare_cont_spec; simpl.
  all: destruct (Z.compare_spec ex ey), (Z.compare_spec ey ez),
         (Z.compare_spec ex ez); try lia; subst; simpl;
       try discriminate; try reflexivity.
  all: destruct (Pos.compare_spec mx my), (Pos.compare_spec my mz),
         (Pos.compare_spec mx mz); try lia; subst; simpl;
       try discriminate; try reflexivity.
Qed.

Lemma leb_trans (x y z : float) :
  (x <=? y)%float = true -> (y <=? z)%float = true ->
  (x <=? z)%float = true.
Proof. rewrite !FloatAxioms.leb_spec. apply SFleb_trans. Qed.

Lemma leb_not_nan_r (x y : float) :
  (x <=? y)%float = true -> (y =? y)%float = true.
Proof.
  rewrite FloatAxioms.leb_spec, FloatAxioms.eqb_spec. unfold SFleb, SFeqb.
  destruct (Prim2SF x) as [[]|[]| |[] ? ?], (Prim2SF y) as [[]|[]| |[] ? ?];
    simpl; try discriminate; try reflexivity;
    intros _; rewrite ?Z.compare_refl, ?Pos.compare_cont_refl; reflexivity.
Qed.

Lemma ltb_leb (x y : float) :
  (x <? y)%float = true -> (x <=? y)%float = true.
Proof.
  rewrite FloatAxioms.leb_spec, FloatAxioms.ltb_spec. unfold SFleb, SFltb.
  destruct (SFcompare (Prim2SF x) (Prim2SF y)) as [[]|]; congruence.
Qed.

(** A zero factor gives a zero product unless the other factor is infinite
    or not a number. *)
Lemma mul_zero_l (x y : float) :
  (x =? 0)%float = true -> finite y = true -> (x * y =? 0)%float = true.
Proof.
  unfold finite. rewrite !FloatAxioms.eqb_spec, FloatAxioms.mul_spec.
  change (Prim2SF 0) with (S754_zero false).
  destruct (Prim2SF x) as [sx|sx| |sx mx ex], (Prim2SF y) as [sy|sy| |sy my ey];
    simpl; try discriminate; try reflexivity;
    destruct sx; discriminate.
Qed.

Lemma mul_zero_r (x y : float) :
  finite x = true -> (y =? 0)%float = true -> (x * y =? 0)%float = true.
Proof.
  unfold finite. rewrite !FloatAxioms.eqb_spec, FloatAxioms.mul_spec.
  change (Prim2SF 0) with (S754_zero false).
  destruct (Prim2SF x) as [sx|sx| |sx mx ex], (Prim2SF y) as [sy|sy| |sy my ey];
    simpl; try discriminate; try reflexivity;
    destruct sy; discriminate.
Qed.

End FloatFacts.

(** ** Impact analyzer *)

Module ImpactAnalyzerFacts.
Import ImpactAnalyzer AnalyzerSpecification.

Lemma cosine_loop_spec (a : list float) : forall b dot normA normB,
  length a = length b ->
  cosine_loop a b dot normA normB =
    (fold_left (fun acc xy => (acc + fst xy * snd xy)%float) (combine a b) dot,
     fold_left (fun acc x => (acc + x * x)%float) a normA,
     fold_left (fun acc x => (acc + x * x)%float) b normB).
Proof.
  induction a as [|x a IH]; intros [|y b] dot normA normB Hlen;
    simpl in *; try discriminate; [reflexivity|].
  apply IH. congruence.
Qed.

Lemma cosineSimilarity_same_length (a b : list float) :
  length a = length b ->
  cosineSimilarity a b =
    if (norm_product a b =? 0)%float then 0%float
    else (dot_product a b / norm_product a b)%float.
Proof.
  intros Hlen. unfold cosineSimilarity.
  rewrite Hlen, Nat.eqb_refl. simpl.
  rewrite (cosine_loop_spec a b _ _ _ Hlen). reflexivity.
Qed.

(** *** The sort *)


Lemma sort_insert_permutation {A : Type} (cmp : A -> A -> float) (x : A)
    (l : list A) : Permutation (sort_insert cmp x l) (x :: l).
Proof.
  induction l as [|y l IH]; simpl; [reflexivity|].
  destruct (0 <? cmp x y)%float; [|reflexivity].
  rewrite IH. apply perm_swap.
Qed.

Lemma sort_permutation {A : Type} (cmp : A -> A -> float) (l : list A) :
  Permutation (sort cmp l) l.
Proof.
  induction l as [|x l IH]; simpl; [reflexivity|].
  rewrite sort_insert_permutation, IH. reflexivity.
Qed.





(** *** The scoring loop *)

Section WithEnv.
Variable env : Env.


Lemma score_candidates_skip (emb : list float) (c : Candidate)
    (cs1 cs2 : list Candidate) :
  select_master_specification env (spec_id c) = None ->
  forall results,
    score_candidates env emb (cs1 ++ c :: cs2) results =
    score_candidates env emb (cs1 ++ cs2) results.
Proof.
  intros Hc. induction cs1 as [|c1 cs1 IH]; intros results; simpl.
  - rewrite Hc. reflexivity.
  - destruct (select_master_specification env (spec_id c1)); [|apply IH].
    destruct (embedQuery env _); [|reflexivity].
    destruct (_ <=? _)%float; apply IH.
Qed.

Lemma score_candidates_abort (emb : list float) (c : Candidate)
    (m : MasterSpecification) (e : Error) (cs : list Candidate) :
  In c cs ->
  select_master_specification env (spec_id c) = Some m ->
  embedQuery env (extractMasterSpecText m) = Threw e ->
  forall results,
    exists e', score_candidates env emb cs results = Threw e'.
Proof.
  intros Hin Hm He. induction cs as [|c1 cs IH]; [destruct Hin|].
  intros results. simpl.
  destruct Hin as [->|Hin].
  - rewrite Hm, He. eauto.
  - destruct (select_master_specification env (spec_id c1)) as [m1|] in |- *;
      [|auto].
    destruct (embedQuery env (extractMasterSpecText m1)) as [v1|e1] in |- *;
      [|eauto].
    destruct (_ <=? _)%float; auto.
Qed.

End WithEnv.

(** *** The analyzer on concrete inputs *)

Example cosineSimilarity_parallel :
  cosineSimilarity [3%float; 4%float] [3%float; 4%float] = 1%float.
Proof. reflexivity. Qed.

Example cosineSimilarity_orthogonal :
  cosineSimilarity [1%float; 0%float] [0%float; 1%float] = 0%float.
Proof. reflexivity. Qed.

Example cosineSimilarity_lengths :
  cosineSimilarity [1%float] [1%float; 0%float] = 0%float.
Proof. reflexivity. Qed.

Example sort_by_score :
  map semanticScore
    (sort by_score
       [affected (AnalyzerFixtures.candidate "a") 0.75%float;
        affected (AnalyzerFixtures.candidate "b") 1%float;
        affected (AnalyzerFixtures.candidate "c") 0.875%float;
        affected (AnalyzerFixtures.candidate "d") 1%float])
  = [1%float; 1%float; 0.875%float; 0.75%float]
  /\ map specId
       (sort by_score
          [affected (AnalyzerFixtures.candidate "a") 0.75%float;
           affected (AnalyzerFixtures.candidate "b") 1%float;
           affected (AnalyzerFixtures.candidate "c") 0.875%float;
           affected (AnalyzerFixtures.candidate "d") 1%float])
     = ["b"; "d"; "c"; "a"].
Proof. split; reflexivity. Qed.

Example extractMasterSpecText_parts :
  extractMasterSpecText
    {| projectName := Some "Ledger";
       projectSummary := None;
       problemStatement := Some "";
       coreFeatures := Some [("Export", "CSV export")];
       dataFlows := Some [("app", "db", "PII")];
       nonFunctionalRequirements := Some ["99.9% uptime"] |}
  = String.concat (String JS.LF "")
      ["Ledger"; "Export: CSV export"; "app → db: PII"; "99.9% uptime"].
Proof. reflexivity. Qed.

Example findAffectedSpecs_with_text :
  findAffectedSpecs AnalyzerFixtures.two_candidates "GDPR" "EU"
    (Some "encryption at rest")
  = Returned [affected (AnalyzerFixtures.candidate "spec-2") 1%float].
Proof. reflexivity. Qed.

Example findAffectedSpecs_missing_master :
  findAffectedSpecs AnalyzerFixtures.missing_master "GDPR" "EU"
    (Some "encryption at rest")
  = Returned [affected (AnalyzerFixtures.candidate "spec-2") 1%float].
Proof. reflexivity. Qed.

(** *** The claims about the analyzer *)

(** C10, as amended.  [cosineSimilarity] is a total function; it returns 0
    when the vectors differ in length and 0 when the denominator (the product
    of the two norms) compares equal to zero, so that the division is only
    performed by a denominator that is not zero; otherwise it returns the dot
    product divided by the product of the norms.  A vector of zero norm gives
    a zero denominator, hence the result 0, whenever the norm of the other
    vector is finite. *)
Theorem cosineSimilarity_spec (a b : list float) :
  cosineSimilarity a b =
    (if negb (Nat.eqb (length a) (length b)) then 0
     else if norm_product a b =? 0 then 0
     else dot_product a b / norm_product a b)%float
  /\ (length a = length b ->
      (sqrt (sum_squares a) =? 0)%float = true ->
      finite (sqrt (sum_squares b)) = true ->
      cosineSimilarity a b = 0%float)
  /\ (length a = length b ->
      finite (sqrt (sum_squares a)) = true ->
      (sqrt (sum_squares b) =? 0)%float = true ->
      cosineSimilarity a b = 0%float).
Proof.
  split; [|split].
  - destruct (Nat.eqb (length a) (length b)) eqn:E; simpl.
    + apply Nat.eqb_eq in E. apply cosineSimilarity_same_length. exact E.
    + unfold cosineSimilarity. rewrite E. reflexivity.
  - intros Hlen Ha Hb. rewrite (cosineSimilarity_same_length a b Hlen).
    unfold norm_product. rewrite (FloatFacts.mul_zero_l _ _ Ha Hb).
    reflexivity.
  - intros Hlen Ha Hb. rewrite (cosineSimilarity_same_length a b Hlen).
    unfold norm_product. rewrite (FloatFacts.mul_zero_r _ _ Ha Hb).
    reflexivity.
Qed.

Lemma cosineSimilarity_spec_witness :
  cosineSimilarity [0%float; 0%float] [3%float; 4%float] = 0%float
  /\ cosineSimilarity [3%float; 4%float] [0%float; 0%float] = 0%float.
Proof.
  split.
  - apply (proj1 (proj2
      (cosineSimilarity_spec [0%float; 0%float] [3%float; 4%float])));
      reflexivity.
  - apply (proj2 (proj2
      (cosineSimilarity_spec [3%float; 4%float] [0%float; 0%float])));
      reflexivity.
Defined.

(** C10 as stated fails: the vector [0] has zero norm, yet against a vector
    whose squared norm overflows the denominator is [0 * infinity], which is
    not a number and does not compare equal to zero, and the result is not a
    number instead of 0. *)
Lemma cosineSimilarity_zero_norm_counterexample :
  let a := [0%float] in
  let b := [0x1p600%float] in
  length a = length b
  /\ (sqrt (sum_squares a) =? 0)%float = true
  /\ is_nan (cosineSimilarity a b) = true
  /\ cosineSimilarity a b <> 0%float.
Proof.
  repeat split; try reflexivity.
  intros H.
  assert (E : is_nan (cosineSimilarity [0%float] [0x1p600%float]) = true)
    by reflexivity.
  rewrite H in E. discriminate E.
Qed.

(** C9.  When the regulation text is omitted (or is the empty string, which
    the code takes as no text), the result is the list of the Stage-1
    candidates, in the order of the query: one entry for each candidate,
    with the candidate's spec id, workspace, version number, frameworks and
    jurisdictions, and with [semanticScore] 1.0.  No master specification
    is fetched and nothing is embedded or filtered. *)
Theorem findAffectedSpecs_without_text (env : Env)
    (framework jurisdiction : string) (candidates : option (list Candidate))
    (regulationContent : option string) :
  find_affected_specs env framework jurisdiction = RpcData candidates ->
  regulationContent = None \/ regulationContent = Some "" ->
  findAffectedSpecs env framework jurisdiction regulationContent
    = Returned
        (map (fun c =>
                {| specId := spec_id c;
                   workspaceId := workspace_id c;
                   versionNumber := version_number c;
                   frameworks := c_frameworks c;
                   jurisdictions := c_jurisdictions c;
                   semanticScore := 1 |})
           (or_nil candidates)).
Proof.
  intros Hq Hno. unfold findAffectedSpecs. rewrite Hq.
  destruct candidates as [[|c cs]|]; try reflexivity.
  destruct Hno as [-> | ->]; reflexivity.
Qed.

Lemma findAffectedSpecs_without_text_witness :
  findAffectedSpecs AnalyzerFixtures.two_candidates "GDPR" "EU" None
    = Returned
        [{| specId := "spec-1"; workspaceId := "ws-1"; versionNumber := 1;
            frameworks := ["GDPR"]; jurisdictions := ["EU"];
            semanticScore := 1 |};
         {| specId := "spec-2"; workspaceId := "ws-1"; versionNumber := 1;
            frameworks := ["GDPR"]; jurisdictions := ["EU"];
            semanticScore := 1 |}].
Proof.
  apply (findAffectedSpecs_without_text AnalyzerFixtures.two_candidates
           "GDPR" "EU"
           (Some [AnalyzerFixtures.candidate "spec-1";
                  AnalyzerFixtures.candidate "spec-2"]) None).
  - reflexivity.
  - left. reflexivity.
Defined.

(** C7, as amended.  A failure of the Stage-1 query makes the call throw.
    A candidate whose master specification cannot be fetched is skipped and
    the other candidates are evaluated as if it were not there.  A failure of
    the embedding of any candidate that has a master specification is not
    caught: the whole call throws and no candidate is returned. *)
Theorem findAffectedSpecs_failures (env : Env)
    (framework jurisdiction : string) (regulationContent : option string) :
  (find_affected_specs env framework jurisdiction = RpcError ->
   findAffectedSpecs env framework jurisdiction regulationContent
     = Threw QueryFailed)
  /\ (forall emb c cs1 cs2 results,
        select_master_specification env (spec_id c) = None ->
        score_candidates env emb (cs1 ++ c :: cs2) results
          = score_candidates env emb (cs1 ++ cs2) results)
  /\ (forall candidates c m e,
        find_affected_specs env framework jurisdiction
          = RpcData (Some candidates) ->
        no_content regulationContent = false ->
        In c candidates ->
        select_master_specification env (spec_id c) = Some m ->
        embedQuery env (extractMasterSpecText m) = Threw e ->
        exists e',
          findAffectedSpecs env framework jurisdiction regulationContent
            = Threw e').
Proof.
  split; [|split].
  - intros Hq. unfold findAffectedSpecs. rewrite Hq. reflexivity.
  - intros emb c cs1 cs2 results Hc.
    apply score_candidates_skip. exact Hc.
  - intros candidates c m e Hq Hcontent Hin Hm He.
    unfold findAffectedSpecs. rewrite Hq, Hcontent.
    destruct candidates as [|c0 cs0]; [destruct Hin|].
    destruct (embedQuery env (or_empty regulationContent)) as [emb|e0]
      in |- *; [|eauto].
    destruct (score_candidates_abort env emb c m e (c0 :: cs0) Hin Hm He [])
      as [e' ->].
    eauto.
Qed.

Lemma findAffectedSpecs_failures_witness :
  findAffectedSpecs AnalyzerFixtures.failing_query "GDPR" "EU"
      (Some "encryption at rest") = Threw QueryFailed
  /\ score_candidates AnalyzerFixtures.missing_master [1%float; 0%float]
       ([] ++ AnalyzerFixtures.candidate "spec-1"
           :: [AnalyzerFixtures.candidate "spec-2"]) []
     = score_candidates AnalyzerFixtures.missing_master [1%float; 0%float]
         ([] ++ [AnalyzerFixtures.candidate "spec-2"]) []
  /\ exists e',
       findAffectedSpecs AnalyzerFixtures.failing_embedding "GDPR" "EU"
         (Some "encryption at rest") = Threw e'.
Proof.
  split; [|split].
  - apply (findAffectedSpecs_failures AnalyzerFixtures.failing_query
             "GDPR" "EU" (Some "encryption at rest")).
    reflexivity.
  - apply (findAffectedSpecs_failures AnalyzerFixtures.missing_master
             "GDPR" "EU" (Some "encryption at rest")).
    reflexivity.
  - apply (findAffectedSpecs_failures AnalyzerFixtures.failing_embedding
             "GDPR" "EU" (Some "encryption at rest"))
      with (candidates := [AnalyzerFixtures.candidate "spec-1";
                           AnalyzerFixtures.candidate "spec-2"])
           (c := AnalyzerFixtures.candidate "spec-1")
           (m := AnalyzerFixtures.master "spec-1")
           (e := CapabilityError "embedding service unavailable").
    + reflexivity.
    + reflexivity.
    + left. reflexivity.
    + reflexivity.
    + reflexivity.
Defined.

(** C7 as stated fails: when the embedding of the first candidate's summary
    fails, the call throws, although the second candidate embeds and scores
    1.0 against the regulation; it is neither scored nor returned. *)
Lemma findAffectedSpecs_embedding_failure_counterexample :
  findAffectedSpecs AnalyzerFixtures.failing_embedding "GDPR" "EU"
      (Some "encryption at rest")
    = Threw (CapabilityError "embedding service unavailable")
  /\ embedQuery AnalyzerFixtures.failing_embedding "encryption at rest"
       = Returned [1%float; 0%float]
  /\ embedQuery AnalyzerFixtures.failing_embedding
       (extractMasterSpecText (AnalyzerFixtures.master "spec-2"))
       = Returned [1%float; 0%float]
  /\ (SEMANTIC_THRESHOLD
        <=? cosineSimilarity [1%float; 0%float] [1%float; 0%float])%float
     = true.
Proof. repeat split. Qed.



End ImpactAnalyzerFacts.

(** ** Diff engine *)

Module DiffEngineFacts.
Import JS Types Runtime DiffEngine Specification.

Lemma ModuleKey_eqb_eq (a b : ModuleKey) : ModuleKey_eqb a b = true <-> a = b.
Proof. destruct a, b; simpl; split; congruence. Qed.

Lemma ModuleKey_eqb_refl (a : ModuleKey) : ModuleKey_eqb a a = true.
Proof. apply ModuleKey_eqb_eq. reflexivity. Qed.

Lemma ModuleKey_eqb_neq (a b : ModuleKey) : ModuleKey_eqb a b = false <-> a <> b.
Proof. destruct a, b; simpl; split; congruence. Qed.

Lemma ModuleKey_eq_dec (a b : ModuleKey) : {a = b} + {a <> b}.
Proof. decide equality. Qed.

Lemma module_get_set_eq (k : ModuleKey) (v : JSON) (m : Modules) :
  module_get k (module_set k v m) = v.
Proof. destruct k; reflexivity. Qed.

Lemma module_get_set_ne (k k' : ModuleKey) (v : JSON) (m : Modules) :
  k <> k' -> module_get k (module_set k' v m) = module_get k m.
Proof. destruct k, k'; simpl; congruence. Qed.

(** *** Keys *)

(** The conversion to a property key fails exactly on the values that
    cannot be printed. *)
Lemma property_key_NoKey :
  forall v, property_key v = NoKey <-> unprintable v = true.
Proof.
  fix IH 1. intros [ |b|n|s|items|o]; simpl; try (split; discriminate).
  - destruct items as [|x [|y items]].
    + simpl. split; discriminate.
    + simpl. rewrite orb_false_r. apply IH.
    + destruct (existsb unprintable (x :: y :: items)); split;
        (reflexivity || discriminate).
  - destruct (has "toString" o); split; (reflexivity || discriminate).
Qed.

Lemma property_of_Unconvertible (v : JSON) :
  property_of v = Unconvertible <-> unprintable v = true.
Proof.
  rewrite <- property_key_NoKey. unfold property_of.
  destruct (property_key v) as [s| |].
  - destruct (module_of_name s);
      [|destruct (existsb _ _)]; split; discriminate.
  - split; discriminate.
  - split; reflexivity.
Qed.

Lemma modules_get_Returned (m : Modules) (key : JSON)
    (data : option ModuleData) :
  modules_get m key = Returned data -> unprintable key = false.
Proof.
  unfold modules_get. intros H.
  destruct (unprintable key) eqn:E; [|reflexivity].
  apply property_of_Unconvertible in E. rewrite E in H. discriminate H.
Qed.

Lemma modules_get_Threw (m : Modules) (key : JSON) (e : Error) :
  modules_get m key = Threw e -> e = TypeError /\ unprintable key = true.
Proof.
  unfold modules_get. intros H.
  destruct (property_of key) eqn:E; try discriminate H.
  injection H as <-. split; [reflexivity|].
  apply property_of_Unconvertible. exact E.
Qed.

(** *** Frame: the engine only talks to the text generation *)

Lemma same_tables_refl (w : World) : same_tables w w.
Proof. repeat split. Qed.

Lemma same_tables_trans (w1 w2 w3 : World) :
  same_tables w1 w2 -> same_tables w2 w3 -> same_tables w1 w3.
Proof.
  unfold same_tables. intros (? & ? & ? & ?) (? & ? & ? & ?).
  repeat split; congruence.
Qed.

Section WithEnv.
Variable env : Env.

Lemma create_run (w : World) :
  exists w',
    create env w
      = (match messages_create env (ticks w) with
         | Returned b => Returned b
         | Threw e => Threw e
         end, w')
    /\ ticks w' = S (ticks w) /\ same_tables w w'.
Proof.
  unfold create, bind, tick. simpl.
  destruct (messages_create env (ticks w)); simpl;
    eexists; (split; [reflexivity|]); repeat split.
Qed.

Lemma detectAffectedModules_raises (regulation : Regulation)
    (spec : SpecVersion) (w : World) :
  summary_raises spec = true ->
  detectAffectedModules env regulation spec w = (Threw TypeError, w).
Proof. intros H. unfold detectAffectedModules. rewrite H. reflexivity. Qed.

Lemma detectAffectedModules_run (regulation : Regulation)
    (spec : SpecVersion) (w : World) :
  summary_raises spec = false ->
  exists w',
    detectAffectedModules env regulation spec w
      = (match messages_create env (ticks w) with
         | Returned block =>
             Returned
               match JSON_parse env (clean (text_or "[]" block)) with
               | Some parsed => parsed
               | None => fallback_modules
               end
         | Threw e => Threw e
         end, w')
    /\ ticks w' = S (ticks w) /\ same_tables w w'.
Proof.
  intros Hsum. unfold detectAffectedModules. rewrite Hsum. unfold bind.
  destruct (create_run w) as (w' & -> & Ht & Hs).
  exists w'. split; [|auto].
  destruct (messages_create env (ticks w)) as [block|e]; [|reflexivity].
  destruct (JSON_parse env (clean (text_or "[]" block))); reflexivity.
Qed.


Lemma generateModuleDiffs_run (regulation : Regulation) (moduleKey : JSON)
    (currentModuleData : option ModuleData) (w : World) :
  unprintable moduleKey = false ->
  exists w',
    generateModuleDiffs env regulation moduleKey currentModuleData w
      = (match messages_create env (ticks w) with
         | Returned block =>
             Returned
               match JSON_parse env (clean (text_or "[]" block)) with
               | Some (JArr generated) =>
                   map (stamp regulation moduleKey) generated
               | _ => []
               end
         | Threw e => Threw e
         end, w')
    /\ ticks w' = S (ticks w) /\ same_tables w w'.
Proof.
  intros Hkey. unfold generateModuleDiffs. rewrite Hkey. unfold bind.
  destruct (create_run w) as (w' & -> & Ht & Hs).
  exists w'. split; [|auto].
  destruct (messages_create env (ticks w)) as [block|e]; [|reflexivity].
  destruct (JSON_parse env (clean (text_or "[]" block))) as [[]|];
    reflexivity.
Qed.

(** *** Grouping *)

Lemma push_diff_keys (k : ModuleKey) (d : ClauseDiff)
    (groups : list (ModuleKey * list ClauseDiff)) :
  map fst (push_diff k d groups) =
    if existsb (ModuleKey_eqb k) (map fst groups) then map fst groups
    else map fst groups ++ [k].
Proof.
  induction groups as [|[k' ds] groups IH]; simpl; [reflexivity|].
  destruct (ModuleKey_eqb k k') eqn:E; simpl; [reflexivity|].
  rewrite IH. destruct (existsb _ _); reflexivity.
Qed.

Lemma push_diff_nonempty (k : ModuleKey) (d : ClauseDiff)
    (groups : list (ModuleKey * list ClauseDiff)) :
  List.Forall (fun g => snd g <> []) groups ->
  List.Forall (fun g => snd g <> []) (push_diff k d groups).
Proof.
  induction 1 as [|[k' ds] groups Hg Hgs IH]; simpl.
  - constructor; [discriminate|constructor].
  - destruct (ModuleKey_eqb k k'); constructor; auto.
    simpl. destruct ds; discriminate.
Qed.

Lemma existsb_eqb_In (k : ModuleKey) (l : list ModuleKey) :
  existsb (ModuleKey_eqb k) l = true <-> In k l.
Proof.
  rewrite existsb_exists. split.
  - intros (x & Hx & E). apply ModuleKey_eqb_eq in E. congruence.
  - intros H. exists k. split; [assumption|apply ModuleKey_eqb_refl].
Qed.

Lemma push_diff_NoDup (k : ModuleKey) (d : ClauseDiff)
    (groups : list (ModuleKey * list ClauseDiff)) :
  List.NoDup (map fst groups) -> List.NoDup (map fst (push_diff k d groups)).
Proof.
  intros H. rewrite push_diff_keys.
  destruct (existsb (ModuleKey_eqb k) (map fst groups)) eqn:E; [assumption|].
  apply List.NoDup_app; [assumption| |].
  - constructor; [intros []|constructor].
  - intros x Hx [<-|[]]. apply existsb_eqb_In in Hx. congruence.
Qed.

Lemma group_diffs_spec (ds : list ClauseDiff) :
  forall groups grouped,
    group_diffs ds groups = Some grouped ->
    List.NoDup (map fst groups) ->
    List.Forall (fun g => snd g <> []) groups ->
    List.NoDup (map fst grouped)
    /\ List.Forall (fun g => snd g <> []) grouped
    /\ forall k,
         In k (map fst grouped) <->
         In k (map fst groups) \/ exists d, In d ds /\ diff_module d = Own k.
Proof.
  induction ds as [|d ds IH]; intros groups grouped Hg Hnd Hne; simpl in Hg.
  - injection Hg as <-. split; [assumption|]. split; [assumption|].
    intros k. split; [intros H; left; exact H|].
    intros [H|(d & [] & _)]. exact H.
  - destruct (diff_module d) as [k0| | |] eqn:Ek;
      [| discriminate | | discriminate].
    + pose proof (push_diff_NoDup k0 d groups Hnd) as Hnd'.
      destruct (IH (push_diff k0 d groups) grouped Hg) as (H1 & H2 & H3);
        [apply Hnd' | apply push_diff_nonempty; assumption |].
      split; [assumption|]. split; [assumption|].
      intros k. rewrite H3, push_diff_keys.
      destruct (existsb (ModuleKey_eqb k0) (map fst groups)) eqn:E.
      * apply existsb_eqb_In in E. split.
        -- intros [H|(d' & Hd' & Hk)]; [left; exact H|].
           right. exists d'. split; [right; exact Hd'|exact Hk].
        -- intros [H|(d' & [Hd'|Hd'] & Hk)]; [left; exact H| |].
           ++ left. subst d'. congruence.
           ++ right. exists d'. split; assumption.
      * rewrite in_app_iff. split.
        -- intros [[H|[Hk|[]]]|(d' & Hd' & Hk)]; [left; exact H| |].
           ++ right. exists d. split; [left; reflexivity|congruence].
           ++ right. exists d'. split; [right; exact Hd'|exact Hk].
        -- intros [H|(d' & [Hd'|Hd'] & Hk)]; [left; left; exact H| |].
           ++ left. right. left. subst d'. congruence.
           ++ right. exists d'. split; assumption.
    + destruct (IH groups grouped Hg Hnd Hne) as (H1 & H2 & H3).
      split; [assumption|]. split; [assumption|].
      intros k. rewrite H3. split.
      * intros [H|(d' & Hd' & Hk)]; [left; exact H|].
        right. exists d'. split; [right; exact Hd'|exact Hk].
      * intros [H|(d' & [Hd'|Hd'] & Hk)]; [left; exact H| |].
        -- subst d'. congruence.
        -- right. exists d'. split; assumption.
Qed.

(** The grouping fails exactly on a diff whose module is an inherited
    property or converts to no key. *)
Lemma group_diffs_None (ds : list ClauseDiff) :
  forall groups,
    group_diffs ds groups = None <->
    exists d,
      In d ds /\ (diff_module d = Inherited \/ diff_module d = Unconvertible).
Proof.
  induction ds as [|d ds IH]; intros groups; simpl.
  - split; [discriminate|]. intros (d & [] & _).
  - destruct (diff_module d) as [k0| | |] eqn:Ek.
    + rewrite IH. split.
      * intros (d' & Hd' & Hk). exists d'. split; [right|]; assumption.
      * intros (d' & [Hd'|Hd'] & Hk);
          [subst d'; destruct Hk; congruence|].
        exists d'. split; assumption.
    + split; [|reflexivity]. intros _. exists d.
      split; [left; reflexivity|left; assumption].
    + rewrite IH. split.
      * intros (d' & Hd' & Hk). exists d'. split; [right|]; assumption.
      * intros (d' & [Hd'|Hd'] & Hk);
          [subst d'; destruct Hk; congruence|].
        exists d'. split; assumption.
    + split; [|reflexivity]. intros _. exists d.
      split; [left; reflexivity|right; assumption].
Qed.

(** *** The apply loop *)

Lemma apply_groups_spec (spec : SpecVersion)
    (groups : list (ModuleKey * list ClauseDiff)) :
  forall updated0 w updated w',
    List.NoDup (map fst groups) ->
    apply_groups env spec groups updated0 w = (Returned updated, w') ->
    same_tables w w'
    /\ forall k,
         (~ In k (map fst (List.filter (applies spec) groups)) ->
          module_get k updated = module_get k updated0)
         /\ (forall i,
               map fst (List.filter (applies spec) groups) !! i = Some k ->
               (exists block,
                  messages_create env (ticks w + i) = Returned block)
               /\ module_get k updated =
                    match parsed_reply env "" (ticks w + i) with
                    | Some v => v
                    | None => module_get k updated0
                    end).
Proof.
  induction groups as [|[key mds] groups IH];
    intros updated0 w updated w' Hnd H; simpl in H.
  - injection H as <- <-. split; [apply same_tables_refl|].
    intros k. split; [reflexivity|]. intros i Hi. destruct i; discriminate.
  - inversion Hnd as [|? ? Hkey Hnd']; subst.
    assert (Ha : negb (truthy (module_get key (modules spec)))
                 || Nat.eqb (length mds) 0
                 = negb (applies spec (key, mds))).
    { unfold applies. simpl.
      destruct (truthy _), (Nat.eqb _ _); reflexivity. }
    rewrite Ha in H. simpl List.filter.
    destruct (applies spec (key, mds)) eqn:Ea; simpl in H |- *;
      [|apply IH; assumption].
    + destruct (existsb diff_raises mds); [discriminate H|].
      unfold bind in H.
      destruct (create_run w) as (w1 & Hc & Ht & Hs). rewrite Hc in H.
      destruct (messages_create env (ticks w)) as [block|e] eqn:Eb;
        [|discriminate].
      assert (Hnot : ~ In key (map fst (List.filter (applies spec) groups))).
      { intros Hin. apply Hkey. apply in_map_iff in Hin as (g & <- & Hg).
        apply filter_In in Hg as [Hg _]. apply in_map. exact Hg. }
      destruct (JSON_parse env (clean (text_or "" block))) as [v|] eqn:Ep;
        apply IH in H as (Hs' & Hk); try assumption;
        (split; [eapply same_tables_trans; eassumption|]);
        intros k; destruct (Hk k) as [Hk1 Hk2]; split.
      * intros Hn. rewrite Hk1 by tauto.
        apply module_get_set_ne. intros ->. apply Hn. left. reflexivity.
      * intros [|i] Hi; simpl in Hi.
        -- injection Hi as <-. rewrite Nat.add_0_r.
           split; [eauto|]. unfold parsed_reply. rewrite Eb, Ep.
           rewrite (proj1 (Hk key) Hnot). apply module_get_set_eq.
        -- destruct (Hk2 i Hi) as [Hb Hv].
           rewrite Ht in Hb, Hv.
           replace (ticks w + S i) with (S (ticks w) + i) by lia.
           split; [assumption|]. rewrite Hv.
           destruct (parsed_reply env "" (S (ticks w) + i)); [reflexivity|].
           apply module_get_set_ne. intros ->. apply Hnot.
           apply list_elem_of_In. eapply list_elem_of_lookup_2. exact Hi.
      * intros Hn. apply Hk1. tauto.
      * intros [|i] Hi; simpl in Hi.
        -- injection Hi as <-. rewrite Nat.add_0_r.
           split; [eauto|]. unfold parsed_reply. rewrite Eb, Ep.
           apply (proj1 (Hk key) Hnot).
        -- destruct (Hk2 i Hi) as [Hb Hv].
           rewrite Ht in Hb, Hv.
           replace (ticks w + S i) with (S (ticks w) + i) by lia.
           split; assumption.
Qed.

Lemma apply_groups_returns (spec : SpecVersion)
    (groups : list (ModuleKey * list ClauseDiff)) :
  (forall n, exists block, messages_create env n = Returned block) ->
  (forall g, In g groups -> applies spec g = true ->
             existsb diff_raises (snd g) = false) ->
  forall updated0 w,
    exists updated w',
      apply_groups env spec groups updated0 w = (Returned updated, w').
Proof.
  intros Hup. induction groups as [|[key mds] groups IH];
    intros Hprint updated0 w; simpl.
  - unfold ret. eauto.
  - assert (Hrest : forall g, In g groups -> applies spec g = true ->
                              existsb diff_raises (snd g) = false).
    { intros g Hg. apply Hprint. right. exact Hg. }
    specialize (Hprint (key, mds) (or_introl eq_refl)).
    unfold applies in Hprint. simpl in Hprint.
    destruct (truthy (module_get key (modules spec))); simpl;
      [|apply IH; exact Hrest].
    destruct (Nat.eqb (length mds) 0); simpl; [apply IH; exact Hrest|].
    rewrite (Hprint eq_refl).
    unfold bind. destruct (create_run w) as (w1 & -> & _).
    destruct (Hup (ticks w)) as [block ->].
    destruct (JSON_parse env (clean (text_or "" block))); apply IH;
      exact Hrest.
Qed.

(** The loop raises a [TypeError], and nothing else, when the text
    generation answers and a group that is applied has a diff that cannot
    be printed. *)
Lemma apply_groups_raises (spec : SpecVersion)
    (groups : list (ModuleKey * list ClauseDiff)) :
  (forall n, exists block, messages_create env n = Returned block) ->
  (exists g, In g groups /\ applies spec g = true
             /\ existsb diff_raises (snd g) = true) ->
  forall updated0 w,
    exists w',
      apply_groups env spec groups updated0 w = (Threw TypeError, w')
      /\ same_tables w w'.
Proof.
  intros Hup. induction groups as [|[key mds] groups IH];
    intros (g & Hg & Ha & Hr) updated0 w; [destruct Hg|]. simpl.
  destruct (applies spec (key, mds)) eqn:Ea.
  - unfold applies in Ea. simpl in Ea.
    apply andb_true_iff in Ea as [-> Elen].
    apply negb_true_iff in Elen. rewrite Elen. simpl.
    destruct (existsb diff_raises mds) eqn:Eraise.
    + exists w. split; [reflexivity|apply same_tables_refl].
    + assert (Hin : In g groups).
      { destruct Hg as [<-|Hg]; [|exact Hg].
        simpl in Hr. congruence. }
      unfold bind. destruct (create_run w) as (w1 & -> & _ & Hs).
      destruct (Hup (ticks w)) as [block ->].
      destruct (JSON_parse env (clean (text_or "" block)));
        (edestruct IH as (w' & -> & Hs'); [eauto|]);
        (exists w'; split; [reflexivity|]);
        eapply same_tables_trans; eassumption.
  - assert (Hin : In g groups).
    { destruct Hg as [<-|Hg]; [congruence|exact Hg]. }
    unfold applies in Ea. simpl in Ea.
    replace (negb (truthy (module_get key (modules spec)))
             || Nat.eqb (length mds) 0) with true.
    + apply IH. eauto.
    + destruct (truthy _), (Nat.eqb _ _); simpl in *; congruence.
Qed.

End WithEnv.

(** *** The engine on concrete inputs *)

Example clean_fenced :
  clean ("```json" ++ String LF "[1, 2]" ++ String LF "```  ")%string
    = ("[1, 2]" ++ String LF "```")%string
  /\ clean ("  ```json" ++ String LF "[1, 2]" ++ String LF "```")%string
     = ("```json" ++ String LF "[1, 2]")%string
  /\ clean ("```json" ++ String LF "[1, 2]" ++ String LF "```")%string
     = "[1, 2]"
  /\ clean ("```[1, 2]```")%string = "[1, 2]".
Proof. repeat split. Qed.

Example generateModuleDiffs_fenced :
  fst (generateModuleDiffs PipelineFixtures.patching
         PipelineFixtures.regulation (JStr "security_blueprint")
         (Some (Payload (PipelineFixtures.blueprint "AES-128")))
         (PipelineFixtures.world 2))
  = Returned [PipelineFixtures.stamped_diff].
Proof. reflexivity. Qed.

Example generateModuleDiffs_not_an_array :
  fst (generateModuleDiffs PipelineFixtures.patching
         PipelineFixtures.regulation (JStr "security_blueprint")
         (Some (Payload (PipelineFixtures.blueprint "AES-128")))
         (PipelineFixtures.world 3))
  = Returned [].
Proof. reflexivity. Qed.

(** *** The claims about the diff engine *)

(** C6, as amended.  The summary of the spec is built first: when it cannot
    be, [detectAffectedModules] fails with a [TypeError] and the text
    generation is not asked; a rejection of the text generation propagates.
    Otherwise, when the response cannot be parsed as JSON, the function
    returns exactly the default [master_specification, security_blueprint]
    instead of failing, and when the response parses, the parsed value is
    returned as it is: a key that is not one of the five module keys is not
    dropped. *)
Theorem detectAffectedModules_result (env : Env) (regulation : Regulation)
    (spec : SpecVersion) (w : World) :
  (summary_raises spec = true ->
   detectAffectedModules env regulation spec w = (Threw TypeError, w))
  /\ (summary_raises spec = false ->
      (forall e,
         messages_create env (ticks w) = Threw e ->
         fst (detectAffectedModules env regulation spec w) = Threw e)
      /\ forall block,
           messages_create env (ticks w) = Returned block ->
           (JSON_parse env (clean (text_or "[]" block)) = None ->
            fst (detectAffectedModules env regulation spec w)
              = Returned (JArr [JStr "master_specification";
                                JStr "security_blueprint"]))
           /\ (forall parsed,
                 JSON_parse env (clean (text_or "[]" block)) = Some parsed ->
                 fst (detectAffectedModules env regulation spec w)
                   = Returned parsed)).
Proof.
  split; [apply detectAffectedModules_raises|].
  intros Hsum.
  destruct (detectAffectedModules_run env regulation spec w Hsum)
    as (w' & -> & _).
  split.
  - intros e ->. reflexivity.
  - intros block ->. simpl. split.
    + intros ->. reflexivity.
    + intros parsed ->. reflexivity.
Qed.

Lemma detectAffectedModules_result_witness :
  detectAffectedModules PipelineFixtures.patching
    PipelineFixtures.regulation PipelineFixtures.version_text_decisions
    (PipelineFixtures.world 1)
    = (Threw TypeError, PipelineFixtures.world 1)
  /\ fst (detectAffectedModules PipelineFixtures.prose
            PipelineFixtures.regulation PipelineFixtures.version_1
            (PipelineFixtures.world 1))
       = Returned
           (JArr [JStr "master_specification"; JStr "security_blueprint"])
  /\ fst (detectAffectedModules PipelineFixtures.patching
            PipelineFixtures.regulation PipelineFixtures.version_1
            (PipelineFixtures.world 1))
       = Returned PipelineFixtures.modules_json.
Proof.
  split; [|split].
  - apply (proj1 (detectAffectedModules_result PipelineFixtures.patching
             PipelineFixtures.regulation
             PipelineFixtures.version_text_decisions
             (PipelineFixtures.world 1))).
    reflexivity.
  - apply (proj1 (proj2 (proj2 (detectAffectedModules_result
             PipelineFixtures.prose PipelineFixtures.regulation
             PipelineFixtures.version_1 (PipelineFixtures.world 1))
             eq_refl)
             (Text "I cannot determine the affected modules.") eq_refl)).
    reflexivity.
  - apply (proj2 (proj2 (proj2 (detectAffectedModules_result
             PipelineFixtures.patching PipelineFixtures.regulation
             PipelineFixtures.version_1 (PipelineFixtures.world 1))
             eq_refl)
             (Text PipelineFixtures.modules_text) eq_refl)).
    reflexivity.
Defined.

(** C6 as stated fails: the response
    [["security_blueprint", "audit_trail"]] parses, [audit_trail] is not one
    of the five module keys, and it is part of the returned value. *)
Lemma detectAffectedModules_unknown_key_counterexample :
  fst (detectAffectedModules PipelineFixtures.patching
         PipelineFixtures.regulation PipelineFixtures.version_1
         (PipelineFixtures.world 1))
    = Returned (JArr [JStr "security_blueprint"; JStr "audit_trail"])
  /\ module_of_name "audit_trail" = None.
Proof. split; reflexivity. Qed.

(** C8.  In the record returned by [applyDiffsToSpec], every module with no
    diff in the input list is the module of the input spec; so is every
    module whose apply-result does not parse as JSON; and a module that
    differs from its input has at least one diff and an apply-result that
    parsed, which is its new payload. *)
Theorem applyDiffsToSpec_frame (env : Env) (spec : SpecVersion)
    (ds : list ClauseDiff) (w w' : World) (updated : Modules) :
  applyDiffsToSpec env spec ds w = (Returned updated, w') ->
  (forall k,
     (forall d, In d ds -> diff_module d <> Own k) ->
     module_get k updated = module_get k (modules spec))
  /\ (forall i k block,
        applied_modules spec ds !! i = Some k ->
        messages_create env (ticks w + i) = Returned block ->
        JSON_parse env (clean (text_or "" block)) = None ->
        module_get k updated = module_get k (modules spec))
  /\ (forall k,
        module_get k updated <> module_get k (modules spec) ->
        (exists d, In d ds /\ diff_module d = Own k)
        /\ exists i block,
             applied_modules spec ds !! i = Some k
             /\ messages_create env (ticks w + i) = Returned block
             /\ JSON_parse env (clean (text_or "" block))
                  = Some (module_get k updated)).
Proof.
  intros H. unfold applyDiffsToSpec in H. unfold applied_modules.
  destruct (group_diffs ds []) as [groups|] eqn:Eg; [|discriminate].
  destruct (group_diffs_spec ds [] groups Eg (List.NoDup_nil _)
              (List.Forall_nil _)) as (Hnd & _ & Hkeys).
  apply apply_groups_spec in H as (_ & Hk); [|assumption].
  set (applied := map fst (List.filter (applies spec) groups)) in *.
  assert (Hsub : forall k, In k applied ->
                           exists d, In d ds /\ diff_module d = Own k).
  { intros k Hin. unfold applied in Hin.
    apply in_map_iff in Hin as (g & <- & Hg).
    apply filter_In in Hg as [Hg _].
    destruct (proj1 (Hkeys (fst g)) (in_map fst _ _ Hg)) as [[]|Hd].
    exact Hd. }
  split; [|split].
  - intros k Hno. apply (proj1 (Hk k)). intros Hin.
    destruct (Hsub k Hin) as (d & Hd & Hdk). exact (Hno d Hd Hdk).
  - intros i k block Hi Hb Hp.
    destruct (proj2 (Hk k) i Hi) as [_ ->].
    unfold parsed_reply. rewrite Hb, Hp. reflexivity.
  - intros k Hne.
    destruct (in_dec ModuleKey_eq_dec k applied) as [Hin|Hout].
    + split; [apply Hsub; assumption|].
      apply list_elem_of_In, list_elem_of_lookup_1 in Hin as [i Hi].
      destruct (proj2 (Hk k) i Hi) as [[block Hb] Hv].
      exists i, block. split; [assumption|]. split; [assumption|].
      unfold parsed_reply in Hv. rewrite Hb in Hv.
      destruct (JSON_parse env (clean (text_or "" block))) as [v|];
        [congruence|contradiction].
    + contradiction (Hne (proj1 (Hk k) Hout)).
Qed.

Lemma applyDiffsToSpec_frame_witness :
  (* a module without a diff *)
  module_get Cost_analysis PipelineFixtures.patched_modules
    = module_get Cost_analysis (modules PipelineFixtures.version_1)
  (* a module whose apply-result is prose *)
  /\ (fst (applyDiffsToSpec PipelineFixtures.prose PipelineFixtures.version_1
             [PipelineFixtures.stamped_diff] (PipelineFixtures.world 3))
        = Returned (modules PipelineFixtures.version_1)
      /\ module_get Security_blueprint (modules PipelineFixtures.version_1)
         = module_get Security_blueprint (modules PipelineFixtures.version_1))
  (* a module that changed *)
  /\ ((exists d,
         In d [PipelineFixtures.stamped_diff]
         /\ diff_module d = Own Security_blueprint)
      /\ exists i block,
           applied_modules PipelineFixtures.version_1
             [PipelineFixtures.stamped_diff] !! i = Some Security_blueprint
           /\ messages_create PipelineFixtures.patching
                (ticks (PipelineFixtures.world 3) + i) = Returned block
           /\ JSON_parse PipelineFixtures.patching (clean (text_or "" block))
              = Some (module_get Security_blueprint
                        PipelineFixtures.patched_modules)).
Proof.
  pose proof (applyDiffsToSpec_frame PipelineFixtures.patching
                PipelineFixtures.version_1 [PipelineFixtures.stamped_diff]
                (PipelineFixtures.world 3) (PipelineFixtures.world 4)
                PipelineFixtures.patched_modules eq_refl)
    as (Hno_diff & _ & Hchanged).
  pose proof (applyDiffsToSpec_frame PipelineFixtures.prose
                PipelineFixtures.version_1 [PipelineFixtures.stamped_diff]
                (PipelineFixtures.world 3) (PipelineFixtures.world 4)
                (modules PipelineFixtures.version_1) eq_refl)
    as (_ & Hprose & _).
  split; [|split; [split|]].
  - apply Hno_diff. intros d [<-|[]]. discriminate.
  - reflexivity.
  - apply (Hprose 0 Security_blueprint
             (Text "I cannot determine the affected modules."));
      reflexivity.
  - apply Hchanged. discriminate.
Defined.

End DiffEngineFacts.

(** ** Version store *)

Module VersionStoreFacts.
Import Types VersionStore Specification.

Lemma with_status_parentId (s : SpecStatus) (v : SpecVersion) :
  parentId (with_status s v) = parentId v.
Proof. reflexivity. Qed.

Lemma SpecStatus_eqb_eq (a b : SpecStatus) :
  SpecStatus_eqb a b = true <-> a = b.
Proof. destruct a, b; simpl; split; congruence. Qed.

(** What a successful insertion does to the table. *)
Lemma insert_spec_version_cases (row : SpecVersion)
    (t t' : gmap string SpecVersion) :
  insert_spec_version row t = Some t' ->
  t !! id row = None
  /\ ((t' = <[id row := row]> t
       /\ (parentId row = None
           \/ (status row <> active
               /\ exists p, parentId row = Some p /\ is_Some (t !! p))))
      \/ (exists p parent,
            parentId row = Some p /\ status row = active
            /\ t !! p = Some parent /\ status parent = active
            /\ t' = <[id row := row]>
                      (<[p := with_status superseded parent]> t))).
Proof.
  unfold insert_spec_version. intros H.
  destruct (t !! id row) eqn:Eid; [discriminate|].
  split; [reflexivity|].
  destruct (parentId row) as [p|] eqn:Ep.
  - destruct (t !! p) as [parent|] eqn:Eparent; [|discriminate].
    destruct (SpecStatus_eqb (status row) active) eqn:Es.
    + destruct (SpecStatus_eqb (status parent) active) eqn:Esp;
        [|discriminate].
      injection H as <-. right. exists p, parent.
      apply SpecStatus_eqb_eq in Es, Esp. auto.
    + injection H as <-. left. split; [reflexivity|]. right. split.
      * intros E. apply SpecStatus_eqb_eq in E. congruence.
      * exists p. split; [reflexivity|]. rewrite Eparent. eauto.
  - injection H as <-. left. auto.
Qed.

Section Insertion.
Variables (t : gmap string SpecVersion) (c : string) (row : SpecVersion).
Hypothesis fresh : t !! c = None.
Hypothesis closed : parents_stored t.

(** [t1] is [t] with some statuses changed. *)
Variable t1 : gmap string SpecVersion.
Hypothesis same_parents :
  forall v p, parent_in t1 v p <-> parent_in t v p.
Hypothesis same_first : forall r, first_version t1 r <-> first_version t r.
Hypothesis row_parent :
  forall p, parentId row = Some p -> is_Some (t !! p).

Lemma fresh_t1 : t1 !! c = None.
Proof.
  destruct (t1 !! c) as [r|] eqn:E; [|reflexivity].
  destruct (parentId r) as [p|] eqn:Ep.
  - assert (H : parent_in t1 c p) by (exists r; auto).
    apply same_parents in H as (r' & Hr' & _). congruence.
  - assert (H : first_version t1 c) by (exists r; auto).
    apply same_first in H as (r' & Hr' & _). congruence.
Qed.

Lemma parent_in_insert (v p : string) :
  parent_in (<[c := row]> t1) v p <->
  (v = c /\ parentId row = Some p) \/ (v <> c /\ parent_in t v p).
Proof.
  unfold parent_in at 1. split.
  - intros (r & Hr & Hp). destruct (decide (c = v)) as [->|Hne].
    + rewrite lookup_insert_eq in Hr. injection Hr as <-. auto.
    + rewrite lookup_insert_ne in Hr by assumption. right.
      split; [congruence|]. apply same_parents. exists r. auto.
  - intros [[-> Hp]|[Hne H]].
    + exists row. rewrite lookup_insert_eq. auto.
    + apply same_parents in H as (r & Hr & Hp). exists r.
      rewrite lookup_insert_ne by congruence. auto.
Qed.

Lemma first_version_insert (r : string) :
  first_version (<[c := row]> t1) r <->
  (r = c /\ parentId row = None) \/ (r <> c /\ first_version t r).
Proof.
  unfold first_version at 1. split.
  - intros (x & Hx & Hp). destruct (decide (c = r)) as [->|Hne].
    + rewrite lookup_insert_eq in Hx. injection Hx as <-. auto.
    + rewrite lookup_insert_ne in Hx by assumption. right.
      split; [congruence|]. apply same_first. exists x. auto.
  - intros [[-> Hp]|[Hne H]].
    + exists row. rewrite lookup_insert_eq. auto.
    + apply same_first in H as (x & Hx & Hp). exists x.
      rewrite lookup_insert_ne by congruence. auto.
Qed.

Lemma nobody_points_to_fresh (v : string) : ~ parent_in t v c.
Proof.
  intros (r & Hr & Hp). destruct (closed v r c Hr Hp) as [x Hx]. congruence.
Qed.

Lemma ancestor_old (v a : string) :
  ancestor (<[c := row]> t1) v a -> v <> c -> ancestor t v a /\ a <> c.
Proof.
  induction 1 as [v|v p a Hp Ha IH]; intros Hv.
  - split; [constructor|assumption].
  - apply parent_in_insert in Hp as [[-> _]|[_ Hp]]; [contradiction|].
    assert (Hpc : p <> c).
    { intros ->. exact (nobody_points_to_fresh v Hp). }
    destruct (IH Hpc) as [IH1 IH2].
    split; [|assumption]. econstructor; eassumption.
Qed.

Lemma ancestor_new (a : string) :
  ancestor (<[c := row]> t1) c a ->
  a = c \/ exists p, parentId row = Some p /\ ancestor t p a /\ a <> c.
Proof.
  inversion 1 as [|v p a' Hp Ha]; subst; [auto|].
  apply parent_in_insert in Hp as [[_ Hp]|[Hne _]]; [|contradiction].
  right. exists p. split; [assumption|].
  apply ancestor_old; [assumption|].
  intros ->. destruct (row_parent c Hp) as [x Hx]. congruence.
Qed.

Lemma parents_stored_insert : parents_stored (<[c := row]> t1).
Proof.
  intros v r p Hr Hp.
  assert (Hin : parent_in (<[c := row]> t1) v p) by (exists r; auto).
  assert (Hold : forall q, is_Some (t !! q) -> is_Some (<[c := row]> t1 !! q)).
  { intros q [x Hx]. destruct (decide (c = q)) as [->|Hne]; [congruence|].
    rewrite lookup_insert_ne by assumption.
    destruct (t1 !! q) as [y|] eqn:Ey; [eauto|].
    destruct (parentId x) as [p'|] eqn:Ep'.
    - assert (H : parent_in t q p') by (exists x; auto).
      apply same_parents in H as (y & Hy & _). congruence.
    - assert (H : first_version t q) by (exists x; auto).
      apply same_first in H as (y & Hy & _). congruence. }
  apply parent_in_insert in Hin as [[-> Hrow]|[Hne (x & Hx & Hxp)]].
  - apply Hold, row_parent, Hrow.
  - apply Hold. exact (closed v x p Hx Hxp).
Qed.

End Insertion.

Lemma is_active_insert (t1 : gmap string SpecVersion) (c : string)
    (row : SpecVersion) (v : string) :
  is_active (<[c := row]> t1) v <->
  (v = c /\ status row = active) \/ (v <> c /\ is_active t1 v).
Proof.
  unfold is_active. split.
  - intros (r & Hr & Hs). destruct (decide (c = v)) as [->|Hne].
    + rewrite lookup_insert_eq in Hr. injection Hr as <-. auto.
    + rewrite lookup_insert_ne in Hr by assumption. right.
      split; [congruence|eauto].
  - intros [[-> Hs]|[Hne (r & Hr & Hs)]].
    + exists row. rewrite lookup_insert_eq. auto.
    + exists r. rewrite lookup_insert_ne by congruence. auto.
Qed.

Lemma supersede_parent_in (t : gmap string SpecVersion) (p : string)
    (parent : SpecVersion) (v q : string) :
  t !! p = Some parent ->
  parent_in (<[p := with_status superseded parent]> t) v q
  <-> parent_in t v q.
Proof.
  intros Hp. unfold parent_in. split; intros (r & Hr & Hq).
  - destruct (decide (p = v)) as [->|Hne].
    + rewrite lookup_insert_eq in Hr. injection Hr as <-. eauto.
    + rewrite lookup_insert_ne in Hr by assumption. eauto.
  - destruct (decide (p = v)) as [->|Hne].
    + exists (with_status superseded parent).
      rewrite lookup_insert_eq. split; [reflexivity|]. simpl. congruence.
    + exists r. rewrite lookup_insert_ne by assumption. auto.
Qed.

Lemma supersede_first_version (t : gmap string SpecVersion) (p : string)
    (parent : SpecVersion) (r : string) :
  t !! p = Some parent ->
  first_version (<[p := with_status superseded parent]> t) r
  <-> first_version t r.
Proof.
  intros Hp. unfold first_version. split; intros (x & Hx & Hq).
  - destruct (decide (p = r)) as [->|Hne].
    + rewrite lookup_insert_eq in Hx. injection Hx as <-. eauto.
    + rewrite lookup_insert_ne in Hx by assumption. eauto.
  - destruct (decide (p = r)) as [->|Hne].
    + exists (with_status superseded parent).
      rewrite lookup_insert_eq. split; [reflexivity|]. simpl. congruence.
    + exists x. rewrite lookup_insert_ne by assumption. auto.
Qed.

Lemma supersede_is_active (t : gmap string SpecVersion) (p : string)
    (parent : SpecVersion) (v : string) :
  is_active (<[p := with_status superseded parent]> t) v ->
  v <> p /\ is_active t v.
Proof.
  intros (r & Hr & Hs). destruct (decide (p = v)) as [->|Hne].
  - rewrite lookup_insert_eq in Hr. injection Hr as <-. discriminate Hs.
  - rewrite lookup_insert_ne in Hr by assumption.
    split; [congruence|]. exists r. auto.
Qed.

(** The insertion keeps the foreign key and the single-active invariant. *)
Lemma insert_store_ok_aux (row : SpecVersion)
    (t t1 : gmap string SpecVersion) :
  store_ok t ->
  t !! id row = None ->
  (forall v q, parent_in t1 v q <-> parent_in t v q) ->
  (forall r, first_version t1 r <-> first_version t r) ->
  (forall q, parentId row = Some q -> is_Some (t !! q)) ->
  (forall v, is_active t1 v -> is_active t v) ->
  (* an active row has no parent, or its parent is no longer active *)
  (status row = active ->
   forall q, parentId row = Some q ->
     is_active t q /\ ~ is_active t1 q) ->
  store_ok (<[id row := row]> t1).
Proof.
  intros [Hclosed Hsingle] Hfresh Hsame Hfirst Hrow Hact Hpar.
  pose proof (ancestor_old t (id row) row Hfresh Hclosed t1 Hsame) as Hold.
  pose proof (ancestor_new t (id row) row Hfresh Hclosed t1 Hsame Hrow)
    as Hnew.
  split.
  - apply (parents_stored_insert t (id row) row Hfresh Hclosed t1);
      assumption.
  - intros v w Hv Hw (r & Hr & Hvr & Hwr).
    apply is_active_insert in Hv, Hw.
    apply (first_version_insert t (id row) row Hfresh t1 Hfirst) in Hr.
    assert (Hmixed : forall x, x <> id row -> is_active t1 x ->
              status row = active ->
              ancestor (<[id row := row]> t1) x r ->
              ancestor (<[id row := row]> t1) (id row) r -> False).
    { intros x Hx Hax Hs Hxr Hcr.
      apply Hold in Hxr as [Hxr Hrc]; [|assumption].
      apply Hnew in Hcr as [->|(q & Hq & Hqr & _)]; [congruence|].
      destruct Hr as [[-> _]|[_ Hr]]; [congruence|].
      destruct (Hpar Hs q Hq) as [Hqa Hqn].
      assert (x = q).
      { apply Hsingle; [apply Hact; assumption|assumption|].
        exists r. auto. }
      subst x. contradiction. }
    destruct Hv as [[-> Hsv]|[Hv Hav]], Hw as [[-> Hsw]|[Hw Haw]];
      [reflexivity| | |].
    + exfalso. eapply Hmixed; eassumption.
    + exfalso. eapply Hmixed; eassumption.
    + apply Hold in Hvr as [Hvr Hrc]; [|assumption].
      apply Hold in Hwr as [Hwr _]; [|assumption].
      destruct Hr as [[-> _]|[_ Hr]]; [congruence|].
      apply Hsingle; [apply Hact; assumption|apply Hact; assumption|].
      exists r. auto.
Qed.

Lemma insert_spec_version_store_ok (row : SpecVersion)
    (t t' : gmap string SpecVersion) :
  store_ok t -> insert_spec_version row t = Some t' -> store_ok t'.
Proof.
  intros Hok Hins.
  apply insert_spec_version_cases in Hins as [Hfresh Hcases].
  destruct Hcases as [[-> Hplain]|(p & parent & Hp & Hs & Hparent & Hsp & ->)].
  - apply insert_store_ok_aux with (t := t); try assumption; try tauto.
    + intros q Hq. destruct Hplain as [E|(_ & q' & Hq' & Hsome)]; congruence.
    + intros Hs q Hq. destruct Hplain as [E|[E _]]; congruence.
  - apply insert_store_ok_aux with (t := t); try assumption.
    + intros; apply supersede_parent_in; assumption.
    + intros; apply supersede_first_version; assumption.
    + intros q Hq. rewrite Hp in Hq. injection Hq as <-. eauto.
    + intros v Hv. apply supersede_is_active in Hv. tauto.
    + intros _ q Hq. rewrite Hp in Hq. injection Hq as <-. split.
      * exists parent. auto.
      * intros Hq. apply supersede_is_active in Hq. tauto.
Qed.

End VersionStoreFacts.

(** ** Spec patcher *)

Module SpecPatcherFacts.
Import JS Types Runtime DiffEngine VersionStore SpecPatcher Specification.
Import PatcherSpecification.
Import DiffEngineFacts.

(** *** Strings: prefixes and runs of digits *)

Local Open Scope string_scope.
#[local] Arguments String.append !s1 s2 : simpl nomatch.

Lemma append_empty_r (s : string) : s ++ "" = s.
Proof. induction s as [|c s IH]; simpl; [reflexivity|]. rewrite IH. reflexivity. Qed.

Lemma append_assoc (a b c : string) : (a ++ b) ++ c = a ++ (b ++ c).
Proof.
  induction a as [|x a IH]; simpl; [reflexivity|]. rewrite IH. reflexivity.
Qed.

Lemma strip_prefix_app (p r : string) : strip_prefix p (p ++ r) = Some r.
Proof.
  induction p as [|c p IH]; simpl; [reflexivity|].
  rewrite Ascii.eqb_refl. exact IH.
Qed.

Lemma strip_prefix_Some (p : string) :
  forall s r, strip_prefix p s = Some r -> s = p ++ r.
Proof.
  induction p as [|c p IH]; intros s r H; simpl in H.
  - injection H as <-. reflexivity.
  - destruct s as [|c' s]; [discriminate|].
    destruct (Ascii.eqb c c') eqn:E; [|discriminate].
    apply Ascii.eqb_eq in E. subst c'. simpl. f_equal. apply IH. exact H.
Qed.

Lemma span_digits_app (d r : string) :
  List.Forall (fun c => is_digit c = true) (list_ascii_of_string d) ->
  stops r -> span_digits (d ++ r) = (d, r).
Proof.
  intros Hd Hr. induction d as [|c d IH]; simpl in *.
  - destruct r as [|c r]; simpl in *; [reflexivity|]. rewrite Hr. reflexivity.
  - inversion Hd as [|? ? Hc Hd']; subst. rewrite Hc, (IH Hd'). reflexivity.
Qed.

Lemma span_digits_spec (s : string) :
  forall d r,
    span_digits s = (d, r) ->
    s = d ++ r
    /\ List.Forall (fun c => is_digit c = true) (list_ascii_of_string d)
    /\ stops r.
Proof.
  induction s as [|c s IH]; intros d r H; simpl in H.
  - injection H as <- <-. repeat split. constructor.
  - destruct (is_digit c) eqn:Ec.
    + destruct (span_digits s) as [d' r'] eqn:E. injection H as <- <-.
      destruct (IH d' r' eq_refl) as (-> & Hd & Hr).
      repeat split; [constructor; assumption|assumption].
    + injection H as <- <-. repeat split; [constructor|exact Ec].
Qed.

Lemma digits1_app (d r : string) :
  digit_run d -> stops r -> digits1 (d ++ r) = Some (d, r).
Proof.
  intros [Hne Hd] Hr. unfold digits1. rewrite (span_digits_app d r Hd Hr).
  destruct d; [contradiction|reflexivity].
Qed.

Lemma digits1_Some (s d r : string) :
  digits1 s = Some (d, r) -> digit_run d /\ s = d ++ r /\ stops r.
Proof.
  unfold digits1. destruct (span_digits s) as [d' r'] eqn:E. intros H.
  apply span_digits_spec in E as (-> & Hd & Hr).
  destruct d' as [|c d']; [discriminate|]. injection H as <- <-.
  repeat split; [discriminate|assumption|assumption].
Qed.

Lemma digit_not_v (c : ascii) : is_digit c = true -> Ascii.eqb "v" c = false.
Proof.
  intros H. destruct (Ascii.eqb "v" c) eqn:E; [|reflexivity].
  apply Ascii.eqb_eq in E. subst c. discriminate H.
Qed.

Lemma strip_optional_v_digit (c : ascii) (s : string) :
  is_digit c = true -> strip_optional "v" (String c s) = String c s.
Proof.
  intros H. unfold strip_optional.
  change (strip_prefix "v" (String c s))
    with (if Ascii.eqb "v" c then strip_prefix "" s else None).
  rewrite (digit_not_v c H). reflexivity.
Qed.

Lemma strip_dot (s : string) : strip_prefix "." ("." ++ s) = Some s.
Proof. reflexivity. Qed.

Lemma match_version_shape (current v major minor patch : string) :
  version_shape current v major minor patch ->
  match_version current = Some (major, minor).
Proof.
  intros (Hv & Hmajor & Hminor & Hpatch & ->). unfold match_version.
  assert (Hs : strip_optional "v"
                 (v ++ major ++ "." ++ minor ++ "." ++ patch)
               = major ++ "." ++ minor ++ "." ++ patch).
  { destruct Hv as [->| ->]; [|reflexivity].
    destruct Hmajor as [Hne Hd]. destruct major as [|c major];
      [contradiction|].
    inversion Hd as [|? ? Hc _]; subst.
    apply (strip_optional_v_digit c _ Hc). }
  rewrite Hs.
  rewrite (digits1_app major _ Hmajor) by reflexivity.
  rewrite strip_dot.
  rewrite (digits1_app minor _ Hminor) by reflexivity.
  rewrite strip_dot.
  rewrite <- (append_empty_r patch) at 1.
  rewrite (digits1_app patch "" Hpatch) by exact I.
  reflexivity.
Qed.

Lemma match_version_Some (current major minor : string) :
  match_version current = Some (major, minor) ->
  exists v patch, version_shape current v major minor patch.
Proof.
  unfold match_version. intros H.
  destruct (digits1 (strip_optional "v" current)) as [[major' r1]|] eqn:E1;
    [|discriminate].
  destruct (strip_prefix "." r1) as [r1'|] eqn:P1; [|discriminate].
  destruct (digits1 r1') as [[minor' r2]|] eqn:E2; [|discriminate].
  destruct (strip_prefix "." r2) as [r2'|] eqn:P2; [|discriminate].
  destruct (digits1 r2') as [[patch [|c r3]]|] eqn:E3; [|discriminate..].
  injection H as <- <-.
  apply digits1_Some in E1 as (Hmajor & Es & _).
  apply digits1_Some in E2 as (Hminor & -> & _).
  apply digits1_Some in E3 as (Hpatch & -> & _).
  apply strip_prefix_Some in P1, P2. subst r1 r2.
  rewrite append_empty_r in *.
  assert (Hv : exists v, (v = "" \/ v = "v")
                         /\ current = v ++ strip_optional "v" current).
  { unfold strip_optional.
    destruct (strip_prefix "v" current) as [r|] eqn:Ev.
    - apply strip_prefix_Some in Ev. exists "v". auto.
    - exists "". auto. }
  destruct Hv as (v & Hv & Ec). exists v, patch.
  repeat split; try assumption; try apply Hmajor; try apply Hminor;
    try apply Hpatch.
  rewrite Ec at 1. rewrite Es. reflexivity.
Qed.

Local Close Scope string_scope.

(** *** Frames *)

Lemma same_database_refl (w : World) : same_database w w.
Proof. repeat split. Qed.

Lemma same_database_trans (w1 w2 w3 : World) :
  same_database w1 w2 -> same_database w2 w3 -> same_database w1 w3.
Proof.
  unfold same_database. intros (? & ? & ?) (? & ? & ?).
  repeat split; congruence.
Qed.

Lemma same_tables_database (w w' : World) :
  same_tables w w' -> same_database w w'.
Proof. unfold same_tables, same_database. tauto. Qed.

Lemma preserves_ret {A : Type} (R : World -> World -> Prop) (a : A) :
  (forall w, R w w) -> preserves R (ret a).
Proof. intros HR w. apply HR. Qed.

Lemma preserves_throw {A : Type} (R : World -> World -> Prop) (e : Error) :
  (forall w, R w w) -> preserves R (@throw A e).
Proof. intros HR w. apply HR. Qed.

Lemma preserves_bind {A B : Type} (R : World -> World -> Prop) (m : M A)
    (k : A -> M B) :
  (forall w1 w2 w3, R w1 w2 -> R w2 w3 -> R w1 w3) ->
  preserves R m -> (forall a, preserves R (k a)) -> preserves R (bind m k).
Proof.
  intros Ht Hm Hk w. unfold bind. specialize (Hm w).
  destruct (m w) as [[a|e] w1]; simpl in *; [|assumption].
  eapply Ht; [exact Hm|apply Hk].
Qed.

Lemma preserves_tick : preserves same_tables tick.
Proof. intros w. repeat split. Qed.

Lemma preserves_weaken {A : Type} (R R' : World -> World -> Prop) (m : M A) :
  (forall w w', R w w' -> R' w w') -> preserves R m -> preserves R' m.
Proof. intros H Hm w. apply H, Hm. Qed.

Ltac frame :=
  repeat first
    [ apply preserves_ret; intros; apply same_tables_refl
    | apply preserves_throw; intros; apply same_tables_refl
    | apply preserves_tick
    | apply preserves_bind; [exact same_tables_trans| |intros ?]
    | match goal with
      | |- preserves _ (match ?x with _ => _ end) => destruct x
      | |- preserves _ (if ?x then _ else _) => destruct x
      end ].

Section WithEnv.
Variable env : Env.

Lemma preserves_create : preserves same_tables (create env).
Proof. unfold create. frame. Qed.

Lemma preserves_detectAffectedModules (regulation : Regulation)
    (spec : SpecVersion) :
  preserves same_tables (detectAffectedModules env regulation spec).
Proof. unfold detectAffectedModules. frame. Qed.

Lemma preserves_generateModuleDiffs (regulation : Regulation)
    (moduleKey : JSON) (data : option ModuleData) :
  preserves same_tables (generateModuleDiffs env regulation moduleKey data).
Proof. unfold generateModuleDiffs. frame. Qed.

Lemma preserves_apply_groups (spec : SpecVersion)
    (groups : list (ModuleKey * list ClauseDiff)) :
  forall updated, preserves same_tables (apply_groups env spec groups updated).
Proof.
  induction groups as [|[key mds] groups IH]; intros updated; simpl.
  - frame.
  - destruct (negb _ || _); [apply IH|].
    destruct (existsb diff_raises mds);
      [apply preserves_throw; exact same_tables_refl|].
    apply preserves_bind; [exact same_tables_trans|apply preserves_create|].
    intros block. destruct (JSON_parse env _); apply IH.
Qed.

Lemma preserves_applyDiffsToSpec (spec : SpecVersion) (ds : list ClauseDiff) :
  preserves same_tables (applyDiffsToSpec env spec ds).
Proof.
  unfold applyDiffsToSpec. destruct (group_diffs ds []).
  - apply preserves_apply_groups.
  - apply preserves_throw. exact same_tables_refl.
Qed.

Lemma preserves_collect_diffs (regulation : Regulation) (spec : SpecVersion)
    (keys : list JSON) :
  forall allDiffs,
    preserves same_tables (collect_diffs env regulation spec keys allDiffs).
Proof.
  induction keys as [|key keys IH]; intros allDiffs; simpl.
  - frame.
  - destruct (modules_get (modules spec) key) as [data|e];
      [|apply preserves_throw; exact same_tables_refl].
    destruct (negb _); [apply IH|].
    apply preserves_bind;
      [exact same_tables_trans|apply preserves_generateModuleDiffs|].
    intros ds. apply IH.
Qed.

Lemma preserves_db_request : preserves same_tables (db_request env).
Proof. unfold db_request. frame. Qed.

Lemma preserves_new_uuid : preserves same_tables (new_uuid env).
Proof. unfold new_uuid. frame. Qed.

Lemma preserves_new_date : preserves same_tables (new_date env).
Proof. unfold new_date. frame. Qed.

Lemma preserves_load_spec (specVersionId : string) :
  preserves same_tables (load_spec env specVersionId).
Proof.
  unfold load_spec.
  apply preserves_bind;
    [exact same_tables_trans|apply preserves_db_request|intros up].
  apply preserves_bind; [exact same_tables_trans| |intros t].
  - intros w. apply same_tables_refl.
  - destruct (if up then _ else _); frame.
Qed.

Lemma preserves_unchanged_result (specVersionId : string)
    (spec : SpecVersion) (regulation : Regulation) (keys : list JSON) :
  preserves same_tables
    (unchanged_result env specVersionId spec regulation keys).
Proof.
  unfold unchanged_result.
  apply preserves_bind;
    [exact same_tables_trans|apply preserves_new_date|intros d].
  frame.
Qed.

Lemma preserves_publishEvent (t : Topic) (e : Event) :
  preserves same_database (publishEvent env t e).
Proof.
  intros w. unfold publishEvent, bind, tick. simpl.
  destruct (broker_up env (ticks w)); repeat split.
Qed.

(** *** The steps of [patchSpec], one by one *)

Lemma load_spec_run (specVersionId : string) (w w1 : World)
    (out : Outcome SpecVersion) :
  load_spec env specVersionId w = (out, w1) ->
  same_tables w w1
  /\ match out with
     | Returned spec => spec_versions w !! specVersionId = Some spec
     | Threw e => e = SpecNotFound specVersionId
     end.
Proof.
  intros H. split.
  - pose proof (preserves_load_spec specVersionId w) as Hp.
    rewrite H in Hp. exact Hp.
  - unfold load_spec, db_request, bind, tick, read_versions, ret in H.
    simpl in H.
    destruct (db_up env (ticks w)).
    + destruct (spec_versions w !! specVersionId) as [row|] eqn:E;
        injection H as <- _; [reflexivity|reflexivity].
    + injection H as <- _. reflexivity.
Qed.

Lemma insert_version_run (row : SpecVersion) (w w1 : World)
    (out : Outcome unit) :
  insert_version env row w = (out, w1) ->
  spec_diffs w1 = spec_diffs w
  /\ regulation_impact_log w1 = regulation_impact_log w
  /\ published w1 = published w
  /\ match out with
     | Returned _ =>
         insert_spec_version row (spec_versions w) = Some (spec_versions w1)
     | Threw e => e = InsertFailed /\ spec_versions w1 = spec_versions w
     end.
Proof.
  unfold insert_version, db_request, bind, tick, read_versions,
    write_versions, ret, throw.
  simpl. intros H.
  destruct (db_up env (ticks w)).
  - destruct (insert_spec_version row (spec_versions w)) as [t'|] eqn:E;
      injection H as <- <-; simpl; auto.
  - injection H as <- <-; simpl; auto.
Qed.

Lemma insert_diffs_run (rows : list DiffRow) (w : World) :
  exists w1,
    insert_diffs env rows w = (Returned tt, w1)
    /\ spec_versions w1 = spec_versions w
    /\ regulation_impact_log w1 = regulation_impact_log w
    /\ published w1 = published w
    /\ (spec_diffs w1 = spec_diffs w ++ rows \/ spec_diffs w1 = spec_diffs w).
Proof.
  unfold insert_diffs, db_request, bind, tick, append_diffs, ret. simpl.
  destruct (db_up env (ticks w)); eexists; (split; [reflexivity|]);
    simpl; auto.
Qed.

Lemma insert_impact_run (row : ImpactRow) (w : World) :
  exists w1,
    insert_impact env row w = (Returned tt, w1)
    /\ spec_versions w1 = spec_versions w
    /\ spec_diffs w1 = spec_diffs w
    /\ published w1 = published w
    /\ (regulation_impact_log w1 = regulation_impact_log w ++ [row]
        \/ regulation_impact_log w1 = regulation_impact_log w).
Proof.
  unfold insert_impact, db_request, bind, tick, append_impact, ret. simpl.
  destruct (db_up env (ticks w)); eexists; (split; [reflexivity|]);
    simpl; auto.
Qed.

(** *** A run of [patchSpec]

    Either the four tables are left as they were (the run threw before the
    insertion, or returned early), or the run went through step 5. *)
Lemma patchSpec_run (input : PatchSpecInput) (w w' : World)
    (out : Outcome SpecPatchResult) :
  patchSpec env input w = (out, w') ->
  (same_tables w w'
   /\ forall r, out = Returned r ->
        exists loaded,
          spec_versions w !! in_specVersionId input = Some loaded
          /\ newVersionId r = in_specVersionId input
          /\ newVersionNumber r = versionNumber loaded
          /\ diffs r = [])
  \/ exists loaded detected keys allDiffs updated newId w1 w2 w3 w4,
       load_spec env (in_specVersionId input) w = (Returned loaded, w1)
       /\ detectAffectedModules env (in_regulation input) loaded w1
            = (Returned detected, w2)
       /\ affected_of detected = SomeModules keys
       /\ collect_diffs env (in_regulation input) loaded keys [] w2
            = (Returned allDiffs, w3)
       /\ allDiffs <> []
       /\ applyDiffsToSpec env loaded allDiffs w3 = (Returned updated, w4)
       /\ insert_spec_version
            (new_version_row env (in_workspaceId input)
               (in_specVersionId input) loaded (in_regulation input)
               allDiffs updated newId)
            (spec_versions w) = Some (spec_versions w')
       /\ (spec_diffs w'
             = spec_diffs w
                 ++ map (diff_row (in_specVersionId input) newId) allDiffs
           \/ spec_diffs w' = spec_diffs w)
       /\ (regulation_impact_log w'
             = regulation_impact_log w
                 ++ [impact_row (in_workspaceId input)
                       (in_specVersionId input) (in_regulation input)
                       keys allDiffs newId]
           \/ regulation_impact_log w' = regulation_impact_log w)
       /\ forall r, out = Returned r ->
            newVersionId r = newId
            /\ newVersionNumber r = (versionNumber loaded + 1)%Z
            /\ diffs r = allDiffs
            /\ affectedModules r = keys.
Proof.
  intros H. unfold patchSpec in H. unfold bind in H at 1.
  destruct (load_spec env (in_specVersionId input) w) as [[loaded|e] w1]
    eqn:Eload.
  2:{ injection H as <- <-. left.
      apply load_spec_run in Eload as [Hs _]. split; [exact Hs|].
      intros r Hr. discriminate Hr. }
  pose proof (load_spec_run _ _ _ _ Eload) as [Hs1 Hloaded].
  unfold bind in H at 1.
  destruct (detectAffectedModules env (in_regulation input) loaded w1)
    as [[detected|e] w2] eqn:Edetect.
  2:{ injection H as <- <-. left. split.
      - eapply same_tables_trans; [exact Hs1|].
        pose proof (preserves_detectAffectedModules
                      (in_regulation input) loaded w1) as Hp.
        rewrite Edetect in Hp. exact Hp.
      - intros r Hr. discriminate Hr. }
  assert (Hs2 : same_tables w w2).
  { eapply same_tables_trans; [exact Hs1|].
    pose proof (preserves_detectAffectedModules
                  (in_regulation input) loaded w1) as Hp.
    rewrite Edetect in Hp. exact Hp. }
  assert (Hearly : forall keys0 out0 w0,
            unchanged_result env (in_specVersionId input) loaded
              (in_regulation input) keys0 w2 = (out0, w0) ->
            same_tables w w0
            /\ forall r, out0 = Returned r ->
                 exists loaded0,
                   spec_versions w !! in_specVersionId input = Some loaded0
                   /\ newVersionId r = in_specVersionId input
                   /\ newVersionNumber r = versionNumber loaded0
                   /\ diffs r = []).
  { intros keys0 out0 w0 Hu. split.
    - eapply same_tables_trans; [exact Hs2|].
      pose proof (preserves_unchanged_result (in_specVersionId input) loaded
                    (in_regulation input) keys0 w2) as Hp.
      rewrite Hu in Hp. exact Hp.
    - intros r ->. unfold unchanged_result, new_date, bind, tick, ret in Hu.
      simpl in Hu. injection Hu as <- _. exists loaded. auto. }
  destruct (affected_of detected) as [|keys|] eqn:Eaff.
  - left. eapply Hearly. exact H.
  - destruct (existsb unprintable keys) eqn:Eprint.
    { injection H as <- <-. left. split; [exact Hs2|].
      intros r Hr. discriminate Hr. }
    unfold bind in H at 1.
    destruct (collect_diffs env (in_regulation input) loaded keys [] w2)
      as [[allDiffs|e] w3] eqn:Ecollect.
    2:{ injection H as <- <-. left. split.
        - eapply same_tables_trans; [exact Hs2|].
          pose proof (preserves_collect_diffs (in_regulation input) loaded
                        keys [] w2) as Hp.
          rewrite Ecollect in Hp. exact Hp.
        - intros r Hr. discriminate Hr. }
    assert (Hs3 : same_tables w w3).
    { eapply same_tables_trans; [exact Hs2|].
      pose proof (preserves_collect_diffs (in_regulation input) loaded
                    keys [] w2) as Hp.
      rewrite Ecollect in Hp. exact Hp. }
    destruct (Nat.eqb (length allDiffs) 0) eqn:Elen.
    + left. apply Nat.eqb_eq in Elen.
      destruct allDiffs; [|discriminate Elen].
      pose proof (preserves_unchanged_result (in_specVersionId input) loaded
                    (in_regulation input) keys w3) as Hp.
      rewrite H in Hp. simpl in Hp. split.
      * eapply same_tables_trans; [exact Hs3|exact Hp].
      * intros r ->.
        unfold unchanged_result, new_date, bind, tick, ret in H.
        simpl in H. injection H as <- _. exists loaded. auto.
    + assert (Hne : allDiffs <> []).
      { intros ->. discriminate Elen. }
      unfold bind in H at 1.
      destruct (applyDiffsToSpec env loaded allDiffs w3)
        as [[updated|e] w4] eqn:Eapply.
      2:{ injection H as <- <-. left. split.
          - eapply same_tables_trans; [exact Hs3|].
            pose proof (preserves_applyDiffsToSpec loaded allDiffs w3) as Hp.
            rewrite Eapply in Hp. exact Hp.
          - intros r Hr. discriminate Hr. }
      assert (Hs4 : same_tables w w4).
      { eapply same_tables_trans; [exact Hs3|].
        pose proof (preserves_applyDiffsToSpec loaded allDiffs w3) as Hp.
        rewrite Eapply in Hp. exact Hp. }
      unfold bind in H at 1.
      destruct (new_uuid env w4) as [[newId|e] w5] eqn:Euuid.
      2:{ unfold new_uuid, bind, tick, ret in Euuid. discriminate Euuid. }
      assert (Hs5 : same_tables w w5).
      { eapply same_tables_trans; [exact Hs4|].
        pose proof (preserves_new_uuid w4) as Hp.
        rewrite Euuid in Hp. exact Hp. }
      unfold bind in H at 1.
      destruct (insert_version env _ w5) as [[[]|e] w6] eqn:Einsert.
      2:{ injection H as <- <-. left.
          apply insert_version_run in Einsert as (Hd & Hl & Hp & _ & Hv).
          destruct Hs5 as (Hv5 & Hd5 & Hl5 & Hp5).
          split; [repeat split; congruence|].
          intros r Hr. discriminate Hr. }
      apply insert_version_run in Einsert as (Hd6 & Hl6 & Hp6 & Hins).
      destruct Hs5 as (Hv5 & Hd5 & Hl5 & Hp5). rewrite Hv5 in Hins.
      unfold bind in H at 1.
      destruct (insert_diffs_run
                  (map (diff_row (in_specVersionId input) newId) allDiffs) w6)
        as (w7 & E7 & Hv7 & Hl7 & Hp7 & Hd7).
      rewrite E7 in H.
      unfold bind in H at 1.
      destruct (insert_impact_run
                  (impact_row (in_workspaceId input) (in_specVersionId input)
                     (in_regulation input) keys allDiffs newId) w7)
        as (w8 & E8 & Hv8 & Hd8 & Hp8 & Hl8).
      rewrite E8 in H.
      right.
      exists loaded, detected, keys, allDiffs, updated, newId, w1, w2, w3, w4.
      do 6 (split; [first [assumption|reflexivity]|]).
      (* the rest only publishes *)
      match type of H with
      | ?rest w8 = _ =>
          assert (Hrest : preserves same_database rest)
      end.
      { apply preserves_bind; [exact same_database_trans| |intros ?].
        { eapply preserves_weaken;
            [exact same_tables_database|apply preserves_new_uuid]. }
        apply preserves_bind;
          [exact same_database_trans|apply preserves_publishEvent|intros ?].
        apply preserves_bind; [exact same_database_trans| |intros ?].
        { eapply preserves_weaken;
            [exact same_tables_database|apply preserves_new_uuid]. }
        apply preserves_bind;
          [exact same_database_trans|apply preserves_publishEvent|intros ?].
        apply preserves_bind; [exact same_database_trans| |intros ?].
        { eapply preserves_weaken;
            [exact same_tables_database|apply preserves_new_date]. }
        apply preserves_ret. exact same_database_refl. }
      specialize (Hrest w8). rewrite H in Hrest. simpl in Hrest.
      destruct Hrest as (Hv' & Hd' & Hl').
      split; [congruence|].
      split; [destruct Hd7 as [Hd7|Hd7]; [left|right]; congruence|].
      split; [destruct Hl8 as [Hl8|Hl8]; [left|right]; congruence|].
      intros r ->.
      unfold bind in H.
      repeat match type of H with
      | context [match ?m ?x with _ => _ end] =>
          destruct (m x) as [[?|?] ?]; try discriminate H
      end.
      unfold ret in H. injection H as <- _. auto.
  - injection H as <- <-. left. split; [exact Hs2|].
    intros r Hr. discriminate Hr.
Qed.


(** Step 3 concatenates what is generated for the keys that have a
    payload, in order; nothing else is looked at. *)
Lemma collect_diffs_spec (regulation : Regulation) (spec : SpecVersion)
    (keys : list JSON) :
  forall allDiffs w collected w',
    collect_diffs env regulation spec keys allDiffs w
      = (Returned collected, w') ->
    collected =
      allDiffs
        ++ generated_from env regulation (ticks w)
             (List.filter (has_payload spec) keys).
Proof.
  induction keys as [|key keys IH]; intros allDiffs w collected w' H;
    simpl in H.
  - injection H as <- _. simpl. rewrite app_nil_r. reflexivity.
  - simpl List.filter. unfold has_payload at 1.
    destruct (modules_get (modules spec) key) as [data|e] eqn:Eget;
      [|discriminate H].
    apply modules_get_Returned in Eget.
    destruct (data_truthy data); simpl in H.
    + unfold bind in H.
      destruct (generateModuleDiffs_run env regulation key data w Eget)
        as (w1 & Hg & Hticks & _).
      rewrite Hg in H.
      destruct (messages_create env (ticks w)) as [block|e] eqn:Eb;
        [|discriminate].
      apply IH in H. rewrite H, Hticks, <- app_assoc. simpl.
      unfold generated, parsed_reply. rewrite Eb. reflexivity.
    + apply IH in H. exact H.
Qed.

(** A loop that returns has converted every key. *)
Lemma collect_diffs_printable (regulation : Regulation) (spec : SpecVersion)
    (keys : list JSON) :
  forall allDiffs w collected w',
    collect_diffs env regulation spec keys allDiffs w
      = (Returned collected, w') ->
    existsb unprintable keys = false.
Proof.
  induction keys as [|key keys IH]; intros allDiffs w collected w' H;
    simpl in H; [reflexivity|].
  destruct (modules_get (modules spec) key) as [data|e] eqn:Eget;
    [|discriminate H].
  apply modules_get_Returned in Eget. simpl. rewrite Eget. simpl.
  destruct (data_truthy data); simpl in H.
  - unfold bind in H.
    destruct (generateModuleDiffs env regulation key data w)
      as [[ds|e] w1]; [|discriminate H].
    eapply IH. exact H.
  - eapply IH. exact H.
Qed.

(** Steps 5 to 8, one external interaction after the other: the run is
    determined by the answers of the database and of the broker. *)
Lemma patchSpec_steps (input : PatchSpecInput) (w w' : World)
    (out : Outcome SpecPatchResult) :
  patchSpec env input w = (out, w') ->
  (same_tables w w'
   /\ forall r, out = Returned r -> diffs r = [])
  \/ exists loaded keys allDiffs updated t,
       spec_versions w !! in_specVersionId input = Some loaded
       /\ allDiffs <> []
       /\ let newId := uuidv4 env t in
          let row :=
            new_version_row env (in_workspaceId input)
              (in_specVersionId input) loaded (in_regulation input)
              allDiffs updated newId in
          match (if db_up env (S t)
                 then insert_spec_version row (spec_versions w)
                 else None) with
          | None => out = Threw InsertFailed /\ same_tables w w'
          | Some t' =>
              spec_versions w' = t'
              /\ spec_diffs w'
                   = (if db_up env (2 + t)
                      then spec_diffs w
                             ++ map (diff_row (in_specVersionId input) newId)
                                  allDiffs
                      else spec_diffs w)
              /\ regulation_impact_log w'
                   = (if db_up env (3 + t)
                      then regulation_impact_log w
                             ++ [impact_row (in_workspaceId input)
                                   (in_specVersionId input)
                                   (in_regulation input) keys allDiffs newId]
                      else regulation_impact_log w)
              /\ if broker_up env (5 + t) then
                   if broker_up env (7 + t) then
                     published w'
                       = published w
                           ++ [updated_event input (uuidv4 env (4 + t)) newId
                                 keys allDiffs;
                               pr_requested_event input (uuidv4 env (6 + t))
                                 newId keys allDiffs (new_label env loaded)]
                     /\ out = Returned
                                {| specVersionId := in_specVersionId input;
                                   newVersionId := newId;
                                   newVersionNumber :=
                                     (versionNumber loaded + 1)%Z;
                                   diffs := allDiffs;
                                   affectedModules := keys;
                                   res_regulationTrigger :=
                                     trigger_of (in_regulation input);
                                   patchedAt := now env (8 + t) |}
                     /\ ticks w' = 9 + t
                   else
                     published w'
                       = published w
                           ++ [updated_event input (uuidv4 env (4 + t)) newId
                                 keys allDiffs]
                     /\ out = Threw PublishFailed
                 else published w' = published w /\ out = Threw PublishFailed
          end.
Proof.
  intros H. pose proof H as H0.
  apply patchSpec_run in H0
    as [[Hs Hr]
       |(loaded & detected & keys & allDiffs & updated & newId & w1 & w2
           & w3 & w4 & El & Ed & Ea & Ec & Hne & Eapply & _)].
  { left. split; [exact Hs|]. intros r Hout.
    destruct (Hr r Hout) as (_ & _ & _ & _ & Hd). exact Hd. }
  right. exists loaded, keys, allDiffs, updated, (ticks w4).
  pose proof (load_spec_run _ _ _ _ El) as [Hs1 Hl].
  split; [exact Hl|]. split; [exact Hne|].
  assert (Hs4 : same_tables w w4).
  { eapply same_tables_trans; [exact Hs1|].
    eapply same_tables_trans.
    { pose proof (preserves_detectAffectedModules
                    (in_regulation input) loaded w1) as Hp.
      rewrite Ed in Hp. exact Hp. }
    eapply same_tables_trans.
    { pose proof (preserves_collect_diffs (in_regulation input) loaded
                    keys [] w2) as Hp.
      rewrite Ec in Hp. exact Hp. }
    pose proof (preserves_applyDiffsToSpec loaded allDiffs w3) as Hp.
    rewrite Eapply in Hp. exact Hp. }
  destruct Hs4 as (Hv4 & Hd4 & Hl4 & Hp4).
  unfold patchSpec in H. unfold bind in H at 1. rewrite El in H.
  unfold bind in H at 1. rewrite Ed, Ea in H.
  rewrite (collect_diffs_printable _ _ _ _ _ _ _ Ec) in H.
  unfold bind in H at 1. rewrite Ec in H.
  destruct allDiffs as [|d0 ds0]; [contradiction|].
  cbn [length Nat.eqb] in H.
  unfold bind in H at 1. rewrite Eapply in H.
  cbv zeta.
  rewrite <- Hv4, <- Hd4, <- Hl4, <- Hp4.
  unfold new_uuid, insert_version, insert_diffs, insert_impact, publishEvent,
    new_date, db_request, bind, tick, read_versions, write_versions,
    append_diffs, append_impact, append_event, ret, throw in H.
  cbn [ticks spec_versions spec_diffs regulation_impact_log published] in H.
  change (2 + ticks w4) with (S (S (ticks w4))).
  change (3 + ticks w4) with (S (S (S (ticks w4)))).
  change (4 + ticks w4) with (S (S (S (S (ticks w4))))).
  change (5 + ticks w4) with (S (S (S (S (S (ticks w4)))))).
  change (6 + ticks w4) with (S (S (S (S (S (S (ticks w4))))))).
  change (7 + ticks w4) with (S (S (S (S (S (S (S (ticks w4)))))))).
  change (8 + ticks w4) with (S (S (S (S (S (S (S (S (ticks w4))))))))).
  change (9 + ticks w4) with (S (S (S (S (S (S (S (S (S (ticks w4)))))))))).
  destruct (db_up env (S (ticks w4))).
  2:{ injection H as <- <-. split; [reflexivity|].
      repeat split; cbn; congruence. }
  destruct (insert_spec_version _ (spec_versions w4)) as [t'|].
  2:{ injection H as <- <-. split; [reflexivity|].
      repeat split; cbn; congruence. }
  cbn [ticks spec_versions spec_diffs regulation_impact_log published] in H.
  destruct (db_up env (S (S (ticks w4))));
    cbn [ticks spec_versions spec_diffs regulation_impact_log published] in H;
  destruct (db_up env (S (S (S (ticks w4)))));
    cbn [ticks spec_versions spec_diffs regulation_impact_log published] in H;
  (destruct (broker_up env (S (S (S (S (S (ticks w4)))))));
     cbn [ticks spec_versions spec_diffs regulation_impact_log published]
       in H;
     [destruct (broker_up env (S (S (S (S (S (S (S (ticks w4)))))))));
        cbn [ticks spec_versions spec_diffs regulation_impact_log published]
          in H|]);
  injection H as <- <-;
  cbn [ticks spec_versions spec_diffs regulation_impact_log published];
  rewrite <- ?app_assoc; repeat split; reflexivity.
Qed.

(** A classifier answer with a key that cannot be converted to a string
    makes the run fail at [join], before any diff is generated. *)
Lemma patchSpec_unprintable_key (input : PatchSpecInput) (w w1 w2 : World)
    (loaded : SpecVersion) (keys : list JSON) :
  load_spec env (in_specVersionId input) w = (Returned loaded, w1) ->
  detectAffectedModules env (in_regulation input) loaded w1
    = (Returned (JArr keys), w2) ->
  existsb unprintable keys = true ->
  patchSpec env input w = (Threw TypeError, w2).
Proof.
  intros Hload Hdetect Hkeys.
  unfold patchSpec. unfold bind at 1. rewrite Hload.
  unfold bind at 1. rewrite Hdetect.
  destruct keys as [|key keys]; [discriminate Hkeys|].
  cbn [affected_of]. rewrite Hkeys. reflexivity.
Qed.

End WithEnv.

(** A diff keeps the [before] of the generated element it is made from. *)
Lemma get_set_other (k k' : string) (v : JSON) (o : Props) :
  k <> k' -> get k (set k' v o) = get k o.
Proof.
  intros Hne. induction o as [|[k0 v0] o IH]; simpl.
  - destruct (String.eqb k k') eqn:E; [|reflexivity].
    apply String.eqb_eq in E. contradiction.
  - destruct (String.eqb k' k0) eqn:E'; simpl.
    + apply String.eqb_eq in E'. subst k0.
      destruct (String.eqb k k') eqn:E; [|reflexivity].
      apply String.eqb_eq in E. contradiction.
    + destruct (String.eqb k k0); [reflexivity|exact IH].
Qed.


(** The store of the examples satisfies the invariant. *)
Lemma fixture_store_ok (n : nat) :
  store_ok (spec_versions (PipelineFixtures.world n)).
Proof.
  simpl. split.
  - intros v row p Hv Hp. apply lookup_singleton_Some in Hv as [<- <-].
    discriminate Hp.
  - intros v w (rv & Hv & _) (rw & Hw & _) _.
    apply lookup_singleton_Some in Hv as [<- _].
    apply lookup_singleton_Some in Hw as [<- _]. reflexivity.
Qed.

(** *** The claims about the patcher *)

(** C1.  With the insertion into [spec_versions] modelled from the
    specification, every run of [patchSpec] keeps the invariant that each
    lineage has at most one [active] version (together with the foreign key
    of [parent_id]), whether the run returns or throws.  A run either leaves
    the table as it was, or inserts one child, [active], whose parent is the
    loaded version, and in the same step turns that parent from [active] to
    [superseded]. *)
Theorem patchSpec_single_active (env : Env) (input : PatchSpecInput)
    (w : World) :
  store_ok (spec_versions w) ->
  store_ok (spec_versions (snd (patchSpec env input w)))
  /\ (spec_versions (snd (patchSpec env input w)) = spec_versions w
      \/ exists parent child,
           spec_versions w !! in_specVersionId input = Some parent
           /\ status parent = active
           /\ spec_versions w !! id child = None
           /\ status child = active
           /\ parentId child = Some (in_specVersionId input)
           /\ spec_versions (snd (patchSpec env input w))
                = <[id child := child]>
                    (<[in_specVersionId input
                         := with_status superseded parent]>
                       (spec_versions w))).
Proof.
  intros Hok.
  destruct (patchSpec env input w) as [out w'] eqn:Erun. simpl.
  apply patchSpec_run in Erun
    as [[(Hv & _) _]
       |(loaded & detected & keys & allDiffs & updated & newId & w1 & w2
           & w3 & w4 & _ & _ & _ & _ & _ & _ & Hins & _)].
  - rewrite Hv. auto.
  - split.
    + eapply VersionStoreFacts.insert_spec_version_store_ok; eassumption.
    + right.
      apply VersionStoreFacts.insert_spec_version_cases in Hins
        as [Hfresh [[_ [Hp|[Hs _]]]
                   |(p & parent & Hp & Hs & Hparent & Hsp & ->)]];
        [discriminate Hp|contradiction Hs; reflexivity|].
      simpl in Hp. injection Hp as <-.
      eexists parent, _. repeat split; try eassumption; reflexivity.
Qed.

Lemma patchSpec_single_active_witness :
  store_ok
    (spec_versions
       (snd (patchSpec PipelineFixtures.patching PipelineFixtures.input
               (PipelineFixtures.world 0)))).
Proof.
  apply (patchSpec_single_active PipelineFixtures.patching
           PipelineFixtures.input (PipelineFixtures.world 0)
           (fixture_store_ok 0)).
Defined.

(** *** The patcher on concrete inputs *)

Example bumpMinorVersion_labels :
  map (bumpMinorVersion PipelineFixtures.patching)
    ["v1.2.3"; "1.2.3"; "v1.09.7"; "v01.2.3"; "V1.2.3"; "v1.2"; "v1.2.3-rc1";
     ""; "v1.9007199254740991.0"]
  = ["v1.3.0"; "v1.3.0"; "v1.10.0"; "v01.3.0"; "V1.2.3.1"; "v1.2.1";
     "v1.2.3-rc1.1"; ".1"; "v1.9007199254740992.0"].
Proof. reflexivity. Qed.

Example affected_of_shapes :
  map affected_of
    [JArr []; JArr [JStr "cost_analysis"]; JStr ""; JStr "cost_analysis";
     JNull; JObj [("length", JNum 0%float)]; JObj []; JNum 0%float]
  = [NoModules; SomeModules [JStr "cost_analysis"]; NoModules; NotAnArray;
     NotAnArray; NoModules; NotAnArray; NotAnArray].
Proof. reflexivity. Qed.

Example value_at_paths :
  value_at "encryptionControls[0].algorithm"
    (PipelineFixtures.blueprint "AES-128") = Some (JStr "AES-128")
  /\ value_at "encryptionControls[1].algorithm"
       (PipelineFixtures.blueprint "AES-128") = None
  /\ value_at "encryptionControls"
       (PipelineFixtures.blueprint "AES-128")
     = Some (JArr [JObj [("algorithm", JStr "AES-128")]]).
Proof. repeat split. Qed.

(** A run of the examples that goes through every step. *)
Example patchSpec_patching_run :
  let run := patchSpec PipelineFixtures.patching PipelineFixtures.input
               (PipelineFixtures.world 0) in
  option_map newVersionId
    (match fst run with Returned r => Some r | Threw _ => None end)
    = Some "uuid-4"
  /\ option_map status (spec_versions (snd run) !! "spec-1")
       = Some superseded
  /\ option_map status (spec_versions (snd run) !! "uuid-4") = Some active
  /\ option_map versionLabel (spec_versions (snd run) !! "uuid-4")
       = Some (Some "v1.3.0").
Proof. vm_compute. repeat split. Qed.

(** C5, as amended.  The version created at step 5 has the loaded version's
    id as [parentId], its [versionNumber] plus one, the status [active], and
    the label [bumpMinorVersion] gives for the loaded label (["v1.0.0"] when
    there is none).  [bumpMinorVersion] increments the minor component and
    resets patch to 0, writing the result with a leading [v], when the label
    is [MAJOR.MINOR.PATCH] with or without a leading [v] (the increment is
    exact for a minor component below 2^53); it appends [".1"] to every other
    label, and never fails. *)
Theorem patchSpec_new_version (env : Env) :
  (forall input w r w',
     patchSpec env input w = (Returned r, w') ->
     diffs r <> [] ->
     exists loaded child,
       spec_versions w !! in_specVersionId input = Some loaded
       /\ spec_versions w' !! newVersionId r = Some child
       /\ parentId child = Some (in_specVersionId input)
       /\ versionNumber child = (versionNumber loaded + 1)%Z
       /\ newVersionNumber r = (versionNumber loaded + 1)%Z
       /\ status child = active
       /\ versionLabel child
            = Some (bumpMinorVersion env
                      match versionLabel loaded with
                      | Some l => l
                      | None => "v1.0.0"
                      end))
  /\ (forall current v major minor patch,
        version_shape current v major minor patch ->
        (parseInt minor < 2 ^ 53)%N ->
        bumpMinorVersion env current
          = ("v" ++ major ++ "." ++ decimal (parseInt minor + 1) ++ ".0")
              %string)
  /\ (forall current,
        (forall v major minor patch,
           ~ version_shape current v major minor patch) ->
        bumpMinorVersion env current = (current ++ ".1")%string).
Proof.
  split; [|split].
  - intros input w r w' Hrun Hdiffs.
    pose proof (load_spec_run env (in_specVersionId input) w) as Hload.
    apply patchSpec_run in Hrun
      as [[_ Hr]
         |(loaded & detected & keys & allDiffs & updated & newId & w1 & w2
             & w3 & w4 & El & _ & _ & _ & _ & _ & Hins & _ & _ & Hr)].
    + destruct (Hr r eq_refl) as (loaded & _ & _ & _ & Hd). contradiction.
    + destruct (Hr r eq_refl) as (-> & Hn & _ & _).
      apply Hload in El as [_ El].
      apply VersionStoreFacts.insert_spec_version_cases in Hins
        as [_ [[-> _]|(p & parent & _ & _ & _ & _ & ->)]];
        eexists loaded, _; (split; [exact El|]);
        (split; [apply lookup_insert_eq|]); simpl; auto.
  - intros current v major minor patch Hshape Hminor.
    unfold bumpMinorVersion, successor_text.
    rewrite (match_version_shape _ _ _ _ _ Hshape).
    apply N.ltb_lt in Hminor. rewrite Hminor. reflexivity.
  - intros current Hno. unfold bumpMinorVersion.
    destruct (match_version current) as [[major minor]|] eqn:E;
      [|reflexivity].
    apply match_version_Some in E as (v & patch & Hshape).
    contradiction (Hno v major minor patch Hshape).
Qed.

Lemma patchSpec_new_version_witness :
  (let run := patchSpec PipelineFixtures.patching PipelineFixtures.input
                (PipelineFixtures.world 0) in
   exists loaded child,
     spec_versions (PipelineFixtures.world 0) !! "spec-1" = Some loaded
     /\ spec_versions (snd run) !! "uuid-4" = Some child
     /\ parentId child = Some "spec-1"
     /\ versionNumber child = (versionNumber loaded + 1)%Z
     /\ 2%Z = (versionNumber loaded + 1)%Z
     /\ status child = active
     /\ versionLabel child
          = Some (bumpMinorVersion PipelineFixtures.patching
                    match versionLabel loaded with
                    | Some l => l
                    | None => "v1.0.0"
                    end))
  /\ bumpMinorVersion PipelineFixtures.patching "v1.2.0" = "v1.3.0"
  /\ bumpMinorVersion PipelineFixtures.patching "release-7" = "release-7.1".
Proof.
  destruct (patchSpec_new_version PipelineFixtures.patching)
    as (Hrow & Hshape & Hother).
  split; [|split].
  - intros run.
    pose (r := match fst run with
               | Returned r => r
               | Threw _ =>
                   {| specVersionId := ""; newVersionId := "";
                      newVersionNumber := 0; diffs := [];
                      affectedModules := []; res_regulationTrigger := "";
                      patchedAt := "" |}
               end).
    assert (Hrun : patchSpec PipelineFixtures.patching PipelineFixtures.input
                     (PipelineFixtures.world 0) = (Returned r, snd run))
      by (vm_compute; reflexivity).
    assert (Hdiffs : diffs r <> []) by (vm_compute; discriminate).
    exact (Hrow PipelineFixtures.input (PipelineFixtures.world 0) r (snd run)
             Hrun Hdiffs).
  - apply (Hshape "v1.2.0" "v" "1" "2" "0").
    + repeat split; try discriminate; auto; repeat constructor.
    + reflexivity.
  - apply (Hother "release-7"). intros v major minor patch Hs.
    apply match_version_shape in Hs. discriminate Hs.
Defined.

(** C5 as stated fails: ["1.2.0"] has no leading [v], so it is not of the
    shape [vMAJOR.MINOR.PATCH]; its new label is ["v1.3.0"], which is not
    the old label followed by a suffix. *)
Lemma bumpMinorVersion_optional_v_counterexample :
  strip_prefix "v" "1.2.0" = None
  /\ bumpMinorVersion PipelineFixtures.patching "1.2.0" = "v1.3.0"
  /\ strip_prefix "1.2.0" "v1.3.0" = None.
Proof. repeat split. Qed.

(** C3, as amended.  When the classifier returns an empty module set, or
    the aggregate diff list is empty, [patchSpec] terminates successfully and
    writes nothing: no version, no diff and no impact-log row is inserted and
    no event is published.  Its result names the loaded version as
    [newVersionId], with the loaded version number and no diffs.  A
    classifier answer with a key that cannot be converted to a string is no
    such run: it fails with a [TypeError] when the keys are joined, before
    any diff is generated. *)
Theorem patchSpec_no_change (env : Env) (input : PatchSpecInput)
    (w w1 w2 : World) (loaded : SpecVersion) (detected : JSON) :
  load_spec env (in_specVersionId input) w = (Returned loaded, w1) ->
  detectAffectedModules env (in_regulation input) loaded w1
    = (Returned detected, w2) ->
  (affected_of detected = NoModules
   \/ (exists keys w3,
         affected_of detected = SomeModules keys
         /\ collect_diffs env (in_regulation input) loaded keys [] w2
              = (Returned [], w3)) ->
   exists r w',
     patchSpec env input w = (Returned r, w')
     /\ same_tables w w'
     /\ newVersionId r = in_specVersionId input
     /\ newVersionNumber r = versionNumber loaded
     /\ diffs r = [])
  /\ (forall keys,
        detected = JArr keys -> existsb unprintable keys = true ->
        patchSpec env input w = (Threw TypeError, w2)
        /\ same_tables w w2).
Proof.
  intros Hload Hdetect. split.
  2:{ intros keys -> Hkeys.
      split; [exact (patchSpec_unprintable_key env _ _ _ _ _ _ Hload Hdetect
                       Hkeys)|].
      eapply same_tables_trans.
      - pose proof (preserves_load_spec env (in_specVersionId input) w) as Hp.
        rewrite Hload in Hp. exact Hp.
      - pose proof (preserves_detectAffectedModules env (in_regulation input)
                      loaded w1) as Hp.
        rewrite Hdetect in Hp. exact Hp. }
  intros Hempty.
  assert (Hrun : exists r w', patchSpec env input w = (Returned r, w')).
  { unfold patchSpec. unfold bind at 1. rewrite Hload.
    unfold bind at 1. rewrite Hdetect.
    destruct Hempty as [->|(keys & w3 & -> & Hcollect)].
    - unfold unchanged_result, new_date, bind, tick, ret. simpl. eauto.
    - rewrite (collect_diffs_printable env _ _ _ _ _ _ _ Hcollect).
      unfold bind at 1. rewrite Hcollect. simpl.
      unfold unchanged_result, new_date, bind, tick, ret. simpl. eauto. }
  destruct Hrun as (r & w' & Hrun). exists r, w'.
  split; [exact Hrun|].
  pose proof (load_spec_run env _ _ _ _ Hload) as [_ Hl].
  apply patchSpec_run in Hrun
    as [[Hs Hr]
       |(loaded' & detected' & keys & allDiffs & updated & newId & w1' & w2'
           & w3' & w4' & El & Ed & Ea & Ec & Hne & _)].
  - split; [exact Hs|].
    destruct (Hr r eq_refl) as (loaded' & Hl' & Hid & Hn & Hd).
    rewrite Hl in Hl'. injection Hl' as <-. auto.
  - exfalso. rewrite Hload in El. injection El as <- <-.
    rewrite Hdetect in Ed. injection Ed as <- <-.
    destruct Hempty as [E|(keys' & w3 & E & Hcollect)];
      rewrite E in Ea; [discriminate|].
    injection Ea as <-. rewrite Hcollect in Ec. injection Ec as <- _.
    contradiction.
Qed.

Lemma patchSpec_no_change_witness :
  (exists r w',
     patchSpec PipelineFixtures.no_module PipelineFixtures.input
       (PipelineFixtures.world 0) = (Returned r, w')
     /\ same_tables (PipelineFixtures.world 0) w'
     /\ newVersionId r = "spec-1"
     /\ newVersionNumber r = 1%Z
     /\ diffs r = [])
  /\ patchSpec PatcherFixtures.unprintable_key PipelineFixtures.input
       (PipelineFixtures.world 0)
     = (Threw TypeError, PipelineFixtures.world 2)
  /\ same_tables (PipelineFixtures.world 0) (PipelineFixtures.world 2).
Proof.
  split.
  - apply (proj1 (patchSpec_no_change PipelineFixtures.no_module
             PipelineFixtures.input (PipelineFixtures.world 0)
             (PipelineFixtures.world 1) (PipelineFixtures.world 2)
             PipelineFixtures.version_1 (JArr []) eq_refl eq_refl)).
    left. reflexivity.
  - apply (proj2 (patchSpec_no_change PatcherFixtures.unprintable_key
             PipelineFixtures.input (PipelineFixtures.world 0)
             (PipelineFixtures.world 1) (PipelineFixtures.world 2)
             PipelineFixtures.version_1
             (JArr [JObj [("toString", JNum 1)]]) eq_refl eq_refl)
             [JObj [("toString", JNum 1)]] eq_refl eq_refl).
Defined.

(** C3 as stated fails: the classifier returns the empty array, the run
    returns, and the impact log is still empty: no row with the status
    [no_change] was written, and the [newVersionId] of the result is the id
    of the loaded version, not [null]. *)
Lemma patchSpec_no_change_log_counterexample :
  let run := patchSpec PipelineFixtures.no_module PipelineFixtures.input
               (PipelineFixtures.world 0) in
  fst (detectAffectedModules PipelineFixtures.no_module
         PipelineFixtures.regulation PipelineFixtures.version_1
         (PipelineFixtures.world 1)) = Returned (JArr [])
  /\ option_map newVersionId
       (match fst run with Returned r => Some r | Threw _ => None end)
     = Some "spec-1"
  /\ regulation_impact_log (snd run) = []
  /\ ~ exists row,
         In row (regulation_impact_log (snd run))
         /\ impact_status row = no_change.
Proof.
  vm_compute. repeat split. intros (row & [] & _).
Qed.




End SpecPatcherFacts.

Module CosineFacts.
Import ImpactAnalyzer.

Lemma SFmul_comm prec emax (x y : spec_float) :
  SFmul prec emax x y = SFmul prec emax y x.
Proof.
  destruct x as [sx|sx| |sx mx ex], y as [sy|sy| |sy my ey]; simpl;
    try reflexivity; try (rewrite xorb_comm; reflexivity).
  rewrite xorb_comm, Pos.mul_comm, Z.add_comm. reflexivity.
Qed.

Lemma mul_comm (x y : float) : (x * y = y * x)%float.
Proof.
  rewrite <- (SF2Prim_Prim2SF (x * y)), <- (SF2Prim_Prim2SF (y * x)).
  rewrite !mul_spec. unfold SF64mul. rewrite SFmul_comm. reflexivity.
Qed.

Lemma cosine_loop_swap (a : list float) : forall b dot normA normB,
  cosine_loop b a dot normB normA =
    let '(d, nA, nB) := cosine_loop a b dot normA normB in (d, nB, nA).
Proof.
  induction a as [|x a IH]; intros [|y b] dot normA normB; simpl;
    try reflexivity.
  rewrite (mul_comm y x). apply IH.
Qed.

(** X1.  [cosineSimilarity] does not depend on the order of its two vectors:
    the two calls return the same binary64 value, bit for bit, also when the
    lengths differ or a norm is zero. *)
Theorem cosineSimilarity_symmetric (a b : list float) :
  cosineSimilarity a b = cosineSimilarity b a.
Proof.
  unfold cosineSimilarity. rewrite (Nat.eqb_sym (length b)).
  destruct (Nat.eqb (length a) (length b)); simpl; [|reflexivity].
  rewrite (cosine_loop_swap a b).
  destruct (cosine_loop a b 0 0 0) as [[d nA] nB].
  rewrite (mul_comm (sqrt nB)). reflexivity.
Qed.
End CosineFacts.

Module TextFacts.
Import JS.
#[local] Arguments String.append !s1 s2 : simpl nomatch.
Local Open Scope string_scope.

Lemma list_ascii_app (a b : string) :
  list_ascii_of_string (a ++ b)
    = (list_ascii_of_string a ++ list_ascii_of_string b)%list.
Proof. induction a as [|c a IH]; simpl; [reflexivity|]. now rewrite IH. Qed.

Lemma string_of_list_app (a b : list ascii) :
  string_of_list_ascii (a ++ b)
    = (string_of_list_ascii a ++ string_of_list_ascii b)%string.
Proof. induction a as [|c a IH]; simpl; [reflexivity|]. now rewrite IH. Qed.

Lemma reverse_app (a b : string) :
  reverse (a ++ b) = (reverse b ++ reverse a)%string.
Proof.
  unfold reverse. rewrite list_ascii_app, rev_app_distr.
  apply string_of_list_app.
Qed.

Lemma reverse_involutive (s : string) : reverse (reverse s) = s.
Proof.
  unfold reverse.
  rewrite list_ascii_of_string_of_list_ascii, rev_involutive.
  apply string_of_list_ascii_of_string.
Qed.

Lemma length_reverse (s : string) : String.length (reverse s) = String.length s.
Proof.
  unfold reverse.
  rewrite <- (string_of_list_ascii_of_string s) at 2.
  generalize (list_ascii_of_string s). intros l.
  assert (H : forall l, String.length (string_of_list_ascii l) = length l).
  { induction l0 as [|c l0 IH]; simpl; [reflexivity|]. now rewrite IH. }
  rewrite !H. apply length_rev.
Qed.

Lemma length_append (a b : string) :
  String.length (a ++ b) = String.length a + String.length b.
Proof. induction a as [|c a IH]; simpl; [reflexivity|]. now rewrite IH. Qed.

(** [skip_spaces] returns its argument or a proper suffix of it. *)
Lemma skip_spaces_suffix (backwards : bool) (n : nat) :
  forall s,
    String.length s <= n ->
    skip_spaces backwards s = s
    \/ exists p, p <> "" /\ s = p ++ skip_spaces backwards s.
Proof.
  induction n as [|n IH]; intros s Hn.
  { destruct s; [left; reflexivity|simpl in Hn; lia]. }
  destruct s as [|c1 s1]; [left; reflexivity|].
  simpl in Hn. cbn [skip_spaces].
  destruct (is_space c1).
  { right. destruct (IH s1 ltac:(lia)) as [E|(p & _ & E)].
    - exists (String c1 ""). split; [discriminate|]. rewrite E. reflexivity.
    - exists (String c1 p). split; [discriminate|].
      simpl. rewrite <- E. reflexivity. }
  destruct s1 as [|c2 s2]; [left; reflexivity|]. simpl in Hn.
  destruct (if backwards then is_space2 c2 c1 else is_space2 c1 c2).
  { right. destruct (IH s2 ltac:(lia)) as [E|(p & _ & E)].
    - exists (String c1 (String c2 "")). split; [discriminate|].
      rewrite E. reflexivity.
    - exists (String c1 (String c2 p)). split; [discriminate|].
      simpl. rewrite <- E. reflexivity. }
  destruct s2 as [|c3 s3]; [left; reflexivity|]. simpl in Hn.
  destruct (if backwards then is_space3 c3 c2 c1 else is_space3 c1 c2 c3);
    [|left; reflexivity].
  right. destruct (IH s3 ltac:(lia)) as [E|(p & _ & E)].
  - exists (String c1 (String c2 (String c3 ""))). split; [discriminate|].
    rewrite E. reflexivity.
  - exists (String c1 (String c2 (String c3 p))). split; [discriminate|].
    simpl. rewrite <- E. reflexivity.
Qed.

Lemma skip_spaces_length (backwards : bool) (s : string) :
  skip_spaces backwards s = s
  \/ String.length (skip_spaces backwards s) < String.length s.
Proof.
  destruct (skip_spaces_suffix backwards (String.length s) s (le_n _))
    as [E|(p & Hp & E)]; [left; exact E|].
  right. rewrite E at 2. rewrite length_append.
  destruct p; [contradiction|]. simpl. lia.
Qed.

Lemma skip_spaces_le (backwards : bool) (s : string) :
  String.length (skip_spaces backwards s) <= String.length s.
Proof. destruct (skip_spaces_length backwards s) as [->|H]; lia. Qed.

(** A string that [trim] leaves alone neither starts nor ends with white
    space. *)
Lemma trim_fixed (s : string) :
  trim s = s ->
  skip_spaces false s = s /\ skip_spaces true (reverse s) = reverse s.
Proof.
  intros H. unfold trim, trim_end, trim_start in H.
  assert (Hlen : String.length (skip_spaces true (reverse (skip_spaces false s)))
                 = String.length s).
  { rewrite <- (length_reverse (skip_spaces true _)), H. reflexivity. }
  pose proof (skip_spaces_le true (reverse (skip_spaces false s))) as H1.
  rewrite length_reverse in H1.
  destruct (skip_spaces_length false s) as [E|E]; [|lia].
  split; [exact E|]. rewrite E in Hlen.
  destruct (skip_spaces_length true (reverse s)) as [E'|E']; [exact E'|].
  rewrite length_reverse in E'. lia.
Qed.

(** A string that [skip_spaces] leaves alone does not start with a white
    space of one byte. *)
Lemma skip_spaces_fixed_first (backwards : bool) (c : ascii) (s : string) :
  skip_spaces backwards (String c s) = String c s -> is_space c = false.
Proof.
  intros H. destruct (is_space c) eqn:E; [|reflexivity].
  cbn [skip_spaces] in H. rewrite E in H.
  pose proof (skip_spaces_le backwards s) as Hle. rewrite H in Hle.
  simpl in Hle. lia.
Qed.

Lemma strip_prefix_char (a c : ascii) (s : string) :
  strip_prefix (String a "") (String c s)
    = if Ascii.eqb a c then Some s else None.
Proof. reflexivity. Qed.

Lemma strip_optional_LF (c : ascii) (s : string) :
  is_space c = false ->
  strip_optional (String LF "") (String c s) = String c s.
Proof.
  intros H. unfold strip_optional. rewrite strip_prefix_char.
  destruct (Ascii.eqb LF c) eqn:E; [|reflexivity].
  apply Ascii.eqb_eq in E. subst c. discriminate H.
Qed.

Lemma skip_spaces_fixed_LF (backwards : bool) (s : string) :
  skip_spaces backwards s = s -> strip_optional (String LF "") s = s.
Proof.
  intros H. destruct s as [|c s]; [reflexivity|].
  apply strip_optional_LF. exact (skip_spaces_fixed_first _ _ _ H).
Qed.

Lemma strip_prefix_append (p r : string) : strip_prefix p (p ++ r) = Some r.
Proof.
  induction p as [|c p IH]; simpl; [destruct r; reflexivity|].
  rewrite Ascii.eqb_refl. exact IH.
Qed.

Lemma append_assoc' (a b c : string) : (a ++ b) ++ c = a ++ (b ++ c).
Proof. induction a as [|x a IH]; simpl; [reflexivity|]. now rewrite IH. Qed.

(** The closing fence, with or without the line break before it. *)
Lemma strip_closing_fence_fenced (nl body : string) :
  nl = "" \/ nl = String LF "" ->
  trim body = body ->
  strip_closing_fence (body ++ nl ++ "```") = body.
Proof.
  intros Hnl Hb. apply trim_fixed in Hb as [_ Hb].
  unfold strip_closing_fence.
  rewrite !reverse_app.
  change (reverse "```") with "```".
  rewrite append_assoc'. rewrite strip_prefix_append.
  destruct Hnl as [-> | ->].
  - change (reverse "") with "". simpl.
    rewrite (skip_spaces_fixed_LF _ _ Hb). apply reverse_involutive.
  - change (reverse (String LF "")) with (String LF "").
    unfold strip_optional. rewrite strip_prefix_append.
    apply reverse_involutive.
Qed.

Lemma strip_prefix_cons (a b : ascii) (p s : string) :
  strip_prefix (String a p) (String b s)
    = if Ascii.eqb a b then strip_prefix p s else None.
Proof. reflexivity. Qed.

(** What follows a text that does not start with [p] cannot complete [p]
    when it starts with a character foreign to [p]. *)
Lemma strip_prefix_None_app (p : string) :
  forall body c rest,
    strip_prefix p body = None ->
    ~ In c (list_ascii_of_string p) ->
    strip_prefix p (body ++ String c rest) = None.
Proof.
  induction p as [|a p IH]; intros body c rest Hb Hc.
  - destruct body; discriminate Hb.
  - destruct body as [|b body].
    + change ("" ++ String c rest) with (String c rest).
      rewrite strip_prefix_cons.
      destruct (Ascii.eqb a c) eqn:E; [|reflexivity].
      apply Ascii.eqb_eq in E. subst c. contradiction Hc. left. reflexivity.
    + change (String b body ++ String c rest)
        with (String b (body ++ String c rest)).
      rewrite strip_prefix_cons in *.
      destruct (Ascii.eqb a b); [|reflexivity].
      apply IH; [exact Hb|]. intros Hin. apply Hc. right. exact Hin.
Qed.

Lemma strip_opening_fence_fenced (lang nl : string) (b : ascii)
    (body : string) (c : ascii) (rest : string) :
  lang = "" \/ lang = "json" ->
  nl = "" \/ nl = String LF "" ->
  is_space b = false ->
  ~ In c (list_ascii_of_string "json") ->
  (lang = "" -> nl = "" -> strip_prefix "json" (String b body) = None) ->
  strip_opening_fence ("```" ++ lang ++ nl ++ String b body ++ String c rest)
    = String b body ++ String c rest.
Proof.
  intros Hlang Hnl Hb Hcj Hjson.
  unfold strip_opening_fence. rewrite strip_prefix_append.
  assert (Hlf : strip_optional (String LF "") (String b body ++ String c rest)
                = String b body ++ String c rest).
  { change (String b body ++ String c rest)
      with (String b (body ++ String c rest)).
    apply strip_optional_LF. exact Hb. }
  assert (Hrest : strip_optional (String LF "")
                    (nl ++ String b body ++ String c rest)
                  = String b body ++ String c rest).
  { destruct Hnl as [-> | ->]; [exact Hlf|].
    unfold strip_optional. rewrite strip_prefix_append. reflexivity. }
  destruct Hlang as [-> | ->].
  - change ("" ++ nl ++ String b body ++ String c rest)
      with (nl ++ String b body ++ String c rest).
    destruct Hnl as [-> | ->].
    + change ("" ++ String b body ++ String c rest)
        with (String b body ++ String c rest).
      unfold strip_optional at 2.
      rewrite (strip_prefix_None_app "json" (String b body) c rest
                 (Hjson eq_refl eq_refl) Hcj).
      exact Hlf.
    + replace (strip_optional "json"
                 (String LF "" ++ String b body ++ String c rest))
        with (String LF "" ++ String b body ++ String c rest)
        by reflexivity.
      exact Hrest.
  - unfold strip_optional at 2. rewrite strip_prefix_append. exact Hrest.
Qed.

(** Skipping the white space twice is skipping it once. *)
Lemma skip_spaces_idempotent_aux (backwards : bool) (n : nat) :
  forall s,
    String.length s <= n ->
    skip_spaces backwards (skip_spaces backwards s) = skip_spaces backwards s.
Proof.
  induction n as [|n IH]; intros s Hn.
  { destruct s; [reflexivity|simpl in Hn; lia]. }
  destruct s as [|c1 s1]; [reflexivity|].
  simpl in Hn. cbn [skip_spaces].
  destruct (is_space c1) eqn:E1; [apply IH; lia|].
  destruct s1 as [|c2 s2].
  { cbn [skip_spaces]. rewrite E1. reflexivity. }
  simpl in Hn.
  destruct (if backwards then is_space2 c2 c1 else is_space2 c1 c2) eqn:E2;
    [apply IH; lia|].
  destruct s2 as [|c3 s3].
  { cbn [skip_spaces]. rewrite E1, E2. reflexivity. }
  simpl in Hn.
  destruct (if backwards then is_space3 c3 c2 c1 else is_space3 c1 c2 c3)
    eqn:E3; [apply IH; lia|].
  cbn [skip_spaces]. rewrite E1, E2, E3. reflexivity.
Qed.

Lemma skip_spaces_idempotent (backwards : bool) (s : string) :
  skip_spaces backwards (skip_spaces backwards s) = skip_spaces backwards s.
Proof. exact (skip_spaces_idempotent_aux backwards _ s (le_n _)). Qed.

(** A string that starts with no white space has no prefix that does. *)
Lemma skip_spaces_fixed_prefix (backwards : bool) (v q : string) :
  skip_spaces backwards (v ++ q) = v ++ q ->
  skip_spaces backwards v = v.
Proof.
  intros H.
  assert (Hle : forall s, String.length (skip_spaces backwards s)
                          <= String.length s)
    by apply skip_spaces_le.
  destruct v as [|c1 v]; [reflexivity|].
  change (String c1 v ++ q) with (String c1 (v ++ q)) in H.
  pose proof (skip_spaces_fixed_first _ _ _ H) as E1.
  cbn [skip_spaces] in H |- *. rewrite E1 in H |- *.
  destruct v as [|c2 v]; [reflexivity|].
  change (String c2 v ++ q) with (String c2 (v ++ q)) in H.
  cbv beta iota in H.
  destruct (if backwards then is_space2 c2 c1 else is_space2 c1 c2) eqn:E2.
  { specialize (Hle (v ++ q)). rewrite H in Hle. simpl in Hle. lia. }
  destruct v as [|c3 v]; [reflexivity|].
  change (String c3 v ++ q) with (String c3 (v ++ q)) in H.
  cbv beta iota in H.
  destruct (if backwards then is_space3 c3 c2 c1 else is_space3 c1 c2 c3)
    eqn:E3; [|reflexivity].
  specialize (Hle (v ++ q)). rewrite H in Hle. simpl in Hle. lia.
Qed.

(** [trim] leaves a trimmed text alone. *)
Lemma trim_idempotent (s : string) : trim (trim s) = trim s.
Proof.
  unfold trim, trim_end, trim_start.
  set (u := skip_spaces false s).
  set (t := skip_spaces true (reverse u)).
  assert (Hu : skip_spaces false u = u) by apply skip_spaces_idempotent.
  assert (Ht : skip_spaces true t = t) by apply skip_spaces_idempotent.
  assert (Hprefix : exists q, u = reverse t ++ q).
  { destruct (skip_spaces_suffix true _ (reverse u) (le_n _))
      as [E|(p & _ & E)]; fold t in E.
    - exists "". rewrite E, reverse_involutive.
      clear. induction u as [|c u IH]; simpl; [reflexivity|].
      rewrite <- IH. reflexivity.
    - exists (reverse p).
      rewrite <- (reverse_involutive u), E, reverse_app. reflexivity. }
  destruct Hprefix as [q Hq].
  assert (Hv : skip_spaces false (reverse t) = reverse t).
  { apply (skip_spaces_fixed_prefix false (reverse t) q).
    rewrite <- Hq. exact Hu. }
  rewrite Hv, reverse_involutive, Ht. reflexivity.
Qed.

Lemma in_skip_spaces (backwards : bool) (x : ascii) (s : string) :
  In x (list_ascii_of_string (skip_spaces backwards s)) ->
  In x (list_ascii_of_string s).
Proof.
  intros H.
  destruct (skip_spaces_suffix backwards _ s (le_n _)) as [E|(p & _ & E)].
  - rewrite <- E. exact H.
  - rewrite E, list_ascii_app. apply in_or_app. right. exact H.
Qed.

(** The no-break space and the line separator are trimmed like the space;
    a character of four bytes is two code units. *)
Example trim_unicode :
  trim (String (ascii_of_nat 194) (String (ascii_of_nat 160) "")
          ++ "[1, 2] "
          ++ String (ascii_of_nat 226)
               (String (ascii_of_nat 128) (String (ascii_of_nat 168) "")))
    = "[1, 2]"
  /\ length
       (code_units
          (String (ascii_of_nat 240)
             (String (ascii_of_nat 159)
                (String (ascii_of_nat 152) (String (ascii_of_nat 128) "")))))
     = 2.
Proof. split; reflexivity. Qed.

(** X2.  A reply that is one Markdown code fence is cleaned to its body: the
    opening fence with an optional [json] tag, the closing fence and the
    line break next to each are removed, when the body has no white space at
    its ends (and, after a bare fence with no line break, does not itself
    start with [json]). *)
Theorem clean_fenced_reply (lang nl1 nl2 body : string) :
  lang = "" \/ lang = "json" ->
  nl1 = "" \/ nl1 = String LF "" ->
  nl2 = "" \/ nl2 = String LF "" ->
  trim body = body ->
  (lang = "" -> nl1 = "" -> strip_prefix "json" body = None) ->
  clean ("```" ++ lang ++ nl1 ++ body ++ nl2 ++ "```") = body.
Proof.
  intros Hlang Hnl1 Hnl2 Hb Hjson.
  destruct body as [|b body].
  { destruct Hlang as [-> | ->], Hnl1 as [-> | ->], Hnl2 as [-> | ->];
      reflexivity. }
  pose proof (trim_fixed _ Hb) as [Hs _].
  apply skip_spaces_fixed_first in Hs.
  unfold clean.
  assert (Ho : strip_opening_fence
                 ("```" ++ lang ++ nl1 ++ String b body ++ nl2 ++ "```")
               = String b body ++ nl2 ++ "```").
  { destruct Hnl2 as [-> | ->].
    - apply strip_opening_fence_fenced; try assumption.
      vm_compute. intuition discriminate.
    - apply (strip_opening_fence_fenced lang nl1 b body LF "```");
        try assumption.
      vm_compute. intuition discriminate. }
  rewrite Ho, (strip_closing_fence_fenced nl2 _ Hnl2 Hb). exact Hb.
Qed.

Lemma clean_fenced_reply_witness :
  clean ("```json" ++ String LF "" ++ "[1, 2]" ++ String LF "" ++ "```")
    = "[1, 2]".
Proof.
  apply (clean_fenced_reply "json" (String LF "") (String LF "") "[1, 2]");
    first [right; reflexivity | reflexivity | discriminate].
Defined.
End TextFacts.

Module VersionLabelFacts.
Import JS Types Runtime SpecPatcher Specification.
#[local] Arguments String.append !s1 s2 : simpl nomatch.
Local Open Scope string_scope.

Lemma parse_digits_acc (d : Decimal.uint) : forall acc,
  parse_digits (N.pos acc) (NilEmpty.string_of_uint d)
    = N.pos (Pos.of_uint_acc d acc).
Proof.
  induction d; intros acc; cbn [NilEmpty.string_of_uint parse_digits
                                  Pos.of_uint_acc];
    [reflexivity|..];
    match goal with
    | |- parse_digits ?a _ = _ =>
        match goal with
        | |- _ = N.pos (Pos.of_uint_acc _ ?b) =>
            replace a with (N.pos b) by (vm_compute digit_value; lia)
        end
    end; apply IHd.
Qed.

Lemma parse_digits_uint (d : Decimal.uint) :
  parse_digits 0 (NilEmpty.string_of_uint d) = N.of_uint d.
Proof.
  unfold N.of_uint.
  induction d; cbn [NilEmpty.string_of_uint parse_digits Pos.of_uint];
    [reflexivity|exact IHd|..]; apply parse_digits_acc.
Qed.

(** Reading back a printed number. *)
Lemma parseInt_decimal (n : N) : parseInt (decimal n) = n.
Proof.
  unfold parseInt, decimal. rewrite parse_digits_uint.
  apply DecimalN.Unsigned.of_to.
Qed.

Lemma string_of_uint_digits (d : Decimal.uint) :
  List.Forall (fun c => is_digit c = true)
    (list_ascii_of_string (NilEmpty.string_of_uint d)).
Proof.
  induction d; cbn [NilEmpty.string_of_uint list_ascii_of_string];
    constructor; solve [reflexivity | assumption].
Qed.

Lemma decimal_digit_run (n : N) : digit_run (decimal n).
Proof.
  split; [|apply string_of_uint_digits].
  intros E. pose proof (parseInt_decimal n) as H. rewrite E in H.
  cbn in H. subst n. discriminate E.
Qed.

Section WithEnv.
Variable env : Env.

Lemma bumpMinorVersion_shape (current v major minor patch : string) :
  version_shape current v major minor patch ->
  (parseInt minor < 2 ^ 53)%N ->
  bumpMinorVersion env current
    = "v" ++ major ++ "." ++ decimal (parseInt minor + 1) ++ ".0".
Proof.
  intros Hshape Hminor. unfold bumpMinorVersion, successor_text.
  rewrite (SpecPatcherFacts.match_version_shape _ _ _ _ _ Hshape).
  apply N.ltb_lt in Hminor. rewrite Hminor. reflexivity.
Qed.

End WithEnv.

(** X3.  Successive patches count in the minor component: a label of the shape
    [MAJOR.MINOR.PATCH] bumped [n + 1] times is [vMAJOR.(MINOR + n + 1).0],
    as long as the increments stay exact. *)
Theorem bumpMinorVersion_iterated (env : Env)
    (current v major minor patch : string) (n : nat) :
  version_shape current v major minor patch ->
  (parseInt minor + N.of_nat n < 2 ^ 53)%N ->
  Nat.iter (S n) (bumpMinorVersion env) current
    = "v" ++ major ++ "." ++ decimal (parseInt minor + N.of_nat (S n))
        ++ ".0".
Proof.
  intros Hshape. induction n as [|n IH]; intros Hn.
  - cbn [Nat.iter nat_rect]. rewrite (bumpMinorVersion_shape env _ _ _ _ _ Hshape).
    + reflexivity.
    + lia.
  - change (Nat.iter (S (S n)) (bumpMinorVersion env) current)
      with (bumpMinorVersion env (Nat.iter (S n) (bumpMinorVersion env) current)).
    rewrite IH by lia.
    rewrite (bumpMinorVersion_shape env _ "v" major
               (decimal (parseInt minor + N.of_nat (S n))) "0").
    + rewrite parseInt_decimal.
      replace (parseInt minor + N.of_nat (S n) + 1)%N
        with (parseInt minor + N.of_nat (S (S n)))%N by lia.
      reflexivity.
    + destruct Hshape as (_ & Hmajor & _).
      split; [right; reflexivity|]. split; [exact Hmajor|].
      split; [apply decimal_digit_run|].
      split; [|reflexivity].
      split; [discriminate|]. repeat constructor.
    + rewrite parseInt_decimal. lia.
Qed.

Lemma bumpMinorVersion_iterated_witness :
  Nat.iter 3 (bumpMinorVersion PipelineFixtures.patching) "1.9.4" = "v1.12.0".
Proof.
  apply (bumpMinorVersion_iterated PipelineFixtures.patching "1.9.4" ""
           "1" "9" "4" 2).
  - split; [left; reflexivity|].
    repeat split; try discriminate; repeat constructor.
  - vm_compute. reflexivity.
Defined.

End VersionLabelFacts.

Module PatcherRunFacts.
Import JS Types Runtime DiffEngine VersionStore SpecPatcher Specification.
Import PatcherSpecification.
Import DiffEngineFacts SpecPatcherFacts.

Section WithEnv.
Variable env : Env.

Lemma get_set_same (k : string) (v : JSON) (o : Props) :
  get k (set k v o) = Some v.
Proof.
  induction o as [|[k' v'] o IH]; simpl.
  - rewrite String.eqb_refl. reflexivity.
  - destruct (String.eqb k k') eqn:E; simpl; rewrite ?E, ?String.eqb_refl;
      [reflexivity|exact IH].
Qed.

Lemma stamp_fields (regulation : Regulation) (moduleKey element : JSON) :
  get "module" (stamp regulation moduleKey element) = Some moduleKey
  /\ get "regulationTrigger" (stamp regulation moduleKey element)
       = Some (JStr (trigger_of regulation)).
Proof.
  unfold stamp. split.
  - rewrite get_set_other by discriminate. apply get_set_same.
  - apply get_set_same.
Qed.

Lemma in_generated_from (regulation : Regulation) (keys : list JSON)
    (d : ClauseDiff) : forall n,
  In d (generated_from env regulation n keys) ->
  exists key element, In key keys /\ d = stamp regulation key element.
Proof.
  induction keys as [|key keys IH]; intros n Hin; simpl in Hin;
    [contradiction|].
  apply in_app_or in Hin as [Hin|Hin].
  - unfold generated in Hin.
    destruct (parsed_reply env "[]" n) as [[| | | |elements|]|];
      try contradiction.
    apply in_map_iff in Hin as (element & <- & _).
    exists key, element. split; [left|]; reflexivity.
  - destruct (IH _ Hin) as (key' & element & Hk & ->).
    exists key', element. split; [right; exact Hk|reflexivity].
Qed.

End WithEnv.

(** X4.  A successful patch publishes exactly two events, [spec.updated] and then
    [spec.pr_requested].  Both carry the diffs and the affected modules of
    the result; the second one names the new version, the loaded version as
    the previous one, and the label stored in the new row. *)
Theorem patchSpec_publishes (env : Env) (input : PatchSpecInput)
    (w w' : World) (r : SpecPatchResult) :
  patchSpec env input w = (Returned r, w') ->
  diffs r <> [] ->
  exists updatedId requestId child label,
    spec_versions w' !! newVersionId r = Some child
    /\ versionLabel child = Some label
    /\ published w'
         = published w
             ++ [updated_event input updatedId (newVersionId r)
                   (affectedModules r) (diffs r);
                 pr_requested_event input requestId (newVersionId r)
                   (affectedModules r) (diffs r) label].
Proof.
  intros Hrun Hdiffs.
  apply patchSpec_steps in Hrun
    as [[_ Hr]|(loaded & keys & allDiffs & updated & t & Hl & Hne & Hrun)].
  { contradiction (Hdiffs (Hr r eq_refl)). }
  cbv zeta in Hrun.
  destruct (if db_up env (S t) then _ else None) as [t'|] eqn:Eins;
    [|destruct Hrun as [Hout _]; discriminate Hout].
  destruct Hrun as (Hv & _ & _ & Hpub).
  destruct (broker_up env (5 + t));
    [|destruct Hpub as [_ Hout]; discriminate Hout].
  destruct (broker_up env (7 + t));
    [|destruct Hpub as [_ Hout]; discriminate Hout].
  destruct Hpub as (Hpub & Hout & _). injection Hout as ->.
  cbn [newVersionId affectedModules diffs].
  destruct (db_up env (S t)); [|discriminate Eins].
  exists (uuidv4 env (4 + t)), (uuidv4 env (6 + t)).
  eexists _, (new_label env loaded).
  split; [|split; [|exact Hpub]].
  - rewrite Hv.
    apply VersionStoreFacts.insert_spec_version_cases in Eins
      as [_ [[-> _]|(p & parent & _ & _ & _ & _ & ->)]];
      apply lookup_insert_eq.
  - reflexivity.
Qed.


(** X6.  An unknown version, or a database that does not answer the first
    request: the run fails after that one request, before any text is
    generated, and writes nothing. *)
Theorem patchSpec_unknown_version (env : Env) (input : PatchSpecInput)
    (w : World) :
  spec_versions w !! in_specVersionId input = None
  \/ db_up env (ticks w) = false ->
  exists w',
    patchSpec env input w
      = (Threw (SpecNotFound (in_specVersionId input)), w')
    /\ same_tables w w'
    /\ ticks w' = S (ticks w).
Proof.
  intros Hmissing. eexists.
  unfold patchSpec, load_spec, db_request, bind, tick, read_versions, ret,
    throw.
  cbn [ticks spec_versions].
  assert (E : (if db_up env (ticks w)
               then spec_versions w !! in_specVersionId input
               else None) = None).
  { destruct Hmissing as [-> | ->]; [destruct (db_up env _)|]; reflexivity. }
  rewrite E. split; [reflexivity|]. split; [|reflexivity].
  repeat split.
Qed.

(** X7.  Every diff of a patch is stamped by the patcher itself: its [module] is
    one of the keys the classifier returned, for which the loaded version has
    a payload, and its [regulationTrigger] is the regulation of the job,
    whatever the generated element said. *)
Theorem patchSpec_diffs_stamped (env : Env) (input : PatchSpecInput)
    (w w' : World) (r : SpecPatchResult) (d : ClauseDiff) :
  patchSpec env input w = (Returned r, w') ->
  In d (diffs r) ->
  exists loaded key,
    spec_versions w !! in_specVersionId input = Some loaded
    /\ In key (affectedModules r)
    /\ has_payload loaded key = true
    /\ get "module" d = Some key
    /\ get "regulationTrigger" d
         = Some (JStr (trigger_of (in_regulation input))).
Proof.
  intros Hrun Hd.
  apply patchSpec_run in Hrun
    as [[_ Hr]
       |(loaded & detected & keys & allDiffs & updated & newId & w1 & w2
           & w3 & w4 & El & _ & _ & Ec & _ & _ & _ & _ & _ & Hr)].
  { destruct (Hr r eq_refl) as (_ & _ & _ & _ & E). rewrite E in Hd.
    contradiction. }
  destruct (Hr r eq_refl) as (_ & _ & Ed & Ek). rewrite Ed in Hd.
  rewrite Ek.
  apply collect_diffs_spec in Ec. rewrite Ec in Hd. simpl in Hd.
  apply in_generated_from in Hd as (key & element & Hkey & ->).
  apply filter_In in Hkey as [Hkey Hp].
  apply load_spec_run in El as [_ El].
  exists loaded, key.
  split; [exact El|]. split; [exact Hkey|]. split; [exact Hp|].
  apply stamp_fields.
Qed.

Lemma patchSpec_publishes_witness :
  let run := patchSpec PipelineFixtures.patching PipelineFixtures.input
               (PipelineFixtures.world 0) in
  exists updatedId requestId child label,
    spec_versions (snd run) !! "uuid-4" = Some child
    /\ versionLabel child = Some label
    /\ published (snd run)
         = [updated_event PipelineFixtures.input updatedId "uuid-4"
              [JStr "security_blueprint"; JStr "audit_trail"]
              [PipelineFixtures.stamped_diff];
            pr_requested_event PipelineFixtures.input requestId "uuid-4"
              [JStr "security_blueprint"; JStr "audit_trail"]
              [PipelineFixtures.stamped_diff] label].
Proof.
  intros run.
  pose (r := {| specVersionId := "spec-1"; newVersionId := "uuid-4";
                newVersionNumber := 2;
                diffs := [PipelineFixtures.stamped_diff];
                affectedModules := [JStr "security_blueprint"; JStr "audit_trail"];
                res_regulationTrigger := "GDPR Article 32";
                patchedAt := "2025-01-01T00:00:00.000Z" |}).
  assert (Hrun : patchSpec PipelineFixtures.patching PipelineFixtures.input
                   (PipelineFixtures.world 0) = (Returned r, snd run))
    by (vm_compute; reflexivity).
  assert (Hdiffs : diffs r <> []) by discriminate.
  exact (patchSpec_publishes PipelineFixtures.patching PipelineFixtures.input
           (PipelineFixtures.world 0) (snd run) r Hrun Hdiffs).
Defined.


Lemma patchSpec_unknown_version_witness :
  exists w',
    patchSpec PipelineFixtures.patching PatcherFixtures.unknown_input
      (PipelineFixtures.world 0) = (Threw (SpecNotFound "spec-404"), w')
    /\ same_tables (PipelineFixtures.world 0) w'
    /\ ticks w' = 1.
Proof.
  apply (patchSpec_unknown_version PipelineFixtures.patching
           PatcherFixtures.unknown_input (PipelineFixtures.world 0)).
  left. reflexivity.
Defined.

Lemma patchSpec_diffs_stamped_witness :
  exists loaded key,
    spec_versions (PipelineFixtures.world 0) !! "spec-1" = Some loaded
    /\ In key [JStr "security_blueprint"; JStr "audit_trail"]
    /\ has_payload loaded key = true
    /\ get "module" PipelineFixtures.stamped_diff = Some key
    /\ get "regulationTrigger" PipelineFixtures.stamped_diff
         = Some (JStr "GDPR Article 32").
Proof.
  pose (r := {| specVersionId := "spec-1"; newVersionId := "uuid-4";
                newVersionNumber := 2;
                diffs := [PipelineFixtures.stamped_diff];
                affectedModules := [JStr "security_blueprint"; JStr "audit_trail"];
                res_regulationTrigger := "GDPR Article 32";
                patchedAt := "2025-01-01T00:00:00.000Z" |}).
  assert (Hrun : patchSpec PipelineFixtures.patching PipelineFixtures.input
                   (PipelineFixtures.world 0)
                 = (Returned r,
                    snd (patchSpec PipelineFixtures.patching
                           PipelineFixtures.input
                           (PipelineFixtures.world 0))))
    by (vm_compute; reflexivity).
  exact (patchSpec_diffs_stamped PipelineFixtures.patching
           PipelineFixtures.input (PipelineFixtures.world 0) _ r
           PipelineFixtures.stamped_diff Hrun (or_introl eq_refl)).
Defined.



End PatcherRunFacts.

Module ApplyFacts.
Import JS Types Runtime DiffEngine Specification.
Import DiffEngineFacts.

Section WithEnv.
Variable env : Env.

(** One generation call per group that is applied. *)
Lemma apply_groups_ticks (spec : SpecVersion)
    (groups : list (ModuleKey * list ClauseDiff)) :
  forall updated0 w updated w',
    apply_groups env spec groups updated0 w = (Returned updated, w') ->
    ticks w' = ticks w + length (List.filter (applies spec) groups).
Proof.
  induction groups as [|[key mds] groups IH];
    intros updated0 w updated w' H; simpl in H.
  - injection H as _ <-. simpl. lia.
  - assert (Ha : negb (truthy (module_get key (modules spec)))
                 || Nat.eqb (length mds) 0
                 = negb (applies spec (key, mds))).
    { unfold applies. simpl.
      destruct (truthy _), (Nat.eqb _ _); reflexivity. }
    rewrite Ha in H. simpl List.filter.
    destruct (applies spec (key, mds)); simpl in H |- *;
      [|apply IH in H; exact H].
    destruct (existsb diff_raises mds); [discriminate H|].
    unfold bind in H.
    destruct (create_run env w) as (w1 & Hc & Ht & _). rewrite Hc in H.
    destruct (messages_create env (ticks w)) as [block|e]; [|discriminate].
    destruct (JSON_parse env (clean (text_or "" block)));
      apply IH in H; rewrite H, Ht; lia.
Qed.

End WithEnv.

Lemma NoDup_map_filter {A B : Type} (f : A -> B) (p : A -> bool)
    (l : list A) :
  List.NoDup (map f l) -> List.NoDup (map f (List.filter p l)).
Proof.
  induction l as [|x l IH]; simpl; intros H; [constructor|].
  inversion H as [|? ? Hx Hl]; subst.
  destruct (p x); simpl; [constructor|]; auto.
  intros Hin. apply Hx. apply in_map_iff in Hin as (y & <- & Hy).
  apply filter_In in Hy as [Hy _]. apply in_map. exact Hy.
Qed.

Lemma module_keys_bound (l : list ModuleKey) :
  List.NoDup l -> length l <= 5.
Proof.
  intros H.
  apply (List.NoDup_incl_length H
           (l' := [Master_specification; Security_blueprint; Cost_analysis;
                   Tech_stack_justification; Code_scaffolding])).
  intros k _. destruct k; simpl; tauto.
Qed.

(** The modules for which the text generation is asked: those that have a
    payload and at least one diff. *)
Lemma applied_modules_spec (spec : SpecVersion) (ds : list ClauseDiff)
    (groups : list (ModuleKey * list ClauseDiff)) :
  group_diffs ds [] = Some groups ->
  List.NoDup (applied_modules spec ds)
  /\ forall k,
       In k (applied_modules spec ds) <->
       truthy (module_get k (modules spec)) = true
       /\ exists d, In d ds /\ diff_module d = Own k.
Proof.
  intros Eg. unfold applied_modules. rewrite Eg.
  destruct (group_diffs_spec ds [] groups Eg (List.NoDup_nil _)
              (List.Forall_nil _)) as (Hnd & Hne & Hkeys).
  split; [apply NoDup_map_filter; exact Hnd|].
  intros k. split.
  - intros Hin. apply in_map_iff in Hin as (g & <- & Hg).
    apply filter_In in Hg as [Hg Ha].
    unfold applies in Ha. apply andb_true_iff in Ha as [Ha _].
    split; [exact Ha|].
    destruct (proj1 (Hkeys (fst g)) (in_map fst _ _ Hg)) as [[]|Hd].
    exact Hd.
  - intros [Ht Hd].
    assert (Hin : In k (map fst groups)) by (apply Hkeys; right; exact Hd).
    apply in_map_iff in Hin as (g & <- & Hg).
    apply in_map. apply filter_In. split; [exact Hg|].
    unfold applies. rewrite Ht. simpl.
    rewrite List.Forall_forall in Hne. specialize (Hne g Hg).
    destruct (snd g); [contradiction|reflexivity].
Qed.

(** X9.  [applyDiffsToSpec] asks the text generation once for each module that
    has a payload and at least one diff, however many diffs there are: at
    most five calls, and none for a module without a payload. *)
Theorem applyDiffsToSpec_calls (env : Env) (spec : SpecVersion)
    (ds : list ClauseDiff) (w w' : World) (updated : Modules) :
  applyDiffsToSpec env spec ds w = (Returned updated, w') ->
  ticks w' = ticks w + length (applied_modules spec ds)
  /\ length (applied_modules spec ds) <= 5
  /\ List.NoDup (applied_modules spec ds)
  /\ forall k,
       In k (applied_modules spec ds) <->
       truthy (module_get k (modules spec)) = true
       /\ exists d, In d ds /\ diff_module d = Own k.
Proof.
  intros H. unfold applyDiffsToSpec in H.
  destruct (group_diffs ds []) as [groups|] eqn:Eg; [|discriminate].
  destruct (applied_modules_spec spec ds groups Eg) as [Hnd Hk].
  split; [|split; [apply module_keys_bound; exact Hnd|split; assumption]].
  apply apply_groups_ticks in H. rewrite H.
  unfold applied_modules. rewrite Eg, length_map. reflexivity.
Qed.

Lemma applyDiffsToSpec_calls_witness :
  let run := applyDiffsToSpec PipelineFixtures.patching
               PipelineFixtures.version_1
               [PipelineFixtures.stamped_diff; PipelineFixtures.stamped_diff]
               (PipelineFixtures.world 3) in
  ticks (snd run)
    = 3 + length (applied_modules PipelineFixtures.version_1
                    [PipelineFixtures.stamped_diff;
                     PipelineFixtures.stamped_diff])
  /\ applied_modules PipelineFixtures.version_1
       [PipelineFixtures.stamped_diff; PipelineFixtures.stamped_diff]
     = [Security_blueprint].
Proof.
  intros run. split; [|reflexivity].
  apply (applyDiffsToSpec_calls PipelineFixtures.patching
           PipelineFixtures.version_1
           [PipelineFixtures.stamped_diff; PipelineFixtures.stamped_diff]
           (PipelineFixtures.world 3) (snd run)
           PipelineFixtures.patched_modules).
  vm_compute. reflexivity.
Defined.

(** The group of a module holds the diffs filed under it, in order. *)
Lemma group_of_push_diff (k k' : ModuleKey) (d : ClauseDiff)
    (groups : list (ModuleKey * list ClauseDiff)) :
  group_of k (push_diff k' d groups)
    = if ModuleKey_eqb k k' then group_of k groups ++ [d]
      else group_of k groups.
Proof.
  unfold group_of.
  induction groups as [|[k0 mds] groups IH]; simpl.
  - destruct (ModuleKey_eqb k k'); reflexivity.
  - destruct (ModuleKey_eqb k' k0) eqn:E0; simpl.
    + apply ModuleKey_eqb_eq in E0. subst k0.
      destruct (ModuleKey_eqb k k'); reflexivity.
    + destruct (ModuleKey_eqb k k0) eqn:E1; [|exact IH].
      apply ModuleKey_eqb_eq in E1. subst k0.
      destruct (ModuleKey_eqb k k') eqn:E2; [|reflexivity].
      apply ModuleKey_eqb_eq in E2. subst k'.
      rewrite ModuleKey_eqb_refl in E0. discriminate E0.
Qed.

Lemma group_diffs_group_of (k : ModuleKey) (ds : list ClauseDiff) :
  forall groups grouped,
    group_diffs ds groups = Some grouped ->
    group_of k grouped = group_of k groups ++ List.filter (names k) ds.
Proof.
  induction ds as [|d ds IH]; intros groups grouped H; simpl in H.
  - injection H as <-. simpl. rewrite app_nil_r. reflexivity.
  - simpl. unfold names at 1.
    destruct (diff_module d) as [k'| | |]; try discriminate H.
    + rewrite (IH _ _ H), group_of_push_diff.
      destruct (ModuleKey_eqb k k'); [|reflexivity].
      rewrite <- app_assoc. reflexivity.
    + exact (IH _ _ H).
Qed.

Lemma group_of_In (k : ModuleKey) (mds : list ClauseDiff)
    (groups : list (ModuleKey * list ClauseDiff)) :
  List.NoDup (map fst groups) -> In (k, mds) groups ->
  group_of k groups = mds.
Proof.
  unfold group_of.
  induction groups as [|[k0 mds0] groups IH]; intros Hnd Hin;
    [destruct Hin|].
  inversion Hnd as [|? ? Hk0 Hnd']; subst. simpl.
  destruct Hin as [E|Hin].
  - injection E as -> ->. rewrite ModuleKey_eqb_refl. reflexivity.
  - destruct (ModuleKey_eqb k k0) eqn:E; [|exact (IH Hnd' Hin)].
    apply ModuleKey_eqb_eq in E. subst k0. exfalso. apply Hk0.
    apply (in_map fst _ _ Hin).
Qed.

(** The members of a group of the grouping of [ds]. *)
Lemma group_diffs_members (ds : list ClauseDiff)
    (groups : list (ModuleKey * list ClauseDiff)) (k : ModuleKey)
    (mds : list ClauseDiff) :
  group_diffs ds [] = Some groups -> In (k, mds) groups ->
  forall d, In d mds <-> In d ds /\ diff_module d = Own k.
Proof.
  intros Eg Hin d.
  destruct (group_diffs_spec ds [] groups Eg (List.NoDup_nil _)
              (List.Forall_nil _)) as (Hnd & _ & _).
  rewrite <- (group_of_In k mds groups Hnd Hin).
  rewrite (group_diffs_group_of k ds [] groups Eg). simpl.
  rewrite filter_In. unfold names.
  split; intros [Hd Hk]; (split; [exact Hd|]).
  - destruct (diff_module d) as [k'| | |]; try discriminate Hk.
    apply ModuleKey_eqb_eq in Hk. congruence.
  - rewrite Hk. apply ModuleKey_eqb_refl.
Qed.

(** X10.  When the text generation answers every call, [applyDiffsToSpec]
    fails in two cases, each time with a [TypeError], and returns in every
    other case.  A diff whose [module] names a property that every object
    inherits (such as ["constructor"]), or cannot be converted to a key,
    makes the grouping fail before any call is made.  Past the grouping, a
    diff of a module with a payload one of whose printed fields cannot be
    converted to a string makes the prompt of its module fail; the tables
    are left alone. *)
Theorem applyDiffsToSpec_failures (env : Env) (spec : SpecVersion)
    (ds : list ClauseDiff) (w : World) :
  (forall n, exists block, messages_create env n = Returned block) ->
  ((exists d,
      In d ds
      /\ (diff_module d = Inherited \/ diff_module d = Unconvertible)) ->
   applyDiffsToSpec env spec ds w = (Threw TypeError, w))
  /\ ((forall d, In d ds ->
         diff_module d <> Inherited /\ diff_module d <> Unconvertible) ->
      ((exists d k,
          In d ds /\ diff_module d = Own k
          /\ truthy (module_get k (modules spec)) = true
          /\ diff_raises d = true) ->
       exists w',
         applyDiffsToSpec env spec ds w = (Threw TypeError, w')
         /\ same_tables w w')
      /\ ((forall d k,
             In d ds -> diff_module d = Own k ->
             truthy (module_get k (modules spec)) = true ->
             diff_raises d = false) ->
          exists updated w',
            applyDiffsToSpec env spec ds w = (Returned updated, w'))).
Proof.
  intros Hup. unfold applyDiffsToSpec. split.
  { intros Hd. apply (group_diffs_None ds []) in Hd. rewrite Hd.
    reflexivity. }
  intros Hno.
  destruct (group_diffs ds []) as [groups|] eqn:Eg.
  2:{ apply group_diffs_None in Eg as (d & Hd & Hi).
      destruct (Hno d Hd) as [H1 H2]. destruct Hi; contradiction. }
  destruct (group_diffs_spec ds [] groups Eg (List.NoDup_nil _)
              (List.Forall_nil _)) as (Hnd & Hne & Hkeys).
  split.
  - intros (d & k & Hd & Hk & Ht & Hr).
    apply apply_groups_raises; [exact Hup|].
    assert (Hin : In k (map fst groups)).
    { apply Hkeys. right. exists d. split; assumption. }
    apply in_map_iff in Hin as ([k' mds] & Ek & Hg). simpl in Ek. subst k'.
    assert (Hmem : In d mds).
    { apply (group_diffs_members ds groups k mds Eg Hg). split; assumption. }
    exists (k, mds). split; [exact Hg|]. split.
    + unfold applies. simpl. rewrite Ht. simpl.
      destruct mds; [destruct Hmem|reflexivity].
    + simpl. apply existsb_exists. exists d. split; assumption.
  - intros Hprint. apply apply_groups_returns; [exact Hup|].
    intros [k mds] Hg Ha. simpl.
    unfold applies in Ha. simpl in Ha.
    apply andb_true_iff in Ha as [Ht _].
    destruct (existsb diff_raises mds) eqn:E; [|reflexivity].
    apply existsb_exists in E as (d & Hd & Hr).
    apply (group_diffs_members ds groups k mds Eg Hg) in Hd as [Hd Hk].
    rewrite (Hprint d k Hd Hk Ht) in Hr. discriminate Hr.
Qed.

Lemma applyDiffsToSpec_failures_witness :
  applyDiffsToSpec PipelineFixtures.patching PipelineFixtures.version_1
    [[("clausePath", JStr "x"); ("module", JStr "constructor")]]
    (PipelineFixtures.world 3)
  = (Threw TypeError, PipelineFixtures.world 3)
  /\ exists w',
       applyDiffsToSpec PipelineFixtures.patching PipelineFixtures.version_1
         [[("before", JObj [("toString", JNum 1)]);
           ("module", JStr "security_blueprint")]]
         (PipelineFixtures.world 3)
       = (Threw TypeError, w')
       /\ same_tables (PipelineFixtures.world 3) w'.
Proof.
  assert (Hup : forall n, exists block,
            messages_create PipelineFixtures.patching n = Returned block).
  { intros n. simpl. destruct n as [|[|[|[|n]]]]; eexists; reflexivity. }
  split.
  - apply (applyDiffsToSpec_failures PipelineFixtures.patching
             PipelineFixtures.version_1
             [[("clausePath", JStr "x"); ("module", JStr "constructor")]]
             (PipelineFixtures.world 3) Hup).
    eexists. split; [left; reflexivity|left; reflexivity].
  - apply (applyDiffsToSpec_failures PipelineFixtures.patching
             PipelineFixtures.version_1
             [[("before", JObj [("toString", JNum 1)]);
               ("module", JStr "security_blueprint")]]
             (PipelineFixtures.world 3) Hup).
    + intros d [<-|[]]. split; discriminate.
    + eexists _, Security_blueprint.
      split; [left; reflexivity|]. repeat split.
Defined.

End ApplyFacts.

(** ** The modules of a new version *)

Module PatcherFrameFacts.
Import JS Types Runtime DiffEngine VersionStore SpecPatcher Specification.
Import DiffEngineFacts SpecPatcherFacts.

(** X11.  A successful patch changes a module only if the loaded version has a
    payload for it, the classifier named it, and at least one diff was
    generated for it.  Every other module of the new version is the module
    of the loaded one. *)
Theorem patchSpec_frame (env : Env) (input : PatchSpecInput) (w w' : World)
    (r : SpecPatchResult) :
  patchSpec env input w = (Returned r, w') ->
  diffs r <> [] ->
  exists loaded child,
    spec_versions w !! in_specVersionId input = Some loaded
    /\ spec_versions w' !! newVersionId r = Some child
    /\ forall k,
         module_get k (modules child) <> module_get k (modules loaded) ->
         truthy (module_get k (modules loaded)) = true
         /\ (exists key, In key (affectedModules r) /\ property_of key = Own k)
         /\ (exists d, In d (diffs r) /\ diff_module d = Own k).
Proof.
  intros Hrun Hdiffs.
  apply patchSpec_run in Hrun
    as [[_ Hr]
       |(loaded & detected & keys & allDiffs & updated & newId & w1 & w2
           & w3 & w4 & El & _ & _ & Ec & _ & Ea & Hins & _ & _ & Hr)].
  { destruct (Hr r eq_refl) as (_ & _ & _ & _ & E). contradiction. }
  destruct (Hr r eq_refl) as (-> & _ & -> & ->).
  apply load_spec_run in El as [_ El].
  exists loaded.
  eexists (new_version_row env (in_workspaceId input)
             (in_specVersionId input) loaded (in_regulation input) allDiffs
             updated newId).
  split; [exact El|]. split.
  { apply VersionStoreFacts.insert_spec_version_cases in Hins
      as [_ [[-> _]|(p & parent & _ & _ & _ & _ & ->)]];
      apply lookup_insert_eq. }
  cbn [modules new_version_row]. intros k Hk.
  unfold applyDiffsToSpec in Ea.
  destruct (group_diffs allDiffs []) as [groups|] eqn:Eg; [|discriminate Ea].
  destruct (ApplyFacts.applied_modules_spec loaded allDiffs groups Eg)
    as [_ Happlied].
  destruct (group_diffs_spec allDiffs [] groups Eg (List.NoDup_nil _)
              (List.Forall_nil _)) as (Hnd & _ & _).
  apply apply_groups_spec in Ea as (_ & Hmods); [|exact Hnd].
  assert (Hin : In k (applied_modules loaded allDiffs)).
  { destruct (in_dec ModuleKey_eq_dec k (applied_modules loaded allDiffs))
      as [Hin|Hout]; [exact Hin|].
    exfalso. apply Hk. apply (proj1 (Hmods k)).
    unfold applied_modules in Hout. rewrite Eg in Hout. exact Hout. }
  apply Happlied in Hin as [Ht (d & Hd & Hdk)].
  split; [exact Ht|]. split; [|exists d; auto].
  apply collect_diffs_spec in Ec. simpl in Ec. rewrite Ec in Hd.
  apply PatcherRunFacts.in_generated_from in Hd
    as (key & element & Hkey & ->).
  apply filter_In in Hkey as [Hkey _].
  exists key. split; [exact Hkey|].
  unfold diff_module in Hdk.
  rewrite (proj1 (PatcherRunFacts.stamp_fields _ _ _)) in Hdk. exact Hdk.
Qed.

Lemma patchSpec_frame_witness :
  let run := patchSpec PipelineFixtures.patching PipelineFixtures.input
               (PipelineFixtures.world 0) in
  exists loaded child,
    spec_versions (PipelineFixtures.world 0) !! "spec-1" = Some loaded
    /\ spec_versions (snd run) !! "uuid-4" = Some child
    /\ forall k,
         module_get k (modules child) <> module_get k (modules loaded) ->
         truthy (module_get k (modules loaded)) = true
         /\ (exists key,
               In key [JStr "security_blueprint"; JStr "audit_trail"]
               /\ property_of key = Own k)
         /\ (exists d,
               In d [PipelineFixtures.stamped_diff] /\ diff_module d = Own k).
Proof.
  intros run.
  pose (r := {| specVersionId := "spec-1"; newVersionId := "uuid-4";
                newVersionNumber := 2;
                diffs := [PipelineFixtures.stamped_diff];
                affectedModules :=
                  [JStr "security_blueprint"; JStr "audit_trail"];
                res_regulationTrigger := "GDPR Article 32";
                patchedAt := "2025-01-01T00:00:00.000Z" |}).
  assert (Hrun : patchSpec PipelineFixtures.patching PipelineFixtures.input
                   (PipelineFixtures.world 0) = (Returned r, snd run))
    by (vm_compute; reflexivity).
  assert (Hdiffs : diffs r <> []) by discriminate.
  exact (patchSpec_frame PipelineFixtures.patching PipelineFixtures.input
           (PipelineFixtures.world 0) (snd run) r Hrun Hdiffs).
Defined.

End PatcherFrameFacts.

Module AnalyzerTextFacts.
Import JS ImpactAnalyzer AnalyzerSummary.
Import TextFacts.
#[local] Arguments String.append !s1 s2 : simpl nomatch.
Local Open Scope string_scope.

Lemma collapse_newlines_one_line (s : string) :
  one_line (collapse_newlines s).
Proof.
  unfold one_line. induction s as [|c s IH]; [intros []|].
  cbn [collapse_newlines].
  destruct (Ascii.eqb c LF) eqn:E.
  - destruct s as [|c' s'].
    + intros [H|[]]. discriminate H.
    + destruct (Ascii.eqb c' LF); [exact IH|].
      intros [H|H]; [discriminate H|exact (IH H)].
  - intros [H|H]; [|exact (IH H)].
    subst c. rewrite Ascii.eqb_refl in E. discriminate E.
Qed.

Lemma in_reverse (x : ascii) (s : string) :
  In x (list_ascii_of_string (reverse s)) <-> In x (list_ascii_of_string s).
Proof.
  unfold reverse. rewrite list_ascii_of_string_of_list_ascii.
  symmetry. apply in_rev.
Qed.

Lemma trim_one_line (s : string) : one_line s -> one_line (trim s).
Proof.
  unfold one_line, trim, trim_end, trim_start. intros H Hin. apply H.
  apply (proj1 (in_reverse _ _)) in Hin. apply in_skip_spaces in Hin.
  apply (proj1 (in_reverse _ _)) in Hin. apply in_skip_spaces in Hin.
  exact Hin.
Qed.

(** [collapse_newlines] leaves a text without line breaks alone, and turns
    the single line break between two such texts into a space. *)
Lemma collapse_newlines_line (a : string) :
  one_line a -> collapse_newlines a = a.
Proof.
  unfold one_line. induction a as [|c a IH]; intros H; [reflexivity|].
  cbn [collapse_newlines].
  destruct (Ascii.eqb c LF) eqn:E.
  - apply Ascii.eqb_eq in E. subst c. contradiction H. left. reflexivity.
  - rewrite IH; [reflexivity|]. intros Hin. apply H. right. exact Hin.
Qed.

Lemma collapse_newlines_join (a : string) (c : ascii) (b : string) :
  one_line a -> c <> LF ->
  collapse_newlines (a ++ String LF (String c b))
    = a ++ String " " (collapse_newlines (String c b)).
Proof.
  unfold one_line. intros Ha Hc.
  induction a as [|x a IH].
  - change ("" ++ String LF (String c b)) with (String LF (String c b)).
    cbn [collapse_newlines]. rewrite Ascii.eqb_refl.
    destruct (Ascii.eqb c LF) eqn:E; [|reflexivity].
    apply Ascii.eqb_eq in E. contradiction.
  - change (String x a ++ String LF (String c b))
      with (String x (a ++ String LF (String c b))).
    cbn [collapse_newlines].
    destruct (Ascii.eqb x LF) eqn:E.
    + apply Ascii.eqb_eq in E. subst x. contradiction Ha. left. reflexivity.
    + fold (collapse_newlines (String c b)).
      rewrite IH; [reflexivity|]. intros Hin. apply Ha. right. exact Hin.
Qed.

Lemma one_line_app (a b : string) :
  one_line a -> one_line b -> one_line (a ++ b).
Proof.
  unfold one_line. intros Ha Hb Hin.
  induction a as [|c a IH]; [exact (Hb Hin)|].
  change (String c a ++ b) with (String c (a ++ b)) in Hin.
  destruct Hin as [H|H].
  - apply Ha. left. exact H.
  - apply IH; [|exact H]. intros Hin. apply Ha. right. exact Hin.
Qed.

Lemma concat_cons (sep p q : string) (ps : list string) :
  String.concat sep (p :: q :: ps)
    = p ++ sep ++ String.concat sep (q :: ps).
Proof. reflexivity. Qed.

Lemma concat_head (sep : string) (c : ascii) (p : string)
    (ps : list string) :
  exists rest, String.concat sep (String c p :: ps) = String c rest.
Proof.
  destruct ps as [|q ps]; [eexists; reflexivity|].
  rewrite concat_cons. eexists. reflexivity.
Qed.

Lemma concat_one_line (sep : string) (ps : list string) :
  one_line sep -> List.Forall one_line ps ->
  one_line (String.concat sep ps).
Proof.
  intros Hsep. induction 1 as [|p ps Hp Hps IH]; [intros []|].
  destruct ps as [|q ps]; [exact Hp|]. rewrite concat_cons.
  apply one_line_app; [exact Hp|]. apply one_line_app; [exact Hsep|exact IH].
Qed.

Lemma collapse_newlines_concat (ps : list string) :
  List.Forall (fun p => p <> "" /\ one_line p) ps ->
  collapse_newlines (String.concat (String LF "") ps)
    = String.concat " " ps.
Proof.
  induction 1 as [|p ps [Hp Hl] Hps IH]; [reflexivity|].
  destruct ps as [|q ps].
  - apply collapse_newlines_line. exact Hl.
  - rewrite !concat_cons.
    change (p ++ String LF "" ++ String.concat (String LF "") (q :: ps))
      with (p ++ String LF (String.concat (String LF "") (q :: ps))).
    change (p ++ " " ++ String.concat " " (q :: ps))
      with (p ++ String " " (String.concat " " (q :: ps))).
    rewrite <- IH.
    inversion Hps as [|? ? [Hq0 Hq1] _]; subst.
    destruct q as [|c q]; [contradiction|].
    destruct (concat_head (String LF "") c q ps) as [rest ->].
    apply collapse_newlines_join; [exact Hl|].
    intros ->. apply Hq1. left. reflexivity.
Qed.

(** X12.  Sanitizing is done once and for all.  The text that [embedQuery]
    and [embedDocuments] send for a text has no line feed and no white space
    at either end, and sanitizing it again leaves it as it is: on the
    sanitized text, [embedQuery] makes the request it makes on the text. *)
Theorem embedQuery_sanitized (env : Env) (text : string) :
  one_line (Embeddings.sanitize text)
  /\ trim (Embeddings.sanitize text) = Embeddings.sanitize text
  /\ Embeddings.sanitize (Embeddings.sanitize text) = Embeddings.sanitize text
  /\ embedQuery env (Embeddings.sanitize text) = embedQuery env text.
Proof.
  assert (Hline : one_line (Embeddings.sanitize text))
    by apply trim_one_line, collapse_newlines_one_line.
  assert (Hidem : Embeddings.sanitize (Embeddings.sanitize text)
                  = Embeddings.sanitize text).
  { unfold Embeddings.sanitize at 1.
    rewrite (collapse_newlines_line _ Hline).
    apply trim_idempotent. }
  split; [exact Hline|]. split; [apply trim_idempotent|].
  split; [exact Hidem|].
  unfold embedQuery. fold (Embeddings.sanitize text).
  fold (Embeddings.sanitize (Embeddings.sanitize text)).
  rewrite Hidem. reflexivity.
Qed.

(** X13.  What is embedded for a specification: the non-empty parts of its master
    specification, separated by single spaces, when no part has a line break
    of its own. *)
Theorem embedQuery_summary (env : Env) (masterSpec : MasterSpecification) :
  List.Forall one_line (summary_parts masterSpec) ->
  embedQuery env (extractMasterSpecText masterSpec)
    = embeddings_create env
        (trim (String.concat " "
                 (List.filter non_empty (summary_parts masterSpec)))).
Proof.
  intros Hl. unfold embedQuery.
  change (extractMasterSpecText masterSpec)
    with (String.concat (String LF "")
            (List.filter non_empty (summary_parts masterSpec))).
  rewrite collapse_newlines_concat; [reflexivity|].
  apply List.Forall_forall. intros p Hp. apply filter_In in Hp as [Hp Hn].
  split.
  - intros ->. discriminate Hn.
  - rewrite List.Forall_forall in Hl. exact (Hl p Hp).
Qed.

Lemma embedQuery_summary_witness :
  embedQuery AnalyzerFixtures.two_candidates
    (extractMasterSpecText
       {| projectName := Some "Ledger";
          projectSummary := Some "";
          problemStatement := None;
          coreFeatures := Some [("Export", "CSV export")];
          dataFlows := None;
          nonFunctionalRequirements := Some ["Encrypt at rest"] |})
  = embeddings_create AnalyzerFixtures.two_candidates
      "Ledger Export: CSV export Encrypt at rest".
Proof.
  apply (embedQuery_summary AnalyzerFixtures.two_candidates
           {| projectName := Some "Ledger";
              projectSummary := Some "";
              problemStatement := None;
              coreFeatures := Some [("Export", "CSV export")];
              dataFlows := None;
              nonFunctionalRequirements := Some ["Encrypt at rest"] |}).
  repeat constructor; vm_compute; intuition discriminate.
Defined.

End AnalyzerTextFacts.

(** ** The regulation consumer *)

Module RegulationConsumerFacts.
Import Types RegulationConsumer ConsumerSpecification.

Lemma jobPromises_candidates (env : Env) (regulation : Regulation)
    (cs : list ImpactAnalyzer.Candidate) : forall n,
  map fst
    (jobPromises env regulation n
       (map (fun c => ImpactAnalyzer.affected c 1%float) cs))
  = candidate_jobs env regulation n cs.
Proof.
  induction cs as [|c cs IH]; intros n; simpl; [reflexivity|].
  rewrite IH. f_equal. unfold patch_job, candidate_job. simpl.
  destruct regulation. reflexivity.
Qed.

(** X14.  The handler enqueues one patch job for every candidate of the Stage-1
    query, in order, for the candidate's version and workspace and with the
    regulation of the event.  It passes no regulation text to
    [findAffectedSpecs], so neither the master specifications nor the
    embedding service play any part, and it returns normally whatever the
    queue answers. *)
Theorem handleRegulationNew_fans_out (env : Env) (regulation : Regulation)
    (candidates : list ImpactAnalyzer.Candidate) :
  ImpactAnalyzer.find_affected_specs (analyzer env) (framework regulation)
    (jurisdiction regulation)
    = ImpactAnalyzer.RpcData (Some candidates) ->
  handleRegulationNew env regulation
    = (Returned tt, candidate_jobs env regulation 0 candidates).
Proof.
  intros Hq. unfold handleRegulationNew, ImpactAnalyzer.findAffectedSpecs.
  rewrite Hq. destruct candidates as [|c cs]; [reflexivity|].
  cbn [ImpactAnalyzer.no_content].
  rewrite length_map. cbn [length Nat.eqb].
  unfold allSettled. f_equal. apply jobPromises_candidates.
Qed.

Lemma handleRegulationNew_fans_out_witness :
  handleRegulationNew ConsumerFixtures.rejecting_queue
    PipelineFixtures.regulation
  = (Returned tt,
     [{| jobId := "job-0"; job_specVersionId := "spec-1";
         job_workspaceId := "ws-1";
         job_regulation := PipelineFixtures.regulation |};
      {| jobId := "job-1"; job_specVersionId := "spec-2";
         job_workspaceId := "ws-1";
         job_regulation := PipelineFixtures.regulation |}]).
Proof.
  apply (handleRegulationNew_fans_out ConsumerFixtures.rejecting_queue
           PipelineFixtures.regulation
           [AnalyzerFixtures.candidate "spec-1";
            AnalyzerFixtures.candidate "spec-2"]).
  reflexivity.
Defined.

End RegulationConsumerFacts.

Module EmbeddingsFacts.
Import Embeddings EmbeddingsSpecification.

Lemma interleave_cons {A : Type} (sep x y : A) (l : list A) :
  interleave sep (x :: y :: l) = x :: sep :: interleave sep (y :: l).
Proof. reflexivity. Qed.

Section WithEnv.
Variable env : Env.

(** The structure of the requests, for any offset the loop is at. *)
Lemma embed_batches_requests (texts : list string) :
  forall fuel i results out actions,
    length texts - i <= fuel * MAX_BATCH_SIZE ->
    embed_batches env fuel i texts results = (out, actions) ->
    exists batches,
      actions = interleave (Sleep 200) (map Create batches)
      /\ List.Forall (fun b => 0 < length b <= MAX_BATCH_SIZE) batches
      /\ (forall k b, S k < length batches -> batches !! k = Some b ->
            length b = MAX_BATCH_SIZE)
      /\ (exists rest,
            map sanitize (skipn i texts) = concat batches ++ rest
            /\ forall r, out = Returned r -> rest = [])
      /\ (i < length texts -> batches <> []).
Proof.
  induction fuel as [|fuel IH]; intros i results out actions Hfuel H;
    cbn [embed_batches] in H.
  - injection H as <- <-. exists []. split; [reflexivity|].
    split; [constructor|]. split; [intros k b Hk; simpl in Hk; lia|].
    split; [|simpl in Hfuel; lia].
    exists []. split; [|reflexivity].
    rewrite skipn_all2 by (simpl in Hfuel; lia). reflexivity.
  - destruct (Nat.ltb i (length texts)) eqn:Ei.
    2:{ injection H as <- <-. apply Nat.ltb_ge in Ei. exists [].
        split; [reflexivity|]. split; [constructor|].
        split; [intros k b Hk; simpl in Hk; lia|].
        split; [|lia].
        exists []. split; [|reflexivity].
        rewrite skipn_all2 by lia. reflexivity. }
    apply Nat.ltb_lt in Ei.
    set (batch := map sanitize (slice i (i + MAX_BATCH_SIZE) texts)) in H.
    assert (Hlen : 0 < length batch <= MAX_BATCH_SIZE).
    { unfold batch, slice. rewrite length_map, length_firstn, length_skipn.
      unfold MAX_BATCH_SIZE. lia. }
    assert (Hsplit : map sanitize (skipn i texts)
                     = batch ++ map sanitize (skipn (i + MAX_BATCH_SIZE) texts)).
    { unfold batch, slice.
      replace (i + MAX_BATCH_SIZE - i) with MAX_BATCH_SIZE by lia.
      rewrite <- map_app. f_equal.
      rewrite Nat.add_comm, <- skipn_skipn. symmetry. apply firstn_skipn. }
    destruct (embeddings_create env (i / MAX_BATCH_SIZE) batch)
      as [data|e].
    2:{ injection H as <- <-. exists [batch].
        split; [reflexivity|].
        split; [constructor; [exact Hlen|constructor]|].
        split; [intros k b Hk; simpl in Hk; lia|].
        split; [|discriminate].
        exists (map sanitize (skipn (i + MAX_BATCH_SIZE) texts)).
        split; [simpl; rewrite app_nil_r; exact Hsplit|].
        intros r Hr. discriminate Hr. }
    destruct (embed_batches env fuel (i + MAX_BATCH_SIZE) texts _)
      as [out' actions'] eqn:Erec.
    injection H as <- <-.
    apply IH in Erec
      as (batches & -> & Hall & Hfull & (rest & Hrest & Hdone) & Hne).
    2:{ unfold MAX_BATCH_SIZE in *. lia. }
    exists (batch :: batches).
    split; [|split; [|split; [|split]]].
    + destruct (Nat.ltb (i + MAX_BATCH_SIZE) (length texts)) eqn:En.
      * apply Nat.ltb_lt in En. specialize (Hne En).
        destruct batches as [|b bs]; [contradiction|]. reflexivity.
      * apply Nat.ltb_ge in En.
        rewrite skipn_all2 in Hrest by exact En. simpl in Hrest.
        symmetry in Hrest. apply app_eq_nil in Hrest as [Hc _].
        destruct batches as [|b bs]; [reflexivity|].
        inversion Hall as [|? ? Hb _]; subst.
        simpl in Hc. apply app_eq_nil in Hc as [Hb0 _]. subst b.
        simpl in Hb. lia.
    + constructor; assumption.
    + intros [|k] b Hk Hb; simpl in Hb.
      * injection Hb as <-. simpl in Hk.
        assert (Hn : i + MAX_BATCH_SIZE < length texts).
        { destruct (Nat.lt_ge_cases (i + MAX_BATCH_SIZE) (length texts))
            as [Hlt|Hge]; [exact Hlt|].
          rewrite skipn_all2 in Hrest by exact Hge. simpl in Hrest.
          symmetry in Hrest. apply app_eq_nil in Hrest as [Hc _].
          destruct batches as [|b bs]; [simpl in Hk; lia|].
          inversion Hall as [|? ? Hb _]; subst.
          simpl in Hc. apply app_eq_nil in Hc as [Hb0 _]. subst b.
          simpl in Hb. lia. }
        unfold batch, slice.
        rewrite length_map, length_firstn, length_skipn. lia.
      * apply (Hfull k b); [simpl in Hk; lia|exact Hb].
    + exists rest. split; [|exact Hdone].
      rewrite Hsplit, Hrest. simpl. rewrite app_assoc. reflexivity.
    + intros _. discriminate.
Qed.

End WithEnv.

(** *** Sorting a response by index *)

Lemma by_index_test (x y : Item) :
  numbered x -> numbered y ->
  (0 <? by_index x y)%float = (index y <? index x)%float.
Proof. intros Hx Hy. unfold by_index. apply FloatFacts.sub_sign; assumption. Qed.

Lemma sort_insert_by_index (x : Item) (l : list Item) :
  numbered x -> List.Forall numbered l ->
  StronglySorted index_le l ->
  StronglySorted index_le (ImpactAnalyzer.sort_insert by_index x l).
Proof.
  intros Hx Hn Hs. induction Hs as [|y l Hs IH Hy]; simpl.
  - repeat constructor.
  - inversion Hn as [|? ? Hny Hnl]; subst.
    rewrite (by_index_test x y Hx Hny).
    destruct (index y <? index x)%float eqn:E.
    + constructor; [apply IH; exact Hnl|].
      apply (Permutation_Forall
               (Permutation_sym
                  (ImpactAnalyzerFacts.sort_insert_permutation by_index x l))).
      constructor; [|exact Hy].
      apply FloatFacts.ltb_leb. exact E.
    + assert (Hxy : index_le x y).
      { unfold index_le.
        rewrite (FloatFacts.leb_negb_ltb (index y) (index x) Hny Hx), E.
        reflexivity. }
      constructor; [constructor; assumption|].
      constructor; [exact Hxy|].
      eapply List.Forall_impl; [|exact Hy].
      intros z Hz. exact (FloatFacts.leb_trans _ _ _ Hxy Hz).
Qed.

Lemma sort_by_index_sorted (l : list Item) :
  List.Forall numbered l ->
  StronglySorted index_le (ImpactAnalyzer.sort by_index l).
Proof.
  induction 1 as [|x l Hx Hl IH]; simpl; [constructor|].
  apply sort_insert_by_index; [exact Hx| |exact IH].
  apply (Permutation_Forall
           (Permutation_sym (ImpactAnalyzerFacts.sort_permutation by_index l))).
  exact Hl.
Qed.

Lemma index_le_lt_absurd (a b : Item) : index_le a b -> index_lt b a -> False.
Proof.
  unfold index_le, index_lt. intros Hle Hlt.
  pose proof (FloatFacts.leb_not_nan_r _ _ Hle) as Hb.
  pose proof (FloatFacts.leb_not_nan_r _ _ (FloatFacts.ltb_leb _ _ Hlt)) as Ha.
  rewrite (FloatFacts.leb_negb_ltb (index b) (index a) Hb Ha), Hlt in Hle.
  discriminate Hle.
Qed.

Lemma index_lt_irrefl (a : Item) : ~ index_lt a a.
Proof.
  intros H. apply (index_le_lt_absurd a a); [|exact H].
  apply FloatFacts.ltb_leb. exact H.
Qed.

(** A list in strictly ascending order of index is the only arrangement of
    its items that is in ascending order. *)
Lemma sorted_unique (l2 : list Item) : forall l1,
  Permutation l1 l2 ->
  StronglySorted index_le l1 -> StronglySorted index_lt l2 -> l1 = l2.
Proof.
  induction l2 as [|c l2 IH]; intros l1 Hp H1 H2.
  - apply Permutation_nil. symmetry. exact Hp.
  - destruct l1 as [|h l1].
    { apply Permutation_nil in Hp. discriminate Hp. }
    inversion H1 as [|? ? H1' Hh]; subst.
    inversion H2 as [|? ? H2' Hc]; subst.
    rewrite List.Forall_forall in Hh, Hc.
    assert (E : h = c).
    { assert (Hin : In h (c :: l2))
        by (apply (Permutation_in _ Hp); left; reflexivity).
      destruct Hin as [Hin|Hin]; [symmetry; exact Hin|].
      exfalso. specialize (Hc h Hin).
      assert (Hin' : In c (h :: l1))
        by (apply (Permutation_in _ (Permutation_sym Hp)); left; reflexivity).
      destruct Hin' as [Hin'|Hin'].
      - subst h. exact (index_lt_irrefl c Hc).
      - exact (index_le_lt_absurd h c (Hh c Hin') Hc). }
    subst h. f_equal. apply IH; [|assumption|assumption].
    exact (Permutation_cons_inv Hp).
Qed.

Lemma sort_by_index_unique (data ordered : list Item) :
  Permutation data ordered ->
  List.Forall numbered ordered ->
  StronglySorted index_lt ordered ->
  ImpactAnalyzer.sort by_index data = ordered.
Proof.
  intros Hp Hn Hs. apply sorted_unique; [| |exact Hs].
  - rewrite ImpactAnalyzerFacts.sort_permutation. exact Hp.
  - apply sort_by_index_sorted.
    apply (Permutation_Forall (Permutation_sym Hp)). exact Hn.
Qed.

(** *** The indices of a request *)

Lemma index_of_lt (i j : nat) :
  i < j -> j < MAX_BATCH_SIZE ->
  (index_of i <? index_of j)%float = true.
Proof.
  intros Hij Hj.
  assert (H : forallb
                (fun i =>
                   forallb
                     (fun j =>
                        implb (Nat.ltb i j)
                          (index_of i <? index_of j)%float)
                     (seq 0 MAX_BATCH_SIZE))
                (seq 0 MAX_BATCH_SIZE) = true) by (vm_compute; reflexivity).
  rewrite forallb_forall in H.
  specialize (H i). rewrite forallb_forall in H.
  assert (Hi : In i (seq 0 MAX_BATCH_SIZE)) by (apply in_seq; lia).
  assert (Hj' : In j (seq 0 MAX_BATCH_SIZE)) by (apply in_seq; lia).
  specialize (H Hi j Hj').
  apply Nat.ltb_lt in Hij. rewrite Hij in H. exact H.
Qed.

Lemma index_of_numbered (j : nat) :
  j < MAX_BATCH_SIZE -> (index_of j =? index_of j)%float = true.
Proof.
  intros Hj.
  assert (H : forallb (fun j => (index_of j =? index_of j)%float)
                (seq 0 MAX_BATCH_SIZE) = true) by (vm_compute; reflexivity).
  rewrite forallb_forall in H. apply H. apply in_seq. lia.
Qed.

Lemma StronglySorted_lookup {A : Type} (R : A -> A -> Prop) (l : list A) :
  (forall i j a b, i < j -> l !! i = Some a -> l !! j = Some b -> R a b) ->
  StronglySorted R l.
Proof.
  induction l as [|x l IH]; intros H; constructor.
  - apply IH. intros i j a b Hij Ha Hb.
    apply (H (S i) (S j) a b); [lia|exact Ha|exact Hb].
  - apply List.Forall_forall. intros y Hy.
    apply list_elem_of_In, list_elem_of_lookup_1 in Hy as [j Hj].
    apply (H 0 (S j) x y); [lia|reflexivity|exact Hj].
Qed.

Lemma in_order_sorted (E : string -> list float) (input : list string) :
  length input <= MAX_BATCH_SIZE ->
  List.Forall numbered (in_order E input)
  /\ StronglySorted index_lt (in_order E input).
Proof.
  intros Hlen. unfold in_order. split.
  - apply List.Forall_forall. intros a Ha.
    apply list_elem_of_In, elem_of_lookup_imap_1 in Ha as (j & t & -> & Hj).
    apply lookup_lt_Some in Hj.
    unfold numbered. simpl. apply index_of_numbered. lia.
  - apply StronglySorted_lookup. intros i j a b Hij Ha Hb.
    apply list_lookup_imap_Some in Ha as (ta & Hta & ->).
    apply list_lookup_imap_Some in Hb as (tb & Htb & ->).
    apply lookup_lt_Some in Htb.
    unfold index_lt. simpl. apply index_of_lt; lia.
Qed.

Lemma in_order_embeddings (E : string -> list float) (input : list string) :
  map embedding (in_order E input) = map E input.
Proof.
  unfold in_order.
  change (map embedding) with (fmap (M := list) embedding).
  rewrite fmap_imap.
  change (imap (fun n => embedding ∘ _) input)
    with (imap (fun (_ : nat) (t : string) => E t) input).
  rewrite (imap_const E). reflexivity.
Qed.

Section InOrder.
Variables (env : Env) (E : string -> list float).
Hypothesis answers :
  forall n input,
    0 < length input <= MAX_BATCH_SIZE ->
    exists data,
      embeddings_create env n input = Returned data
      /\ Permutation data (in_order E input).

Lemma embed_batches_in_order (texts : list string) :
  forall fuel i results,
    length texts - i <= fuel * MAX_BATCH_SIZE ->
    fst (embed_batches env fuel i texts results)
      = Returned (results ++ map E (map sanitize (skipn i texts))).
Proof.
  induction fuel as [|fuel IH]; intros i results Hfuel;
    cbn [embed_batches].
  - rewrite skipn_all2 by (simpl in Hfuel; lia).
    simpl. rewrite app_nil_r. reflexivity.
  - destruct (Nat.ltb i (length texts)) eqn:Ei.
    2:{ apply Nat.ltb_ge in Ei. rewrite skipn_all2 by lia.
        simpl. rewrite app_nil_r. reflexivity. }
    apply Nat.ltb_lt in Ei.
    set (batch := map sanitize (slice i (i + MAX_BATCH_SIZE) texts)).
    assert (Hlen : 0 < length batch <= MAX_BATCH_SIZE).
    { unfold batch, slice. rewrite length_map, length_firstn, length_skipn.
      unfold MAX_BATCH_SIZE. lia. }
    assert (Hsplit : map sanitize (skipn i texts)
                     = batch ++ map sanitize (skipn (i + MAX_BATCH_SIZE) texts)).
    { unfold batch, slice.
      replace (i + MAX_BATCH_SIZE - i) with MAX_BATCH_SIZE by lia.
      rewrite <- map_app. f_equal.
      rewrite Nat.add_comm, <- skipn_skipn. symmetry. apply firstn_skipn. }
    destruct (answers (i / MAX_BATCH_SIZE) batch Hlen) as (data & -> & Hp).
    destruct (in_order_sorted E batch (proj2 Hlen)) as [Hn Hs].
    rewrite (sort_by_index_unique data _ Hp Hn Hs), in_order_embeddings.
    specialize (IH (i + MAX_BATCH_SIZE) (results ++ map E batch)).
    destruct (embed_batches env fuel (i + MAX_BATCH_SIZE) texts
                (results ++ map E batch)) as [out actions].
    simpl in IH |- *. rewrite IH by (unfold MAX_BATCH_SIZE in *; lia).
    rewrite Hsplit, map_app, app_assoc. reflexivity.
Qed.

End InOrder.

(** X15.  The requests of [embedDocuments]: the sanitized texts go out in order,
    each once, in batches of at most [MAX_BATCH_SIZE] texts, every batch but
    the last one full, with a pause of 200 ms between two requests and none
    after the last.  A failing request ends the call: the batches sent are
    then a prefix of the texts. *)
Theorem embedDocuments_requests (env : Env) (texts : list string)
    (out : Outcome (list (list float))) (actions : list Action) :
  embedDocuments env texts = (out, actions) ->
  exists batches,
    actions = interleave (Sleep 200) (map Create batches)
    /\ List.Forall (fun b => 0 < length b <= MAX_BATCH_SIZE) batches
    /\ (forall k b, S k < length batches -> batches !! k = Some b ->
          length b = MAX_BATCH_SIZE)
    /\ exists rest,
         map sanitize texts = concat batches ++ rest
         /\ forall r, out = Returned r -> rest = [].
Proof.
  intros H. unfold embedDocuments in H.
  apply embed_batches_requests in H
    as (batches & Ha & Hall & Hfull & Hrest & _).
  - exists batches. auto.
  - unfold MAX_BATCH_SIZE. lia.
Qed.

(** X16.  When the service answers every request of at most [MAX_BATCH_SIZE]
    texts with one item per text, numbered by the position of the text in
    the request, in whatever order, [embedDocuments] returns the embeddings
    of the sanitized texts in the order of its input, one per text. *)
Theorem embedDocuments_in_order (env : Env) (E : string -> list float)
    (texts : list string) :
  (forall n input,
     0 < length input <= MAX_BATCH_SIZE ->
     exists data,
       embeddings_create env n input = Returned data
       /\ Permutation data (in_order E input)) ->
  fst (embedDocuments env texts)
    = Returned (map (fun t => E (sanitize t)) texts).
Proof.
  intros Hanswers. unfold embedDocuments.
  rewrite (embed_batches_in_order env E Hanswers texts (length texts) 0 [])
    by (unfold MAX_BATCH_SIZE; lia).
  simpl. rewrite map_map. reflexivity.
Qed.

Lemma embedDocuments_requests_witness :
  exists batches,
    snd (embedDocuments EmbeddingsFixtures.reversing
           EmbeddingsFixtures.three_texts)
      = interleave (Sleep 200) (map Create batches)
    /\ List.Forall (fun b => 0 < length b <= MAX_BATCH_SIZE) batches
    /\ (forall k b, S k < length batches -> batches !! k = Some b ->
          length b = MAX_BATCH_SIZE)
    /\ exists rest,
         ["Article 5 Lawfulness"; "Article 32"; "Art. 6"]
           = concat batches ++ rest
         /\ forall r,
              fst (embedDocuments EmbeddingsFixtures.reversing
                     EmbeddingsFixtures.three_texts) = Returned r ->
              rest = [].
Proof.
  apply (embedDocuments_requests EmbeddingsFixtures.reversing
           EmbeddingsFixtures.three_texts).
  apply surjective_pairing.
Defined.

Lemma embedDocuments_in_order_witness :
  fst (embedDocuments EmbeddingsFixtures.reversing
         EmbeddingsFixtures.three_texts)
  = Returned [[index_of 20]; [index_of 10]; [index_of 6]].
Proof.
  apply (embedDocuments_in_order EmbeddingsFixtures.reversing
           EmbeddingsFixtures.by_length EmbeddingsFixtures.three_texts).
  intros n input _. eexists. split; [reflexivity|].
  symmetry. apply Permutation_rev.
Defined.

End EmbeddingsFacts.

Module VectorStoreFacts.
Import VectorStore.

Section WithEnv.
Variable env : Env.

Lemma upsert_chunks_counts (records : list UpsertRecord) :
  forall fuel i succeeded0 errors0 s e requests,
    length records - i <= fuel * CHUNK_SIZE ->
    upsert_chunks env fuel i records succeeded0 errors0 = (s, e, requests) ->
    exists accepted rejected new_errors,
      s = succeeded0 + accepted
      /\ e = errors0 ++ new_errors
      /\ length new_errors = rejected
      /\ accepted + rejected <= length records - i
      /\ length records - i <= accepted + CHUNK_SIZE * rejected
      /\ concat requests = skipn i records
      /\ List.Forall (fun c => 0 < length c <= CHUNK_SIZE) requests.
Proof.
  induction fuel as [|fuel IH];
    intros i succeeded0 errors0 s e requests Hfuel H;
    cbn [upsert_chunks] in H.
  - injection H as <- <- <-. exists 0, 0, [].
    rewrite app_nil_r, skipn_all2 by (simpl in Hfuel; lia).
    simpl in Hfuel. repeat split; try lia. constructor.
  - destruct (Nat.ltb i (length records)) eqn:Ei.
    2:{ injection H as <- <- <-. apply Nat.ltb_ge in Ei. exists 0, 0, [].
        rewrite app_nil_r, skipn_all2 by lia.
        repeat split; try lia. constructor. }
    apply Nat.ltb_lt in Ei.
    set (chunk := Embeddings.slice i (i + CHUNK_SIZE) records) in H.
    assert (Hlen : length chunk = Nat.min CHUNK_SIZE (length records - i)).
    { unfold chunk, Embeddings.slice.
      rewrite length_firstn, length_skipn. lia. }
    assert (Hsplit : skipn i records
                     = chunk ++ skipn (i + CHUNK_SIZE) records).
    { unfold chunk, Embeddings.slice.
      replace (i + CHUNK_SIZE - i) with CHUNK_SIZE by lia.
      rewrite Nat.add_comm, <- skipn_skipn. symmetry. apply firstn_skipn. }
    destruct (upsert env (i / CHUNK_SIZE) chunk) as [message|];
      destruct (upsert_chunks env fuel (i + CHUNK_SIZE) records _ _)
        as [[s' e'] requests'] eqn:Erec;
      injection H as <- <- <-;
      apply IH in Erec
        as (accepted & rejected & new_errors & -> & -> & Hr & Hlo & Hhi
              & Hc & Hall);
      try (unfold CHUNK_SIZE in *; lia).
    + eexists accepted, (S rejected), (_ :: new_errors).
      rewrite <- app_assoc. simpl.
      unfold CHUNK_SIZE in *.
      repeat split; try lia.
      * rewrite Hc. symmetry. exact Hsplit.
      * constructor; [lia|exact Hall].
    + exists (length chunk + accepted), rejected, new_errors.
      unfold CHUNK_SIZE in *.
      repeat split; try lia.
      * simpl. rewrite Hc. symmetry. exact Hsplit.
      * constructor; [lia|exact Hall].
Qed.

End WithEnv.

Lemma records_regulations (g : nat -> option (list float))
    (h : nat -> string) (regulations : list RegulationInput) :
  map regulation
    (imap (fun i reg =>
             {| regulation := reg; embedding := g i; updated_at := h i |})
       regulations)
  = regulations.
Proof.
  revert g h. induction regulations as [|r rs IH]; intros g h;
    [reflexivity|].
  rewrite imap_cons. simpl. f_equal.
  exact (IH (fun i => g (S i)) (fun i => h (S i))).
Qed.

(** X17.  The counters of an ingestion.  [succeeded] counts the records of the
    accepted chunks, while [failed] counts the rejected chunks, not their
    records: together they may fall short of the number of regulations, by
    up to [CHUNK_SIZE - 1] for each rejected chunk.  Every regulation is
    handed to the database once, in order, in chunks of at most
    [CHUNK_SIZE]; and when the embeddings cannot be obtained, nothing is
    handed to it. *)
Theorem upsertRegulations_counts (env : Env)
    (regulations : list RegulationInput) :
  match upsertRegulations env regulations with
  | (Returned result, _, requests) =>
      failed result = length (errors result)
      /\ succeeded result + failed result <= length regulations
      /\ length regulations
           <= succeeded result + CHUNK_SIZE * failed result
      /\ map regulation (concat requests) = regulations
      /\ List.Forall (fun c => 0 < length c <= CHUNK_SIZE) requests
  | (Threw _, _, requests) => requests = []
  end.
Proof.
  unfold upsertRegulations.
  destruct (Embeddings.embedDocuments (embeddings env) _)
    as [[embedded|e] actions]; [|reflexivity].
  set (records := imap _ regulations).
  destruct (upsert_chunks env (length records) 0 records 0 [])
    as [[s e] requests] eqn:Eu.
  apply upsert_chunks_counts in Eu
    as (accepted & rejected & new_errors & -> & -> & Hr & Hlo & Hhi & Hc
          & Hall).
  2:{ unfold CHUNK_SIZE. lia. }
  assert (Hlen : length records = length regulations)
    by apply length_imap.
  cbn [failed succeeded errors]. simpl in Hc |- *.
  split; [reflexivity|]. rewrite Hr. rewrite Hlen in Hlo, Hhi.
  split; [lia|]. split; [unfold CHUNK_SIZE in *; lia|].
  split; [|exact Hall].
  rewrite Hc. unfold records. apply records_regulations.
Qed.

(** X18.  What is embedded for a regulation: its five labelled fields on one
    line, separated by single spaces, when no field has a line break of its
    own. *)
Theorem regulation_embedding_text (r : RegulationInput) :
  AnalyzerSummary.one_line (framework r) ->
  AnalyzerSummary.one_line (article r) ->
  AnalyzerSummary.one_line (title r) ->
  List.Forall AnalyzerSummary.one_line (tags r) ->
  AnalyzerSummary.one_line (content r) ->
  Embeddings.sanitize (buildRegulationEmbeddingText r)
    = JS.trim
        (String.concat " "
           [("Framework: " ++ framework r)%string;
            ("Article: " ++ article r)%string;
            ("Title: " ++ title r)%string;
            ("Tags: " ++ String.concat ", " (tags r))%string;
            ("Content: " ++ content r)%string]).
Proof.
  intros Hf Ha Ht Htags Hc.
  unfold Embeddings.sanitize, buildRegulationEmbeddingText.
  rewrite AnalyzerTextFacts.collapse_newlines_concat; [reflexivity|].
  assert (Hlabel : forall label, AnalyzerSummary.one_line label ->
                     forall x, AnalyzerSummary.one_line x ->
                       AnalyzerSummary.one_line (label ++ x)%string)
    by (intros; apply AnalyzerTextFacts.one_line_app; assumption).
  assert (Hl : forall s, ~ In JS.LF (list_ascii_of_string s) ->
                 AnalyzerSummary.one_line s) by (intros s H; exact H).
  repeat constructor; try discriminate;
    apply Hlabel; try assumption;
    try (apply Hl; vm_compute; intuition discriminate).
  apply AnalyzerTextFacts.concat_one_line; [|exact Htags].
  apply Hl. vm_compute. intuition discriminate.
Qed.

Lemma regulation_embedding_text_witness :
  Embeddings.sanitize
    (buildRegulationEmbeddingText
       {| framework := "GDPR"; article := "Article 32";
          title := "Security of processing";
          content := "Encrypt personal data. ";
          jurisdiction := "EU"; severity := "high";
          tags := ["encryption"; "security"] |})
  = ("Framework: GDPR Article: Article 32 Title: Security of processing "
       ++ "Tags: encryption, security Content: Encrypt personal data.")%string.
Proof.
  apply (regulation_embedding_text
           {| framework := "GDPR"; article := "Article 32";
              title := "Security of processing";
              content := "Encrypt personal data. ";
              jurisdiction := "EU"; severity := "high";
              tags := ["encryption"; "security"] |});
    try (repeat constructor); vm_compute; intuition discriminate.
Defined.

(** A run in which the database rejects the first of two chunks: fifty
    records are lost, and one failure is reported. *)
Example upsertRegulations_rejected_chunk :
  let r := {| framework := "GDPR"; article := "Article 32";
              title := "Security of processing"; content := "Encrypt.";
              jurisdiction := "EU"; severity := "high"; tags := [] |} in
  let env := {| embeddings := EmbeddingsFixtures.reversing;
                now := fun _ => "2025-01-01T00:00:00.000Z";
                upsert := fun n _ =>
                  if Nat.eqb n 0 then Some "timeout" else None |} in
  match fst (fst (upsertRegulations env (repeat r 51))) with
  | Returned result =>
      (succeeded result, failed result, errors result)
        = (1, 1, ["Chunk 1: timeout"])
  | Threw _ => False
  end.
Proof. vm_compute. reflexivity. Qed.

End VectorStoreFacts.

Module GatewayFacts.
Import Gateway Workspaces Compliance.

(** In a table where the values of a column are unique, the selection on a
    value has one row when the value is there, and none otherwise. *)
Lemma filter_unique {A : Type} (f : A -> string) (x : string)
    (l : list A) :
  List.NoDup (map f l) ->
  (In x (map f l) ->
   exists row, In row l /\ f row = x
     /\ List.filter (fun r => String.eqb (f r) x) l = [row])
  /\ (~ In x (map f l) -> List.filter (fun r => String.eqb (f r) x) l = []).
Proof.
  induction l as [|r l IH]; intros Hnd; simpl.
  - split; [intros []|reflexivity].
  - inversion Hnd as [|? ? Hr Hl]; subst.
    destruct (IH Hl) as [IH1 IH2].
    destruct (String.eqb (f r) x) eqn:E.
    + apply String.eqb_eq in E. split.
      * intros _. exists r. split; [left; reflexivity|].
        split; [exact E|]. rewrite IH2; [reflexivity|].
        rewrite <- E. exact Hr.
      * intros Hn. contradiction Hn. left. exact E.
    + apply String.eqb_neq in E. split.
      * intros [H|H]; [contradiction|].
        destruct (IH1 H) as (row & Hrow & Hf & Hfilter).
        exists row. split; [right; exact Hrow|]. split; assumption.
      * intros Hn. apply IH2. intros H. apply Hn. right. exact H.
Qed.

Lemma single_filter {A : Type} (p : A -> bool) (l : list A) (row : A) :
  single (List.filter p l) = Some row -> In row l /\ p row = true.
Proof.
  intros H. unfold single in H.
  destruct (List.filter p l) as [|r [|r' rest]] eqn:E; try discriminate H.
  injection H as ->. apply filter_In. rewrite E. left. reflexivity.
Qed.

(** X19.  [create] keeps the slugs unique, when its look-up is answered: a slug
    that is taken is refused with a conflict and the table is left alone. *)
Theorem create_keeps_slugs_unique (env : Env) (input : CreateWorkspaceInput)
    (w : World) :
  List.NoDup (map row_slug (workspaces w)) ->
  db_up env (ticks w) = true ->
  List.NoDup (map row_slug (workspaces (snd (create env input w))))
  /\ (In (in_slug input) (map row_slug (workspaces w)) ->
      fst (create env input w) = Fail ConflictException
      /\ workspaces (snd (create env input w)) = workspaces w).
Proof.
  intros Hnd Hup.
  destruct (filter_unique row_slug (in_slug input) (workspaces w) Hnd)
    as [Hin Hout].
  unfold create, select_single, bind, tick, read_workspaces, ret, throw.
  cbn [ticks workspaces]. rewrite Hup.
  destruct (in_dec string_dec (in_slug input) (map row_slug (workspaces w)))
    as [Hi|Hn].
  - destruct (Hin Hi) as (row & _ & _ & ->). simpl. auto.
  - rewrite (Hout Hn). cbn [single ticks workspaces].
    split; [|intros Hi; contradiction].
    destruct (db_up env (S (ticks w))); cbn [snd workspaces write_workspaces];
      [|exact Hnd].
    rewrite map_app. simpl. apply List.NoDup_app.
    + exact Hnd.
    + constructor; [intros []|constructor].
    + intros x Hx [<-|[]]. exact (Hn Hx).
Qed.

Lemma create_keeps_slugs_unique_witness :
  List.NoDup
    (map row_slug
       (workspaces
          (snd (create GatewayFixtures.answering GatewayFixtures.globex
                  GatewayFixtures.world))))
  /\ map row_slug
       (workspaces
          (snd (create GatewayFixtures.answering GatewayFixtures.globex
                  GatewayFixtures.world)))
     = ["acme"; "globex"].
Proof.
  split; [|reflexivity].
  apply (create_keeps_slugs_unique GatewayFixtures.answering
           GatewayFixtures.globex GatewayFixtures.world).
  - repeat constructor. intros [].
  - reflexivity.
Defined.

(** X20.  Tenant isolation: [findById] returns a workspace to its owner only.
    What it returns is the stored row of that id, and it writes nothing. *)
Theorem findById_owner_only (env : Env) (id requestingUserId : string)
    (w w' : World) (found : Workspace) :
  findById env id requestingUserId w = (Ok found, w') ->
  ownerId found = requestingUserId
  /\ Gateway.id found = id
  /\ (exists row, In row (workspaces w) /\ found = mapRow row)
  /\ workspaces w' = workspaces w.
Proof.
  unfold findById, select_single, bind, tick, read_workspaces, ret, throw.
  cbn [ticks workspaces]. intros H.
  destruct (db_up env (ticks w)); [|discriminate H].
  destruct (single _) as [row|] eqn:Es; [|discriminate H].
  apply single_filter in Es as [Hin Hid]. apply String.eqb_eq in Hid.
  destruct (String.eqb (owner_id row) requestingUserId) eqn:Eo;
    [|discriminate H].
  apply String.eqb_eq in Eo. injection H as <- <-. simpl.
  split; [exact Eo|]. split; [exact Hid|]. split; [|reflexivity].
  exists row. split; [exact Hin|reflexivity].
Qed.

Lemma findById_owner_only_witness :
  ownerId (mapRow GatewayFixtures.acme) = "user-1"
  /\ Gateway.id (mapRow GatewayFixtures.acme) = "ws-acme"
  /\ (exists row,
        In row (workspaces GatewayFixtures.world)
        /\ mapRow GatewayFixtures.acme = mapRow row)
  /\ workspaces
       (snd (findById GatewayFixtures.answering "ws-acme" "user-1"
               GatewayFixtures.world))
     = workspaces GatewayFixtures.world.
Proof.
  apply (findById_owner_only GatewayFixtures.answering "ws-acme" "user-1"
           GatewayFixtures.world).
  reflexivity.
Defined.

(** X21.  What [create] stores can be read back: once a workspace is created, and
    as long as the identifiers of the table are unique and the database
    answers, [findById] returns it to its owner and refuses it to anyone
    else. *)
Theorem create_then_findById (env : Env) (input : CreateWorkspaceInput)
    (w w1 : World) (created : Workspace) (requestingUserId : string) :
  create env input w = (Ok created, w1) ->
  List.NoDup (map row_id (workspaces w1)) ->
  db_up env (ticks w1) = true ->
  fst (findById env (Gateway.id created) requestingUserId w1)
    = if String.eqb (in_ownerId input) requestingUserId
      then Ok created
      else Fail ForbiddenException.
Proof.
  intros Hc Hnd Hup.
  assert (Hrow : exists row,
            In row (workspaces w1) /\ created = mapRow row
            /\ owner_id row = in_ownerId input).
  { unfold create, select_single, bind, tick, read_workspaces,
      write_workspaces, ret, throw in Hc.
    cbn [ticks workspaces] in Hc.
    destruct (if db_up env (ticks w) then _ else None);
      cbv beta iota in Hc; [discriminate Hc|].
    cbn [ticks workspaces] in Hc.
    destruct (db_up env (S (ticks w))); cbv beta iota in Hc;
      [|discriminate Hc].
    cbn [ticks workspaces] in Hc.
    injection Hc as <- <-. eexists. cbn [workspaces].
    split; [apply in_or_app; right; left; reflexivity|].
    split; reflexivity. }
  destruct Hrow as (row & Hin & -> & Ho).
  destruct (filter_unique row_id (row_id row) (workspaces w1) Hnd)
    as [Hfound _].
  destruct (Hfound (in_map row_id _ _ Hin)) as (row' & Hin' & Hid & Hf).
  assert (row' = row).
  { clear Hf Hfound. revert Hnd Hin Hin' Hid.
    generalize (workspaces w1). intros l.
    induction l as [|r l IH]; intros Hnd Hin Hin' Hid; [destruct Hin|].
    simpl in Hnd. inversion Hnd as [|? ? Hr Hl]; subst.
    destruct Hin as [->|Hin], Hin' as [->|Hin'].
    - reflexivity.
    - contradiction Hr. rewrite <- Hid. apply in_map. exact Hin'.
    - contradiction Hr. rewrite Hid. apply in_map. exact Hin.
    - apply IH; assumption. }
  subst row'.
  unfold findById, select_single, bind, tick, read_workspaces, ret, throw.
  cbn [ticks workspaces Gateway.id mapRow]. rewrite Hup, Hf.
  cbn [single]. rewrite Ho.
  destruct (String.eqb (in_ownerId input) requestingUserId); reflexivity.
Qed.

Lemma create_then_findById_witness :
  let run := create GatewayFixtures.answering GatewayFixtures.globex
               GatewayFixtures.world in
  fst (findById GatewayFixtures.answering "ws-1" "user-2" (snd run))
    = Ok {| id := "ws-1"; name := "Globex"; slug := "globex";
            ownerId := "user-2"; plan := "free";
            stripeCustomerId := None; stripeSubscriptionId := None;
            monthlyReportCount := Some 0%Z;
            createdAt := "2025-01-01T00:00:00.000Z" |}.
Proof.
  intros run.
  apply (create_then_findById GatewayFixtures.answering
           GatewayFixtures.globex GatewayFixtures.world (snd run)
           {| id := "ws-1"; name := "Globex"; slug := "globex";
              ownerId := "user-2"; plan := "free";
              stripeCustomerId := None; stripeSubscriptionId := None;
              monthlyReportCount := Some 0%Z;
              createdAt := "2025-01-01T00:00:00.000Z" |} "user-2").
  - reflexivity.
  - unfold run. vm_compute.
    constructor; [intros [H|[]]; discriminate H|].
    constructor; [intros []|constructor].
  - reflexivity.
Defined.

(** X22.  The quota gate of [submitJob].  A job that is accepted belongs to a
    stored workspace whose count of reports is below the limit of its plan;
    its record and its queue entry carry the identifier that is returned.
    When the count has reached the limit, the call fails and writes
    nothing; what it raises is not an HTTP exception but a [TypeError], the
    class [PaymentRequiredException] that it instantiates being no export
    of the framework. *)
Theorem submitJob_quota (env : Env) (input : SubmitJobInput) (w : World) :
  (forall jobId position w',
     submitJob env input w = (Ok (jobId, position), w') ->
     exists row,
       In row (workspaces w)
       /\ row_id row = workspaceId input
       /\ below
            (match monthly_report_count row with Some n => n | None => 0%Z end)
            (limit_of (row_plan row)) = true
       /\ (exists record,
             compliance_jobs w' = compliance_jobs w ++ [record]
             /\ job_id record = jobId
             /\ job_workspace_id record = workspaceId input)
       /\ (exists payload,
             queue w' = queue w ++ [payload]
             /\ p_jobId payload = jobId
             /\ p_workspaceId payload = workspaceId input))
  /\ (forall row,
        db_up env (ticks w) = true ->
        List.filter (fun r => String.eqb (row_id r) (workspaceId input))
          (workspaces w) = [row] ->
        below
          (match monthly_report_count row with Some n => n | None => 0%Z end)
          (limit_of (row_plan row)) = false ->
        exists w',
          submitJob env input w = (Fail (JsError TypeError), w')
          /\ workspaces w' = workspaces w
          /\ compliance_jobs w' = compliance_jobs w
          /\ queue w' = queue w).
Proof.
  split.
  - intros jobId position w' H.
    unfold submitJob, checkReportLimit, select_single, incrementReportCount,
      bind, tick, read_workspaces, write_workspaces, append_job,
      append_queue, ret, throw in H.
    cbn [ticks workspaces compliance_jobs queue] in H.
    destruct (db_up env (ticks w)); [|discriminate H].
    destruct (single _) as [row|] eqn:Es; [|discriminate H].
    apply single_filter in Es as [Hin Hid]. apply String.eqb_eq in Hid.
    cbn [allowed] in H.
    destruct (below _ _) eqn:Eb; [|discriminate H].
    cbn [negb ticks workspaces compliance_jobs queue] in H.
    destruct (db_up env (S (S (ticks w)))); [|discriminate H].
    cbn [negb ticks workspaces compliance_jobs queue] in H.
    exists row. split; [exact Hin|]. split; [exact Hid|].
    split; [exact Eb|].
    destruct (if db_up env (S (S (S (ticks w)))) then _ else None);
      cbn [ticks workspaces compliance_jobs queue] in H;
      (destruct (queue_up env (S (S (S (S (ticks w))))));
         [|discriminate H]);
      cbn [negb ticks workspaces compliance_jobs queue] in H;
      (destruct (queue_up env (S (S (S (S (S (ticks w)))))));
         [|discriminate H]);
      injection H as <- <- <-; cbn [compliance_jobs queue];
      (split; eexists; (split; [reflexivity|split; reflexivity])).
  - intros row Hup Hf Hb. eexists.
    unfold submitJob, checkReportLimit, select_single, bind, tick,
      read_workspaces, ret, throw.
    cbn [ticks workspaces]. rewrite Hup, Hf. cbn [single allowed].
    rewrite Hb. cbn [negb]. repeat split.
Qed.

Lemma submitJob_quota_witness :
  exists w',
    submitJob GatewayFixtures.answering GatewayFixtures.job
      GatewayFixtures.world = (Fail (JsError TypeError), w')
    /\ workspaces w' = workspaces GatewayFixtures.world
    /\ compliance_jobs w' = compliance_jobs GatewayFixtures.world
    /\ queue w' = queue GatewayFixtures.world.
Proof.
  apply (proj2 (submitJob_quota GatewayFixtures.answering GatewayFixtures.job
                  GatewayFixtures.world) GatewayFixtures.acme);
    reflexivity.
Defined.

End GatewayFacts.

Module GitHubFacts.
Import JS Types Runtime DiffEngine VersionStore SpecPatcher Specification.
Import PatcherSpecification GitHub GitHubSpecification.
Import DiffEngineFacts SpecPatcherFacts.
#[local] Arguments String.append !s1 s2 : simpl nomatch.
Local Open Scope string_scope.



(** *** Branch names *)

Lemma ref_name_app (a b : string) :
  ref_name a -> ref_name b -> ref_name (a ++ b).
Proof.
  unfold ref_name. intros Ha Hb.
  induction a as [|c a IH]; [exact Hb|].
  change (String c a ++ b) with (String c (a ++ b)).
  simpl in Ha |- *. inversion Ha; subst. constructor; auto.
Qed.

Lemma safe_char (c : ascii) :
  is_safe c = true ->
  ref_char (if is_upper c then ascii_of_nat (nat_of_ascii c + 32) else c)
  = true.
Proof. destruct c as [[] [] [] [] [] [] [] []]; intros H; try reflexivity;
  discriminate H. Qed.

Lemma safe_trigger_ref_name (s : string) :
  ref_name (toLowerCase (replace_unsafe s)).
Proof.
  unfold ref_name, toLowerCase.
  induction s as [|c s IH]; [constructor|].
  cbn [replace_unsafe].
  destruct (is_safe c) eqn:Esafe.
  { cbn [map_string list_ascii_of_string]. constructor; [|exact IH].
    apply safe_char. exact Esafe. }
  destruct (Nat.ltb (nat_of_ascii c) 128).
  { cbn [map_string list_ascii_of_string]. constructor; [reflexivity|].
    exact IH. }
  destruct (Nat.ltb (nat_of_ascii c) 192); [exact IH|].
  destruct (Nat.ltb (nat_of_ascii c) 240);
    cbn [map_string list_ascii_of_string];
    repeat (constructor; [reflexivity|]); exact IH.
Qed.

Lemma digits_ref_name (s : string) :
  List.Forall (fun c => is_digit c = true) (list_ascii_of_string s) ->
  ref_name s.
Proof.
  unfold ref_name. apply List.Forall_impl. intros c Hc.
  unfold ref_char. rewrite Hc. destruct (is_lower c); reflexivity.
Qed.

(** X24.  The branch of the pull request of a patch is made of lower-case
    letters, digits, hyphens, dots and slashes only, whatever the regulation
    is called, when the label of the patched version has the shape
    [MAJOR.MINOR.PATCH] with an optional leading [v] and a minor component
    below 2^53. *)
Theorem branchName_ref_name (env : Runtime.Env)
    (regulationTrigger current v major minor patch : string) :
  version_shape current v major minor patch ->
  (parseInt minor < 2 ^ 53)%N ->
  ref_name (branchName regulationTrigger (bumpMinorVersion env current)).
Proof.
  intros Hshape Hminor.
  rewrite (VersionLabelFacts.bumpMinorVersion_shape env _ _ _ _ _ Hshape
             Hminor).
  destruct Hshape as (_ & [_ Hmajor] & _).
  unfold branchName.
  apply ref_name_app; [repeat constructor|].
  apply ref_name_app; [apply safe_trigger_ref_name|].
  apply ref_name_app; [repeat constructor|].
  apply ref_name_app; [repeat constructor|].
  apply ref_name_app; [apply digits_ref_name; exact Hmajor|].
  apply ref_name_app; [repeat constructor|].
  apply ref_name_app; [|repeat constructor].
  apply digits_ref_name, VersionLabelFacts.string_of_uint_digits.
Qed.

Lemma branchName_ref_name_witness :
  ref_name "compliance/gdpr-article-32-v1.3.0".
Proof.
  apply (branchName_ref_name PipelineFixtures.patching "GDPR Article 32"
           "v1.2.0" "v" "1" "2" "0").
  - split; [right; reflexivity|].
    repeat split; try discriminate; repeat constructor.
  - reflexivity.
Defined.

End GitHubFacts.

(** ** The scanner *)

Module ScannerFacts.
Import Scanner.

(** X25.  For a result whose [passed] is the verdict of [scanDraft] on its score,
    no human review is asked for exactly when the score is at least
    [HUMAN_REVIEW_THRESHOLD] and no finding is of high risk: a draft that
    passes with a score between the two thresholds is always reviewed, and
    so is a result whose score is not a number. *)
Theorem requiresHumanReview_scanned (r : ScanResult) :
  passed r = passes (score r) ->
  requiresHumanReview r = false <->
  (HUMAN_REVIEW_THRESHOLD <=? score r)%float = true
  /\ List.Forall (fun f => riskLevel f <> "high") (findings r).
Proof.
  intros Hp. unfold requiresHumanReview. rewrite Hp. unfold passes.
  assert (Hhigh : existsb (fun f => String.eqb (riskLevel f) "high")
                    (findings r) = false
                  <-> List.Forall (fun f => riskLevel f <> "high")
                        (findings r)).
  { rewrite List.Forall_forall. split.
    - intros H f Hf E.
      assert (Ht : existsb (fun f => String.eqb (riskLevel f) "high")
                     (findings r) = true).
      { apply existsb_exists. exists f. split; [exact Hf|].
        apply String.eqb_eq. exact E. }
      rewrite H in Ht. discriminate Ht.
    - intros H.
      destruct (existsb _ (findings r)) eqn:E; [|reflexivity].
      apply existsb_exists in E as (f & Hf & E).
      apply String.eqb_eq in E. contradiction (H f Hf E). }
  assert (Hthr : (GOLD_STANDARD_THRESHOLD <=? HUMAN_REVIEW_THRESHOLD)%float
                 = true) by reflexivity.
  assert (Hnum : (HUMAN_REVIEW_THRESHOLD =? HUMAN_REVIEW_THRESHOLD)%float
                 = true) by reflexivity.
  split.
  - destruct (GOLD_STANDARD_THRESHOLD <=? score r)%float eqn:Eg;
      cbn [negb]; [|discriminate].
    pose proof (FloatFacts.leb_not_nan_r _ _ Eg) as Hs.
    destruct (score r <? HUMAN_REVIEW_THRESHOLD)%float eqn:El;
      [discriminate|].
    intros H. split; [|apply Hhigh; exact H].
    rewrite (FloatFacts.leb_negb_ltb (score r) HUMAN_REVIEW_THRESHOLD Hs Hnum),
      El.
    reflexivity.
  - intros [Hh Hf].
    rewrite (FloatFacts.leb_trans GOLD_STANDARD_THRESHOLD
               HUMAN_REVIEW_THRESHOLD (score r) Hthr Hh).
    cbn [negb].
    pose proof (FloatFacts.leb_not_nan_r _ _ Hh) as Hs.
    rewrite (FloatFacts.leb_negb_ltb (score r) HUMAN_REVIEW_THRESHOLD Hs Hnum)
      in Hh.
    destruct (score r <? HUMAN_REVIEW_THRESHOLD)%float; [discriminate Hh|].
    apply Hhigh. exact Hf.
Qed.

Lemma requiresHumanReview_scanned_witness :
  requiresHumanReview
    {| passed := true; score := 0x1.ccccccccccccdp-1%float;
       findings := [{| riskLevel := "low" |}] |} = false.
Proof.
  apply (requiresHumanReview_scanned
           {| passed := true; score := 0x1.ccccccccccccdp-1%float;
              findings := [{| riskLevel := "low" |}] |}).
  - reflexivity.
  - split; [reflexivity|]. repeat constructor. discriminate.
Defined.

End ScannerFacts.
